(** * Teacher-Assessment-Tool: the analytics engine of [src/utils/analytics.ts]

    A shallow embedding of the four analytics functions ([calculateTrends],
    [calculatePeerComparison], [generateInterventionAlerts],
    [generateRecommendations]) and of the pieces of the ECMAScript runtime
    they call, followed by the properties stated about them.

    Conventions of the embedding:
    - a JavaScript Number that holds a score, an average or a percentile is
      an IEEE-754 binary64 value: Rocq's primitive [float];
    - a Number that is integral by construction (an array length, a field of
      a Date) is a [Z] or a [nat]; NaN in such a position is [None];
    - a JavaScript [Map] is an insertion-ordered association list with unique
      keys; a plain object keyed by category name is the [gmap string _] of
      its own properties, read through [Object_get], which also finds the
      members inherited from [Object.prototype] ("constructor", "toString",
      ...); an object whose [Object.values] are folded in order is an
      association list;
    - a call either returns a value or throws: [Completion]; the only
      exception the analytics code can raise on well-typed records is the
      TypeError of calling a missing method on an inherited member;
    - the definitions of [Analytics] take and return arrays as values and
      thread the arrays a function fills through its loops; those of
      [InPlace] run the same statements on a heap, where arrays are passed
      by reference and [push] and [sort] work in place, and are proved to
      compute the former;
    - what the host decides (parsing a timestamp, the local time zone, the
      decimal rendering of a fractional Number) is a field of [Host]. *)

From Stdlib Require Import ZArith Floats Uint63 List Permutation Sorted Lia.
From stdpp Require Import gmap strings list fin_maps pretty.

Set Warnings "-inexact-float".
Local Open Scope Z_scope.

(** ** The ECMAScript runtime *)

Module JS.

(** *** Numbers *)

(** The Number whose value is the integer [z] (exact for |z| < 2^53). *)
Definition Z2F (z : Z) : float :=
  if z <? 0 then (- of_uint63 (Uint63.of_Z (- z)))%float
  else of_uint63 (Uint63.of_Z z).

Definition nat2F (n : nat) : float := Z2F (Z.of_nat n).

(** The magnitude of a finite nonzero binary64 [m * 2^e], truncated. *)
Definition truncMag (m : positive) (e : Z) : Z :=
  if 0 <=? e then Z.shiftl (Zpos m) e else Z.shiftr (Zpos m) (- e).

(** [TimeClip(ToNumber(v))] for a Number [v] (ECMA-262, 21.4.1.31):
    NaN outside +-8.64e15, otherwise [ToIntegerOrInfinity], never -0. *)
Definition TimeClip (time : float) : float :=
  match Prim2SF time with
  | S754_zero _ => 0%float
  | S754_finite s m e =>
      if (8.64e15 <? abs time)%float then nan
      else Z2F (if s then - truncMag m e else truncMag m e)
  | _ => nan
  end.

(** [Math.round]: the nearest integer, a tie going toward +Infinity;
    the sign of a zero result is the sign of the argument. *)
Definition Math_round (x : float) : float :=
  match Prim2SF x with
  | S754_finite s m e =>
      if 0 <=? e then x
      else
        let k := - e in
        let twice := if s then - (2 * Zpos m) else 2 * Zpos m in
        let r := (twice + 2 ^ k) / 2 ^ (k + 1) in
        if r =? 0 then (if s then (-0)%float else 0%float) else Z2F r
  | _ => x
  end.

(** [Math.ceil]. *)
Definition Math_ceil (x : float) : float :=
  match Prim2SF x with
  | S754_finite s m e =>
      if 0 <=? e then x
      else
        let k := - e in
        if s then
          let r := Zpos m / 2 ^ k in
          if r =? 0 then (-0)%float else Z2F (- r)
        else Z2F ((Zpos m + 2 ^ k - 1) / 2 ^ k)
  | _ => x
  end.

(** NaN where an integral Number is missing. *)
Definition optZ2F (n : option Z) : float :=
  match n with None => nan | Some z => Z2F z end.

(** The integer a Number holds, if it is finite and integral. *)
Definition F2Z (x : float) : option Z :=
  match Prim2SF x with
  | S754_zero _ => Some 0
  | S754_finite s m e =>
      if 0 <=? e then Some (if s then - Z.shiftl (Zpos m) e else Z.shiftl (Zpos m) e)
      else if Zpos m mod 2 ^ (- e) =? 0
           then Some (if s then - (Zpos m / 2 ^ (- e)) else Zpos m / 2 ^ (- e))
           else None
  | _ => None
  end.

(** [a + b] folded from the left, as [arr.reduce((a, b) => a + b, 0)]. *)
Definition sum (l : list float) : float :=
  fold_left (fun a b => (a + b)%float) l 0%float.

(** *** Arrays *)

(** [Array.prototype.sort(comparefn)]: stable (ES2019); [a] goes after [b]
    exactly when [comparefn(a, b) > 0], a NaN result counting as 0.  With a
    consistent comparator every stable sort returns this list; with an
    inconsistent one the order is implementation-defined and this is one
    admissible outcome. *)
Fixpoint sort_insert {A} (cmp : A -> A -> float) (x : A) (l : list A) : list A :=
  match l with
  | [] => [x]
  | y :: l' => if (0 <? cmp x y)%float then y :: sort_insert cmp x l'
               else x :: l
  end.

Definition Array_sort {A} (cmp : A -> A -> float) (l : list A) : list A :=
  fold_right (sort_insert cmp) [] l.

(** The relative index of [slice]: negative counts from the end. *)
Definition relIndex (len i : Z) : Z :=
  if i <? 0 then Z.max (len + i) 0 else Z.min i len.

(** [arr.slice(start, end)]; [stop = None] is [arr.slice(start)]. *)
Definition Array_slice {A} (start : Z) (stop : option Z) (l : list A) : list A :=
  let len := Z.of_nat (length l) in
  let k := relIndex len start in
  let final := match stop with None => len | Some e => relIndex len e end in
  take (Z.to_nat (Z.max (final - k) 0)) (drop (Z.to_nat k) l).

(** [arr.findIndex(p)]: the first index satisfying [p], or -1. *)
Fixpoint findIndex_from {A} (p : A -> bool) (i : Z) (l : list A) : Z :=
  match l with
  | [] => -1
  | x :: l' => if p x then i else findIndex_from p (i + 1) l'
  end.

Definition Array_findIndex {A} (p : A -> bool) (l : list A) : Z :=
  findIndex_from p 0 l.

(** [arr[arr.length - 1]] ([undefined] on the empty array). *)
Definition Array_last {A} (l : list A) : option A := last l.

(** *** Maps: insertion-ordered, unique keys *)

Definition JSMap (V : Type) := list (string * V).

Fixpoint Map_get {V} (k : string) (m : JSMap V) : option V :=
  match m with
  | [] => None
  | (k', v) :: m' => if decide (k' = k) then Some v else Map_get k m'
  end.

Definition Map_has {V} (k : string) (m : JSMap V) : bool :=
  if Map_get k m is Some _ then true else false.

(** [m.set(k, v)]: replaces in place, or appends a new entry. *)
Fixpoint Map_set {V} (k : string) (v : V) (m : JSMap V) : JSMap V :=
  match m with
  | [] => [(k, v)]
  | (k', v') :: m' =>
      if decide (k' = k) then (k', v) :: m' else (k', v') :: Map_set k v m'
  end.

(** Mutation of the value stored under [k] ([m.get(k)!.f = ...]). *)
Fixpoint Map_update {V} (k : string) (f : V -> V) (m : JSMap V) : JSMap V :=
  match m with
  | [] => []
  | (k', v) :: m' =>
      if decide (k' = k) then (k', f v) :: m' else (k', v) :: Map_update k f m'
  end.

Definition Map_keys {V} (m : JSMap V) : list string := map fst m.

(** *** Strings *)

Fixpoint repeat_string (n : nat) (c : string) : string :=
  match n with O => "" | S n' => c +:+ repeat_string n' c end.

(** [s.padStart(2, '0')]. *)
Definition padStart2 (s : string) : string :=
  repeat_string (2 - String.length s) "0" +:+ s.

(** The decimal rendering of a Number that is integral by construction
    (a year, a month number), ["NaN"] when it is missing. *)
Definition intToString (n : option Z) : string :=
  match n with None => "NaN" | Some z => pretty z end.

(** *** Dates (ECMA-262, 21.4.1) *)

Definition msPerDay : Z := 86400000.

Definition Day (t : Z) : Z := t / msPerDay.

Definition isLeapYear (y : Z) : bool :=
  ((y mod 4 =? 0) && negb (y mod 100 =? 0)) || (y mod 400 =? 0).

Definition DayFromYear (y : Z) : Z :=
  365 * (y - 1970) + (y - 1969) / 4 - (y - 1901) / 100 + (y - 1601) / 400.

(** The largest [y] with [DayFromYear y <= Day t]: the Gregorian mean year
    gives an estimate that is off by at most one. *)
Definition YearFromTime (t : Z) : Z :=
  let d := Day t in
  let y := 1970 + (d * 400) / 146097 in
  if DayFromYear (y + 1) <=? d then y + 1
  else if d <? DayFromYear y then y - 1
  else y.

Definition DayWithinYear (t : Z) : Z := Day t - DayFromYear (YearFromTime t).

(** The day number within the year on which month [m] (0-11) starts. *)
Definition monthStart (leap : bool) (m : Z) : Z :=
  let l := if leap then 1 else 0 in
  match m with
  | 0 => 0 | 1 => 31 | 2 => 59 + l | 3 => 90 + l | 4 => 120 + l
  | 5 => 151 + l | 6 => 181 + l | 7 => 212 + l | 8 => 243 + l
  | 9 => 273 + l | 10 => 304 + l | 11 => 334 + l
  | _ => 365 + l
  end.

Definition monthOfDay (leap : bool) (d : Z) : Z :=
  if d <? monthStart leap 1 then 0 else if d <? monthStart leap 2 then 1
  else if d <? monthStart leap 3 then 2 else if d <? monthStart leap 4 then 3
  else if d <? monthStart leap 5 then 4 else if d <? monthStart leap 6 then 5
  else if d <? monthStart leap 7 then 6 else if d <? monthStart leap 8 then 7
  else if d <? monthStart leap 9 then 8 else if d <? monthStart leap 10 then 9
  else if d <? monthStart leap 11 then 10 else 11.

Definition InLeapYear (t : Z) : bool := isLeapYear (YearFromTime t).

Definition MonthFromTime (t : Z) : Z := monthOfDay (InLeapYear t) (DayWithinYear t).

Definition DateFromTime (t : Z) : Z :=
  DayWithinYear t - monthStart (InLeapYear t) (MonthFromTime t) + 1.

Definition WeekDay (t : Z) : Z := (Day t + 4) mod 7.

Definition MakeDay (year month date : Z) : Z :=
  let ym := year + month / 12 in
  let mn := month mod 12 in
  DayFromYear ym + monthStart (isLeapYear ym) mn + date - 1.

Definition MakeDate (day time : Z) : Z := day * msPerDay + time.

(** A Date object: its time value, or NaN ([Invalid Date]). *)
Inductive JSDate : Type :=
| InvalidDate
| TimeValue (t : Z).

Definition clipDate (t : Z) : JSDate :=
  if 8640000000000000 <? Z.abs t then InvalidDate else TimeValue t.

(** [date.getTime()]. *)
Definition getTime (d : JSDate) : float :=
  match d with InvalidDate => nan | TimeValue t => Z2F t end.

(** What the analytics module takes from its host: [Date.parse] on a
    timestamp string, the local time zone adjustment at a time value, and
    the renderings [x.toFixed(1)] and [String(x)] of a Number. *)
Class Host : Type := {
  Date_parse : string -> option Z;
  LocalTZA : Z -> Z;
  Number_toFixed1 : float -> string;
  Number_toString : float -> string
}.

Section WithHost.
Context `{Host}.

(** [new Date(s)] for a string [s]. *)
Definition Date_ofString (s : string) : JSDate :=
  match Date_parse s with None => InvalidDate | Some t => clipDate t end.

Definition LocalTime (t : Z) : Z := t + LocalTZA t.

Definition getFullYear (d : JSDate) : option Z :=
  match d with InvalidDate => None | TimeValue t => Some (YearFromTime (LocalTime t)) end.

Definition getMonth (d : JSDate) : option Z :=
  match d with InvalidDate => None | TimeValue t => Some (MonthFromTime (LocalTime t)) end.

Definition getDate (d : JSDate) : option Z :=
  match d with InvalidDate => None | TimeValue t => Some (DateFromTime (LocalTime t)) end.
End WithHost.

(** [new Date(year, month, 1).getDay()]: the constructor reads a year in
    0..99 as 1900 + year (21.4.2.1, step 5.k), builds local midnight of the
    first of the month and clips it.  The weekday is read off the local
    civil day itself: the round trip through UTC is taken to stay on it. *)
Definition monthStartDate (year month : option Z) : JSDate :=
  match year, month with
  | Some y, Some m =>
      let yr := if (0 <=? y) && (y <=? 99) then 1900 + y else y in
      clipDate (MakeDate (MakeDay yr m 1) 0)
  | _, _ => InvalidDate
  end.

Definition localDay (d : JSDate) : option Z :=
  match d with InvalidDate => None | TimeValue t => Some (WeekDay t) end.

Definition addOpt (a b : option Z) : option Z :=
  match a, b with Some x, Some y => Some (x + y) | _, _ => None end.

Section Rendering.
Context `{Host}.

(** [String(x)] (Number::toString): integers below 10^21 in plain
    decimal, the rest left to the host. *)
Definition numberToString (x : float) : string :=
  match Prim2SF x with
  | S754_nan => "NaN"
  | S754_zero _ => "0"
  | _ =>
      match F2Z x with
      | Some z => if Z.abs z <? 10 ^ 21 then pretty z else Number_toString x
      | None => Number_toString x
      end
  end.
End Rendering.

(** *** Completions (ECMA-262, 6.2.4) *)

(** The outcome of a call: a value, or the TypeError thrown on the way. *)
Inductive Completion (A : Type) : Type :=
| Normal (value : A)
| Throw_TypeError.
Arguments Normal {A} value.
Arguments Throw_TypeError {A}.

#[global] Instance Completion_ret : MRet Completion := @Normal.

#[global] Instance Completion_bind : MBind Completion := fun A B k m =>
  match m with Normal x => k x | Throw_TypeError => Throw_TypeError end.

#[global] Instance Completion_fmap : FMap Completion := fun A B f m =>
  match m with Normal x => Normal (f x) | Throw_TypeError => Throw_TypeError end.

(** [arr.forEach(x => body)] for a body that updates the state [s] of the
    enclosing function and may throw: the first exception ends the loop. *)
Fixpoint forEach {S A} (body : S -> A -> Completion S) (arr : list A) (s : S)
  : Completion S :=
  match arr with
  | [] => Normal s
  | x :: arr' =>
      match body s x with
      | Normal s' => forEach body arr' s'
      | Throw_TypeError => Throw_TypeError
      end
  end.

(** *** Plain objects *)

(** The members that every plain object inherits from [Object.prototype]
    (ECMA-262, 20.1.3 and B.2.2.1).  Each of them is truthy (a function, or
    for [__proto__] the prototype object itself) and none of them is an
    array: it has no [push] and no [forEach]. *)
Definition Object_prototype : list string :=
  [ "constructor"; "hasOwnProperty"; "isPrototypeOf"; "propertyIsEnumerable";
    "toLocaleString"; "toString"; "valueOf"; "__proto__";
    "__defineGetter__"; "__defineSetter__"; "__lookupGetter__"; "__lookupSetter__" ].

Definition inherited (name : string) : bool := bool_decide (name ∈ Object_prototype).

(** What [obj[name]] finds. *)
Inductive Property (A : Type) : Type :=
| Own (value : A)
| Inherited
| Undefined.
Arguments Own {A} value.
Arguments Inherited {A}.
Arguments Undefined {A}.

(** [obj[name]] for an object created as [{}] whose own properties are
    [obj]: an own property first, then the prototype. *)
Definition Object_get {A} (obj : gmap string A) (name : string) : Property A :=
  match obj !! name with
  | Some value => Own value
  | None => if inherited name then Inherited else Undefined
  end.

(** [f(m.get(k)!)] for an [f] that mutates the object it is given or
    throws; on a missing key [m.get(k)] is [undefined] and the property
    access on it throws. *)
Definition Map_modify {V} (k : string) (f : V -> Completion V) (m : JSMap V)
  : Completion (JSMap V) :=
  match Map_get k m with
  | Some v => v' ← f v; Normal (Map_update k (fun _ => v') m)
  | None => Throw_TypeError
  end.

End JS.

(** ** The record model ([src/types/index.ts]) *)

Module CategoryScore.
Record t : Type := mk {
  category : string;
  score : float;          (* 1-5 scale, not validated *)
  isAutoSuggested : bool
}.
End CategoryScore.

Module ObservationLog.
(** [categories] is declared non-optional, but the analytics code guards
    every read of it ([if (log.categories)], [log.categories?.]): a record
    read back from storage may lack it, hence the option.  The optional
    [nlpSuggestions] field is never read by the analytics module. *)
Record t : Type := mk {
  id : string;
  studentId : string;
  studentName : string;
  timestamp : string;
  observation : string;
  tags : list string;
  categories : option (list CategoryScore.t)
}.
End ObservationLog.

(** ** The analytics module ([src/utils/analytics.ts]) *)

Module TrendData.
Record t : Type := mk {
  period : string;
  scores : gmap string float;
  totalObservations : nat
}.
End TrendData.

Module PeerComparison.
Record t : Type := mk {
  studentId : string;
  studentName : string;
  categoryAverages : gmap string float;
  percentile : JS.JSMap float;   (* keys in assignment order *)
  overallPercentile : float
}.
End PeerComparison.

Inductive AlertType : Type := decline | threshold | improvement.
Inductive Severity : Type := low | medium | high.

Module InterventionAlert.
Record t : Type := mk {
  studentId : string;
  studentName : string;
  alertType : AlertType;
  category : string;
  severity : Severity;
  message : string;
  score : float;
  threshold : float;
  trend : float
}.
End InterventionAlert.

Module Recommendation.
Record t : Type := mk {
  studentId : string;
  studentName : string;
  category : string;
  recommendation : string;
  activity : string;
  resources : list string;
  priority : Severity
}.
End Recommendation.

(** One score band of the recommendation catalog. *)
Module Rule.
Record t : Type := mk {
  minScore : float;
  maxScore : float;
  recommendation : string;
  activity : string;
  resources : list string
}.
End Rule.

Module Analytics.
Import JS.

(** The object [{ [category]: number[] }] that accumulates scores. *)
Abbreviation ScoreArrays := (gmap string (list float)).

(** [scoreArray.length > 0 ? scoreArray.reduce((a, b) => a + b, 0) / scoreArray.length : 0] *)
Definition average (scoreArray : list float) : float :=
  if (0 <? length scoreArray)%nat
  then (sum scoreArray / nat2F (length scoreArray))%float
  else 0%float.

(** [if (!obj[category]) obj[category] = []; obj[category].push(score)]:
    an array, even an empty one, and an inherited member are truthy, so the
    array is created only when the lookup finds nothing; the [push] then
    works on an own array and throws on an inherited member, which has no
    [push] to call. *)
Definition pushScore (category : string) (score : float) (obj : ScoreArrays)
  : Completion ScoreArrays :=
  let obj' :=
    match Object_get obj category with
    | Undefined => <[category := []]> obj
    | _ => obj
    end in
  match Object_get obj' category with
  | Own arr => Normal (<[category := arr ++ [score]]> obj')
  | _ => Throw_TypeError
  end.

(** The five categories both comparison loops iterate over. *)
Definition categories : list string :=
  ["Cognitive Skills"; "Social Skills"; "Emotional Readiness"; "Communication"; "Creativity"].

Section WithHost.
Context `{Host}.

(** *** Helper functions *)

Definition getWeekKey (date : JSDate) : string :=
  let year := getFullYear date in
  let week :=
    Math_ceil (optZ2F (addOpt (getDate date)
                         (localDay (monthStartDate year (getMonth date)))) / 7)%float in
  intToString year +:+ "-W" +:+ padStart2 (numberToString week).

Definition getMonthKey (date : JSDate) : string :=
  let year := getFullYear date in
  let month := padStart2 (intToString (addOpt (getMonth date) (Some 1))) in
  intToString year +:+ "-" +:+ month.

(** *** Trend analysis *)

(** [studentId ? logs.filter(log => log.studentId === studentId) : logs]:
    an absent or empty [studentId] is falsy. *)
Definition filteredLogs (logs : list ObservationLog.t) (studentId : option string)
  : list ObservationLog.t :=
  match studentId with
  | Some sid =>
      if decide (sid = "") then logs
      else List.filter (fun log => bool_decide (ObservationLog.studentId log = sid)) logs
  | None => logs
  end.

(** [if (!data.has(key)) data.set(key, {})] *)
Definition initBucket (key : string) (data : JSMap ScoreArrays) : JSMap ScoreArrays :=
  if Map_has key data then data else Map_set key ∅ data.

(** The state of the two accumulating Maps. *)
Definition TrendState : Type := JSMap ScoreArrays * JSMap ScoreArrays.

(** The body of [log.categories.forEach(categoryScore => ...)]: the
    weekly push, then the monthly one. *)
Definition addCategoryScore (weekKey monthKey : string)
    (st : TrendState) (categoryScore : CategoryScore.t) : Completion TrendState :=
  let category := CategoryScore.category categoryScore in
  let score := CategoryScore.score categoryScore in
  weeklyData ← Map_modify weekKey (pushScore category score) st.1;
  monthlyData ← Map_modify monthKey (pushScore category score) st.2;
  Normal (weeklyData, monthlyData).

(** The body of [filteredLogs.forEach(log => ...)]. *)
Definition addLog (st : TrendState) (log : ObservationLog.t) : Completion TrendState :=
  let date := Date_ofString (ObservationLog.timestamp log) in
  let weekKey := getWeekKey date in
  let monthKey := getMonthKey date in
  let st' := (initBucket weekKey st.1, initBucket monthKey st.2) in
  match ObservationLog.categories log with
  | Some cats => forEach (addCategoryScore weekKey monthKey) cats st'
  | None => Normal st'
  end.

(** [Object.values(scores).reduce((sum, arr) => sum + arr.length, 0)] *)
Definition countEntries (scores : ScoreArrays) : nat :=
  map_fold (fun _ arr sum => (sum + length arr)%nat) 0%nat scores.

Definition toTrend (entry : string * ScoreArrays) : TrendData.t :=
  {| TrendData.period := entry.1;
     TrendData.scores := average <$> entry.2;
     TrendData.totalObservations := countEntries entry.2 |}.

Definition byPeriod (a b : TrendData.t) : float :=
  (getTime (Date_ofString (TrendData.period a))
   - getTime (Date_ofString (TrendData.period b)))%float.

(** The function from "Convert to trend data" on, given the two Maps. *)
Definition trendsFrom (st : TrendState) : list TrendData.t :=
  let weeklyTrends := map toTrend st.1 in
  let monthlyTrends := map toTrend st.2 in
  Array_sort byPeriod (weeklyTrends ++ monthlyTrends).

Definition calculateTrends (logs : list ObservationLog.t) (studentId : option string)
  : Completion (list TrendData.t) :=
  st ← forEach addLog (filteredLogs logs studentId) ([], []);
  Normal (trendsFrom st).

(** *** Peer comparison *)

(** [{ scores: { [category]: number[] }, name: string }] *)
Record StudentData : Type := mkStudentData {
  sd_scores : ScoreArrays;
  sd_name : string
}.

Definition pushStudentScore (st : JSMap StudentData) (studentId : string)
    (categoryScore : CategoryScore.t) : Completion (JSMap StudentData) :=
  Map_modify studentId
    (fun d =>
       scores ← pushScore (CategoryScore.category categoryScore)
                  (CategoryScore.score categoryScore) (sd_scores d);
       Normal {| sd_scores := scores; sd_name := sd_name d |}) st.

(** The body of the first [logs.forEach(log => ...)]. *)
Definition collectLog (st : JSMap StudentData) (log : ObservationLog.t)
  : Completion (JSMap StudentData) :=
  let sid := ObservationLog.studentId log in
  let st' := if Map_has sid st then st
             else Map_set sid {| sd_scores := ∅; sd_name := ObservationLog.studentName log |} st in
  match ObservationLog.categories log with
  | Some cats => forEach (fun st cs => pushStudentScore st sid cs) cats st'
  | None => Normal st'
  end.

Definition toAverages (entry : string * StudentData) : PeerComparison.t :=
  {| PeerComparison.studentId := entry.1;
     PeerComparison.studentName := sd_name entry.2;
     PeerComparison.categoryAverages := average <$> sd_scores entry.2;
     PeerComparison.percentile := [];
     PeerComparison.overallPercentile := 0%float |}.

(** [Array.from(studentMap.entries()).map(...)] *)
Definition studentAverages (studentMap : JSMap StudentData) : list PeerComparison.t :=
  map toAverages studentMap.

(** [score > 0] for a property read that may be [undefined]. *)
Definition positive (score : option float) : bool :=
  match score with Some x => (0 <? x)%float | None => false end.

(** [students.map(s => s.categoryAverages[category]).filter(score => score > 0)
             .sort((a, b) => a - b)] *)
Definition cohortScores (students : list PeerComparison.t) (category : string) : list float :=
  Array_sort (fun a b => (a - b)%float)
    (omap (fun s =>
             let score := PeerComparison.categoryAverages s !! category in
             if positive score then score else None) students).

Definition setPercentile (category : string) (p : float) (student : PeerComparison.t)
  : PeerComparison.t :=
  {| PeerComparison.studentId := PeerComparison.studentId student;
     PeerComparison.studentName := PeerComparison.studentName student;
     PeerComparison.categoryAverages := PeerComparison.categoryAverages student;
     PeerComparison.percentile := Map_set category p (PeerComparison.percentile student);
     PeerComparison.overallPercentile := PeerComparison.overallPercentile student |}.

(** The percentile written for [student] in [category], given the sorted
    cohort list [scores]. *)
Definition percentileOf (scores : list float) (score : option float) : float :=
  match score with
  | Some x =>
      if (0 <? x)%float then
        let rank := Array_findIndex (fun s => (x <=? s)%float) scores in
        Math_round (Z2F (rank + 1) / nat2F (length scores) * 100)%float
      else 0%float
  | None => 0%float
  end.

(** The body of [categories.forEach(category => ...)]. *)
Definition rankCategory (students : list PeerComparison.t) (category : string)
  : list PeerComparison.t :=
  let scores := cohortScores students category in
  map (fun student =>
         setPercentile category
           (percentileOf scores (PeerComparison.categoryAverages student !! category))
           student) students.

(** [Object.values(student.percentile).filter(p => p > 0)] *)
Definition validPercentiles (student : PeerComparison.t) : list float :=
  List.filter (fun p => (0 <? p)%float) (map snd (PeerComparison.percentile student)).

Definition setOverall (student : PeerComparison.t) : PeerComparison.t :=
  let valid := validPercentiles student in
  {| PeerComparison.studentId := PeerComparison.studentId student;
     PeerComparison.studentName := PeerComparison.studentName student;
     PeerComparison.categoryAverages := PeerComparison.categoryAverages student;
     PeerComparison.percentile := PeerComparison.percentile student;
     PeerComparison.overallPercentile :=
       if (0 <? length valid)%nat
       then Math_round (sum valid / nat2F (length valid))%float
       else 0%float |}.

(** The students after both percentile passes, before the final sort. *)
Definition rankedStudents (students : list PeerComparison.t) : list PeerComparison.t :=
  map setOverall (fold_left rankCategory categories students).

Definition byOverallDesc (a b : PeerComparison.t) : float :=
  (PeerComparison.overallPercentile b - PeerComparison.overallPercentile a)%float.

Definition calculatePeerComparison (logs : list ObservationLog.t)
  : Completion (list PeerComparison.t) :=
  studentMap ← forEach collectLog logs [];
  Normal (Array_sort byOverallDesc (rankedStudents (studentAverages studentMap))).

(** *** Intervention alerts *)

(** [if (!m.has(id)) m.set(id, []); m.get(id)!.push(log)] *)
Definition groupLog (m : JSMap (list ObservationLog.t)) (log : ObservationLog.t)
  : JSMap (list ObservationLog.t) :=
  let sid := ObservationLog.studentId log in
  let m' := if Map_has sid m then m else Map_set sid [] m in
  Map_update sid (fun arr => arr ++ [log]) m'.

Definition logsByStudent (logs : list ObservationLog.t) : JSMap (list ObservationLog.t) :=
  fold_left groupLog logs [].

Definition isCategory (category : string) (cat : CategoryScore.t) : bool :=
  bool_decide (CategoryScore.category cat = category).

(** [log.categories?.some(cat => cat.category === category)] *)
Definition hasCategory (category : string) (log : ObservationLog.t) : bool :=
  match ObservationLog.categories log with
  | Some cats => existsb (isCategory category) cats
  | None => false
  end.

(** [log.categories?.filter(cat => cat.category === category) || []] *)
Definition categoryEntries (category : string) (log : ObservationLog.t)
  : list CategoryScore.t :=
  match ObservationLog.categories log with
  | Some cats => List.filter (isCategory category) cats
  | None => []
  end.

(** The comparator handed to [scores.sort]: its arguments are the scores
    themselves, so [new Date(a)] is the Date whose time value is
    [TimeClip(a)] milliseconds. *)
Definition byDateOfScore (a b : float) : float := (TimeClip a - TimeClip b)%float.

(** [categoryLogs.flatMap(...).map(cat => cat.score).sort(...)] *)
Definition sortedScores (category : string) (categoryLogs : list ObservationLog.t)
  : list float :=
  Array_sort byDateOfScore
    (map CategoryScore.score (flat_map (categoryEntries category) categoryLogs)).

Definition recentScores (scores : list float) : list float :=
  Array_slice (-3) None scores.

Definition olderScores (scores : list float) : list float :=
  Array_slice (-6) (Some (-3)) scores.

Definition mean (l : list float) : float := (sum l / nat2F (length l))%float.

Definition declineSeverity (d : float) : Severity :=
  if (1 <? d)%float then high else if (0.7 <? d)%float then medium else low.

Definition thresholdSeverity (currentScore : float) : Severity :=
  if (currentScore <? 1.5)%float then high
  else if (currentScore <? 2)%float then medium else low.

(** The "Check for decline" block; [alerts] is the array being filled. *)
Definition checkDecline (studentId studentName category : string) (scores : list float)
    (alerts : list InterventionAlert.t) : list InterventionAlert.t :=
  if (3 <=? length scores)%nat then
    let recent := recentScores scores in
    let older := olderScores scores in
    if (0 <? length older)%nat then
      let recentAvg := mean recent in
      let olderAvg := mean older in
      let d := (olderAvg - recentAvg)%float in
      if (0.5 <? d)%float then
        alerts ++ [ {| InterventionAlert.studentId := studentId;
                       InterventionAlert.studentName := studentName;
                       InterventionAlert.alertType := decline;
                       InterventionAlert.category := category;
                       InterventionAlert.severity := declineSeverity d;
                       InterventionAlert.message :=
                         category +:+ " scores have declined by "
                           +:+ Number_toFixed1 d +:+ " points";
                       InterventionAlert.score := recentAvg;
                       InterventionAlert.threshold := olderAvg;
                       InterventionAlert.trend := d |} ]
      else alerts
    else alerts
  else alerts.

(** The "Check for low scores" block; [scores[scores.length - 1]] is
    [undefined] on an empty array, and [undefined < 2.5] is false. *)
Definition checkThreshold (studentId studentName category : string) (scores : list float)
    (alerts : list InterventionAlert.t) : list InterventionAlert.t :=
  match Array_last scores with
  | Some currentScore =>
      if (currentScore <? 2.5)%float then
        alerts ++ [ {| InterventionAlert.studentId := studentId;
                       InterventionAlert.studentName := studentName;
                       InterventionAlert.alertType := threshold;
                       InterventionAlert.category := category;
                       InterventionAlert.severity := thresholdSeverity currentScore;
                       InterventionAlert.message :=
                         category +:+ " score is below threshold ("
                           +:+ numberToString currentScore +:+ "/5)";
                       InterventionAlert.score := currentScore;
                       InterventionAlert.threshold := 2.5%float;
                       InterventionAlert.trend := 0%float |} ]
      else alerts
  | None => alerts
  end.

(** The body of [categories.forEach(category => ...)]. *)
Definition checkCategory (studentId studentName : string)
    (studentLogs : list ObservationLog.t)
    (alerts : list InterventionAlert.t) (category : string) : list InterventionAlert.t :=
  let categoryLogs := List.filter (hasCategory category) studentLogs in
  if (3 <=? length categoryLogs)%nat then
    let scores := sortedScores category categoryLogs in
    checkThreshold studentId studentName category scores
      (checkDecline studentId studentName category scores alerts)
  else alerts.

(** The body of [studentMap.forEach((studentLogs, studentId) => ...)];
    reading [studentLogs[0].studentName] needs a first record, which
    every group has. *)
Definition checkStudent (alerts : list InterventionAlert.t)
    (entry : string * list ObservationLog.t) : list InterventionAlert.t :=
  match entry.2 with
  | [] => alerts
  | first :: _ =>
      fold_left (checkCategory entry.1 (ObservationLog.studentName first) entry.2)
        categories alerts
  end.

Definition severityOrder (s : Severity) : float :=
  match s with high => 3%float | medium => 2%float | low => 1%float end.

Definition bySeverityDesc (a b : InterventionAlert.t) : float :=
  (severityOrder (InterventionAlert.severity b)
   - severityOrder (InterventionAlert.severity a))%float.

(** The alerts in the order they are pushed, before the final sort. *)
Definition pushedAlerts (logs : list ObservationLog.t) : list InterventionAlert.t :=
  fold_left checkStudent (logsByStudent logs) [].

Definition generateInterventionAlerts (logs : list ObservationLog.t)
  : list InterventionAlert.t :=
  Array_sort bySeverityDesc (pushedAlerts logs).

End WithHost.

(** *** Recommendations *)

Definition rule (lo hi : float) (recommendation activity : string)
    (resources : list string) : Rule.t :=
  Rule.mk lo hi recommendation activity resources.

Definition getRecommendationMap : gmap string (list Rule.t) :=
  list_to_map [
    ("Cognitive Skills",
      [ rule 1 2 "Focus on foundational problem-solving skills"
          "One-on-one problem-solving sessions"
          ["Math manipulatives"; "Logic puzzles"; "Step-by-step guides"];
        rule 2 3 "Build critical thinking through guided activities"
          "Small group problem-solving activities"
          ["Brain teasers"; "Strategy games"; "Discussion prompts"] ]);
    ("Social Skills",
      [ rule 1 2 "Develop basic social interaction skills"
          "Structured group activities with clear roles"
          ["Social stories"; "Role-playing scenarios"; "Team building games"];
        rule 2 3 "Enhance collaboration and communication"
          "Partner and small group projects"
          ["Collaborative games"; "Communication exercises"; "Peer mentoring"] ]);
    ("Emotional Readiness",
      [ rule 1 2 "Build emotional awareness and regulation"
          "Mindfulness and emotional literacy activities"
          ["Emotion cards"; "Breathing exercises"; "Calm-down strategies"];
        rule 2 3 "Strengthen resilience and self-confidence"
          "Goal-setting and achievement activities"
          ["Confidence-building exercises"; "Growth mindset activities"; "Success journals"] ]);
    ("Communication",
      [ rule 1 2 "Develop basic communication skills"
          "Structured speaking and listening activities"
          ["Picture cards"; "Sentence starters"; "Listening games"];
        rule 2 3 "Enhance verbal and non-verbal communication"
          "Presentation and discussion activities"
          ["Public speaking exercises"; "Body language activities"; "Active listening practice"] ]);
    ("Creativity",
      [ rule 1 2 "Encourage creative expression and imagination"
          "Open-ended art and creative projects"
          ["Art supplies"; "Creative prompts"; "Imagination games"];
        rule 2 3 "Foster innovative thinking and originality"
          "Creative problem-solving challenges"
          ["Innovation challenges"; "Creative thinking exercises"; "Design thinking activities"] ])
  ].

(** [alert.score <= rec.maxScore && alert.score >= rec.minScore] *)
Definition inBand (alert : InterventionAlert.t) (rec : Rule.t) : bool :=
  (InterventionAlert.score alert <=? Rule.maxScore rec)%float
  && (Rule.minScore rec <=? InterventionAlert.score alert)%float.

Definition recommend (alert : InterventionAlert.t) (rec : Rule.t) : Recommendation.t :=
  {| Recommendation.studentId := InterventionAlert.studentId alert;
     Recommendation.studentName := InterventionAlert.studentName alert;
     Recommendation.category := InterventionAlert.category alert;
     Recommendation.recommendation := Rule.recommendation rec;
     Recommendation.activity := Rule.activity rec;
     Recommendation.resources := Rule.resources rec;
     Recommendation.priority := InterventionAlert.severity alert |}.

(** The body of [categoryRecommendations.forEach(rec => ...)]. *)
Definition applyRule (alert : InterventionAlert.t)
    (recommendations : list Recommendation.t) (rec : Rule.t) : list Recommendation.t :=
  if inBand alert rec then recommendations ++ [recommend alert rec] else recommendations.

(** [recommendationMap[alert.category] || []]: the rules of the category,
    the empty array when the lookup finds nothing, and the inherited member
    itself (truthy) when the category names one. *)
Definition categoryRecommendations (alert : InterventionAlert.t) : Property (list Rule.t) :=
  match Object_get getRecommendationMap (InterventionAlert.category alert) with
  | Undefined => Own []
  | found => found
  end.

(** The body of [alerts.forEach(alert => ...)]: [categoryRecommendations
    .forEach] throws when [categoryRecommendations] is not an array. *)
Definition applyAlert (recommendations : list Recommendation.t)
    (alert : InterventionAlert.t) : Completion (list Recommendation.t) :=
  match categoryRecommendations alert with
  | Own rules => Normal (fold_left (applyRule alert) rules recommendations)
  | _ => Throw_TypeError
  end.

(** The [logs] argument is accepted and never read. *)
Definition generateRecommendations (logs : list ObservationLog.t)
    (alerts : list InterventionAlert.t) : Completion (list Recommendation.t) :=
  forEach applyAlert alerts [].

End Analytics.

(** ** What the loops leave behind when they complete

    The same loops with the exception path left out: the values the
    definitions of [Analytics] return whenever they return (see
    [pushScore_returns], [calculateTrends_returns] and
    [calculatePeerComparison_returns] below).  They serve the proofs; the
    statements about the program are made on [Analytics]. *)

Module Returned.
Import JS Analytics.

(** The object after a [pushScore] that completes. *)
Definition pushScore (category : string) (score : float) (obj : ScoreArrays) : ScoreArrays :=
  let obj' := if obj !! category is Some _ then obj else <[category := []]> obj in
  alter (fun arr => arr ++ [score]) category obj'.

Section WithHost.
Context `{Host}.

Definition addCategoryScore (weekKey monthKey : string)
    (st : TrendState) (categoryScore : CategoryScore.t) : TrendState :=
  let category := CategoryScore.category categoryScore in
  let score := CategoryScore.score categoryScore in
  (Map_update weekKey (pushScore category score) st.1,
   Map_update monthKey (pushScore category score) st.2).

Definition addLog (st : TrendState) (log : ObservationLog.t) : TrendState :=
  let date := Date_ofString (ObservationLog.timestamp log) in
  let weekKey := getWeekKey date in
  let monthKey := getMonthKey date in
  let st' := (initBucket weekKey st.1, initBucket monthKey st.2) in
  match ObservationLog.categories log with
  | Some cats => fold_left (addCategoryScore weekKey monthKey) cats st'
  | None => st'
  end.

Definition trendState (logs : list ObservationLog.t) (studentId : option string)
  : TrendState :=
  fold_left addLog (filteredLogs logs studentId) ([], []).

Definition calculateTrends (logs : list ObservationLog.t) (studentId : option string)
  : list TrendData.t :=
  trendsFrom (trendState logs studentId).

End WithHost.

Definition pushStudentScore (st : JSMap StudentData) (studentId : string)
    (categoryScore : CategoryScore.t) : JSMap StudentData :=
  Map_update studentId
    (fun d => {| sd_scores := pushScore (CategoryScore.category categoryScore)
                                (CategoryScore.score categoryScore) (sd_scores d);
                 sd_name := sd_name d |}) st.

Definition collectLog (st : JSMap StudentData) (log : ObservationLog.t) : JSMap StudentData :=
  let sid := ObservationLog.studentId log in
  let st' := if Map_has sid st then st
             else Map_set sid {| sd_scores := ∅; sd_name := ObservationLog.studentName log |} st in
  match ObservationLog.categories log with
  | Some cats => fold_left (fun st cs => pushStudentScore st sid cs) cats st'
  | None => st'
  end.

Definition studentMap (logs : list ObservationLog.t) : JSMap StudentData :=
  fold_left collectLog logs [].

Definition studentAverages (logs : list ObservationLog.t) : list PeerComparison.t :=
  Analytics.studentAverages (studentMap logs).

Definition rankedStudents (logs : list ObservationLog.t) : list PeerComparison.t :=
  Analytics.rankedStudents (studentAverages logs).

Definition calculatePeerComparison (logs : list ObservationLog.t) : list PeerComparison.t :=
  Array_sort byOverallDesc (rankedStudents logs).

End Returned.

(** ** The functions as they run: arrays by reference

    JavaScript hands arrays around by reference, and [push] and [sort] work
    in place.  Here the arrays on which the analytics code calls a mutating
    method, the arrays it receives and the arrays it returns live on a heap
    and are named by their address; [push] and [sort] overwrite the cell
    they are applied to, [filter] and the array literals allocate a new
    one.  Arrays that are only read once built (the results of [slice], an
    intermediate [map] or [flatMap], the literal [categories]) and the
    plain objects and Maps that hold the references stay values.  The
    definitions below follow the source statement by statement; those of
    [Analytics] are what they compute, which is proved further down. *)

Module Heap.
Import JS.

Inductive Array : Type :=
| Records (elements : list ObservationLog.t)
| Numbers (elements : list float)
| Trends (elements : list TrendData.t)
| Students (elements : list PeerComparison.t)
| Alerts (elements : list InterventionAlert.t)
| Recommendations (elements : list Recommendation.t).

(** An address, and the heap: the cell at address [r] is the [r]-th. *)
Abbreviation ref := nat.
Abbreviation heap := (list Array).

(** The types of array elements. *)
Class Element (T : Type) : Type := {
  arrayOf : list T -> Array;
  elementsOf : Array -> option (list T);
  elementsOf_arrayOf l : elementsOf (arrayOf l) = Some l;
  arrayOf_elementsOf a l : elementsOf a = Some l -> a = arrayOf l
}.

#[global, refine] Instance Element_log : Element ObservationLog.t :=
  {| arrayOf := Records;
     elementsOf a := if a is Records l then Some l else None |}.
Proof. all: [> done | by intros [] ? [= ->] ]. Defined.

#[global, refine] Instance Element_number : Element float :=
  {| arrayOf := Numbers;
     elementsOf a := if a is Numbers l then Some l else None |}.
Proof. all: [> done | by intros [] ? [= ->] ]. Defined.

#[global, refine] Instance Element_trend : Element TrendData.t :=
  {| arrayOf := Trends;
     elementsOf a := if a is Trends l then Some l else None |}.
Proof. all: [> done | by intros [] ? [= ->] ]. Defined.

#[global, refine] Instance Element_student : Element PeerComparison.t :=
  {| arrayOf := Students;
     elementsOf a := if a is Students l then Some l else None |}.
Proof. all: [> done | by intros [] ? [= ->] ]. Defined.

#[global, refine] Instance Element_alert : Element InterventionAlert.t :=
  {| arrayOf := Alerts;
     elementsOf a := if a is Alerts l then Some l else None |}.
Proof. all: [> done | by intros [] ? [= ->] ]. Defined.

#[global, refine] Instance Element_recommendation : Element Recommendation.t :=
  {| arrayOf := Recommendations;
     elementsOf a := if a is Recommendations l then Some l else None |}.
Proof. all: [> done | by intros [] ? [= ->] ]. Defined.

(** The elements of the array at [arr], if there is one of this type. *)
Definition get {T} `{Element T} (h : heap) (arr : ref) : option (list T) :=
  h !! arr ≫= elementsOf.

(** A computation on the heap: it completes or throws, and leaves a heap
    behind either way. *)
Definition M (A : Type) : Type := heap -> Completion A * heap.

#[global] Instance M_ret : MRet M := fun A x h => (Normal x, h).

#[global] Instance M_bind : MBind M := fun A B k m h =>
  match m h with
  | (Normal x, h') => k x h'
  | (Throw_TypeError, h') => (Throw_TypeError, h')
  end.

Definition throw {A} : M A := fun h => (Throw_TypeError, h).

(** An array literal or the result of a method that returns a new array:
    the next free address. *)
Definition alloc {T} `{Element T} (l : list T) : M ref :=
  fun h => (Normal (length h), h ++ [arrayOf l]).

(** Reading an array; no method of the code is called on anything else. *)
Definition elements {T} `{Element T} (arr : ref) : M (list T) :=
  fun h => match get h arr with
           | Some l => (Normal l, h)
           | None => (Throw_TypeError, h)
           end.

(** Overwriting the cell at [arr]. *)
Definition assign {T} `{Element T} (arr : ref) (l : list T) : M unit :=
  fun h => (Normal tt, <[arr := arrayOf l]> h).

(** [arr.push(x)]: in place. *)
Definition push {T} `{Element T} (arr : ref) (x : T) : M unit :=
  l ← elements arr; assign arr (l ++ [x]).

(** [arr.sort(cmp)]: in place; the value of the call is [arr] itself. *)
Definition sort {T} `{Element T} (cmp : T -> T -> float) (arr : ref) : M ref :=
  l ← elements arr; assign arr (Array_sort cmp l);; mret arr.

(** [arr.filter(p)]: a new array. *)
Definition filter {T} `{Element T} (p : T -> bool) (arr : ref) : M ref :=
  l ← elements arr; alloc (List.filter p l).

(** A loop over values, with a body that works on the heap. *)
Fixpoint each {S A} (body : S -> A -> M S) (l : list A) (s : S) : M S :=
  match l with
  | [] => mret s
  | x :: l' => s' ← body s x; each body l' s'
  end.

(** [arr.forEach(x => body)]: the elements are those the array has when
    the loop starts (no body of the analytics code writes to the array it
    goes through). *)
Definition forEach {S T} `{Element T} (body : S -> T -> M S) (arr : ref) (s : S) : M S :=
  l ← elements arr; each body l s.

(** [l.map(f)] for an [f] that reads the heap. *)
Fixpoint mapM {A B} (f : A -> M B) (l : list A) : M (list B) :=
  match l with
  | [] => mret []
  | x :: l' => y ← f x; ys ← mapM f l'; mret (y :: ys)
  end.

(** [arr.forEach(x => { x.field = ... })]: the objects of the array are
    updated where they are, so the array holds the updated objects. *)
Definition update {T} `{Element T} (f : T -> M T) (arr : ref) : M unit :=
  l ← elements arr; l' ← mapM f l; assign arr l'.

(** [f(m.get(k)!)] for an [f] that mutates the object it is given. *)
Definition mutate {V} (k : string) (f : V -> M V) (m : JSMap V) : M (JSMap V) :=
  match Map_get k m with
  | Some v => v' ← f v; mret (Map_update k (fun _ => v') m)
  | None => throw
  end.

(** What a call leaves to its caller: the elements of the array it
    returned, or the exception. *)
Definition outcome {T} `{Element T} (run : Completion ref * heap) : Completion (list T) :=
  match run.1 with
  | Normal arr =>
      match get run.2 arr with
      | Some l => Normal l
      | None => Throw_TypeError
      end
  | Throw_TypeError => Throw_TypeError
  end.

(** Every array of [h] is in [h'], at its address and with its elements. *)
Definition unchanged (h h' : heap) : Prop := take (length h) h' = h.

(** The array a call returns is none of those that were on the heap [h]
    before the call. *)
Definition fresh (h : heap) (run : Completion ref * heap) : Prop :=
  match run.1 with
  | Normal arr => (length h <= arr)%nat
  | Throw_TypeError => True
  end.

(** Two calls in a row, the second on the heap the first has left: both
    have the outcome [result], and every array of [h] is unchanged after
    each of them. *)
Definition pureCall {T} `{Element T} (call : M ref) (h : heap)
    (result : Completion (list T)) : Prop :=
  let first := call h in
  let second := call first.2 in
  outcome first = result
  /\ outcome second = result
  /\ unchanged h first.2
  /\ unchanged h second.2.

(** *** Reasoning about the heap *)

(** [keeps n h h']: the heap has grown from [h] to [h'] and its cells below
    [n] are what they were. *)
Definition keeps (n : nat) (h h' : heap) : Prop :=
  (n <= length h <= length h')%nat
  /\ forall r, (r < n)%nat -> h' !! r = h !! r.

(** [refines n Inv m f]: from a heap and a state that [Inv] relates to
    [ps], the step [m] leaves the cells below [n] alone, throws when [f]
    throws, and otherwise ends related to what [f] returns. *)
Definition refines {S PS} (n : nat) (Inv : heap -> S -> PS -> Prop)
    (m : S -> M S) (f : PS -> Completion PS) : Prop :=
  forall h s ps, Inv h s ps ->
    keeps n h (m s h).2
    /\ match f ps with
       | Normal ps' => exists s', (m s h).1 = Normal s' /\ Inv (m s h).2 s' ps'
       | Throw_TypeError => (m s h).1 = Throw_TypeError
       end.

(** The cell at [arr] is an array with the elements [l]. *)
Definition stores {T} `{Element T} (h : heap) (arr : ref) (l : list T) : Prop :=
  h !! arr = Some (arrayOf l).

(** The addresses [rs] are distinct cells of [h], none of them below [n]. *)
Definition separate (n : nat) (h : heap) (rs : list ref) : Prop :=
  NoDup rs /\ Forall (fun r => (n <= r < length h)%nat) rs.

(** What a step does to the heap on behalf of the owner of the cells [rs]:
    it allocates one cell for it, or overwrites one of its cells. *)
Inductive effect (h : heap) (rs : list ref) (h' : heap) (rs' : list ref) : Prop :=
| effect_alloc a : h' = h ++ [a] -> rs' ≡ₚ length h :: rs -> effect h rs h' rs'
| effect_assign r a : r ∈ rs -> h' = <[r := a]> h -> rs' = rs -> effect h rs h' rs'.

(** A Map whose values hold addresses ([m]) and the Map of the arrays found
    there ([pm]): [refsOf v] are the addresses a value holds, [holds h v p]
    says that the arrays at them make up [p]. *)
Definition refs {V} (refsOf : V -> list ref) (m : JSMap V) : list ref :=
  flat_map (fun e => refsOf e.2) m.

Definition hold {V P} (holds : heap -> V -> P -> Prop) (h : heap)
    (m : JSMap V) (pm : JSMap P) : Prop :=
  Forall2 (fun e p => e.1 = p.1 /\ holds h e.2 p.2) m pm.

End Heap.

Module InPlace.
Import JS Analytics Heap.

(** The object [{ [category]: number[] }]: its own properties, each the
    address of its array. *)
Abbreviation ScoreRefs := (gmap string ref).

(** [if (!obj[category]) obj[category] = []; obj[category].push(score)] *)
Definition pushScore (category : string) (score : float) (obj : ScoreRefs) : M ScoreRefs :=
  obj' ← match Object_get obj category with
         | Undefined => arr ← alloc (T := float) []; mret (<[category := arr]> obj)
         | _ => mret obj
         end;
  match Object_get obj' category with
  | Own arr => push arr score;; mret obj'
  | _ => throw
  end.

(** The arrays of [scores], read: what [Object.entries(scores)] and
    [Object.values(scores)] go through. *)
Definition Object_entries (scores : ScoreRefs) : M ScoreArrays :=
  fun h => (Normal (omap (get h) scores), h).

Section WithHost.
Context `{Host}.

(** *** Trend analysis *)

(** [if (!data.has(key)) data.set(key, {})] *)
Definition initBucket (key : string) (data : JSMap ScoreRefs) : JSMap ScoreRefs :=
  if Map_has key data then data else Map_set key ∅ data.

(** [weeklyData] and [monthlyData]. *)
Definition TrendRefs : Type := JSMap ScoreRefs * JSMap ScoreRefs.

(** The body of [log.categories.forEach(categoryScore => ...)]: the
    weekly push, then the monthly one. *)
Definition addCategoryScore (weekKey monthKey : string)
    (st : TrendRefs) (categoryScore : CategoryScore.t) : M TrendRefs :=
  let category := CategoryScore.category categoryScore in
  let score := CategoryScore.score categoryScore in
  weeklyData ← mutate weekKey (pushScore category score) st.1;
  monthlyData ← mutate monthKey (pushScore category score) st.2;
  mret (weeklyData, monthlyData).

(** The body of [filteredLogs.forEach(log => ...)]. *)
Definition addLog (st : TrendRefs) (log : ObservationLog.t) : M TrendRefs :=
  let date := Date_ofString (ObservationLog.timestamp log) in
  let weekKey := getWeekKey date in
  let monthKey := getMonthKey date in
  let st' := (initBucket weekKey st.1, initBucket monthKey st.2) in
  match ObservationLog.categories log with
  | Some cats => each (addCategoryScore weekKey monthKey) cats st'
  | None => mret st'
  end.

(** [([period, scores]) => ({ period, scores: ..., totalObservations: ... })],
    which reads the arrays of [scores]. *)
Definition toTrend (entry : string * ScoreRefs) : M TrendData.t :=
  scores ← Object_entries entry.2;
  mret (Analytics.toTrend (entry.1, scores)).

(** [filteredLogs] is the caller's array itself when no [studentId] is
    given; the array sorted at the end is the one the spread creates. *)
Definition calculateTrends (logs : ref) (studentId : option string) : M ref :=
  filteredLogs ←
    match studentId with
    | Some sid =>
        if decide (sid = "") then mret logs
        else filter (fun log => bool_decide (ObservationLog.studentId log = sid)) logs
    | None => mret logs
    end;
  st ← forEach addLog filteredLogs ([], []);
  weeklyTrends ← mapM toTrend st.1;
  monthlyTrends ← mapM toTrend st.2;
  trends ← alloc (weeklyTrends ++ monthlyTrends);
  sort byPeriod trends.

(** *** Peer comparison *)

(** [{ scores: { [category]: number[] }, name: string }] *)
Record StudentRefs : Type := mkStudentRefs {
  sr_scores : ScoreRefs;
  sr_name : string
}.

(** The body of [log.categories.forEach(categoryScore => ...)]. *)
Definition pushStudentScore (st : JSMap StudentRefs) (studentId : string)
    (categoryScore : CategoryScore.t) : M (JSMap StudentRefs) :=
  mutate studentId
    (fun d =>
       scores ← pushScore (CategoryScore.category categoryScore)
                  (CategoryScore.score categoryScore) (sr_scores d);
       mret {| sr_scores := scores; sr_name := sr_name d |}) st.

(** The body of the first [logs.forEach(log => ...)]. *)
Definition collectLog (st : JSMap StudentRefs) (log : ObservationLog.t)
  : M (JSMap StudentRefs) :=
  let sid := ObservationLog.studentId log in
  let st' := if Map_has sid st then st
             else Map_set sid {| sr_scores := ∅; sr_name := ObservationLog.studentName log |} st in
  match ObservationLog.categories log with
  | Some cats => each (fun st cs => pushStudentScore st sid cs) cats st'
  | None => mret st'
  end.

(** [([studentId, data]) => { ... }], which reads the arrays of
    [data.scores]. *)
Definition toAverages (entry : string * StudentRefs) : M PeerComparison.t :=
  scores ← Object_entries (sr_scores entry.2);
  mret (Analytics.toAverages
          (entry.1, {| sd_scores := scores; sd_name := sr_name entry.2 |})).

(** The body of [categories.forEach(category => ...)]: [scores] is a new
    array, sorted in place; the students are updated where they are. *)
Definition rankCategory (studentAverages : ref) (_ : unit) (category : string) : M unit :=
  students ← elements studentAverages;
  scores ← alloc (omap (fun s =>
                          let score := PeerComparison.categoryAverages s !! category in
                          if positive score then score else None) students);
  _ ← sort (fun a b => (a - b)%float) scores;
  update (fun student =>
            sorted ← elements scores;
            mret (setPercentile category
                    (percentileOf sorted (PeerComparison.categoryAverages student !! category))
                    student)) studentAverages.

(** The array sorted at the end and returned is [studentAverages], which
    [Array.from(...).map(...)] created. *)
Definition calculatePeerComparison (logs : ref) : M ref :=
  studentMap ← forEach collectLog logs [];
  students ← mapM toAverages studentMap;
  studentAverages ← alloc students;
  each (rankCategory studentAverages) categories tt;;
  update (fun student => mret (setOverall student)) studentAverages;;
  sort byOverallDesc studentAverages.

(** *** Intervention alerts *)

(** [if (!m.has(id)) m.set(id, []); m.get(id)!.push(log)] *)
Definition groupLog (m : JSMap ref) (log : ObservationLog.t) : M (JSMap ref) :=
  let sid := ObservationLog.studentId log in
  m' ← (if Map_has sid m then mret m
        else arr ← alloc (T := ObservationLog.t) []; mret (Map_set sid arr m));
  match Map_get sid m' with
  | Some arr => push arr log;; mret m'
  | None => throw
  end.

(** The "Check for decline" block: the two windows are read off
    [scores], and the alert is pushed to [alerts]. *)
Definition checkDecline (alerts : ref) (studentId studentName category : string)
    (scores : ref) : M unit :=
  sorted ← elements scores;
  if (3 <=? length sorted)%nat then
    let recent := recentScores sorted in
    let older := olderScores sorted in
    if (0 <? length older)%nat then
      let recentAvg := mean recent in
      let olderAvg := mean older in
      let d := (olderAvg - recentAvg)%float in
      if (0.5 <? d)%float then
        push alerts {| InterventionAlert.studentId := studentId;
                       InterventionAlert.studentName := studentName;
                       InterventionAlert.alertType := decline;
                       InterventionAlert.category := category;
                       InterventionAlert.severity := declineSeverity d;
                       InterventionAlert.message :=
                         category +:+ " scores have declined by "
                           +:+ Number_toFixed1 d +:+ " points";
                       InterventionAlert.score := recentAvg;
                       InterventionAlert.threshold := olderAvg;
                       InterventionAlert.trend := d |}
      else mret tt
    else mret tt
  else mret tt.

(** The "Check for low scores" block. *)
Definition checkThreshold (alerts : ref) (studentId studentName category : string)
    (scores : ref) : M unit :=
  sorted ← elements scores;
  match Array_last sorted with
  | Some currentScore =>
      if (currentScore <? 2.5)%float then
        push alerts {| InterventionAlert.studentId := studentId;
                       InterventionAlert.studentName := studentName;
                       InterventionAlert.alertType := threshold;
                       InterventionAlert.category := category;
                       InterventionAlert.severity := thresholdSeverity currentScore;
                       InterventionAlert.message :=
                         category +:+ " score is below threshold ("
                           +:+ numberToString currentScore +:+ "/5)";
                       InterventionAlert.score := currentScore;
                       InterventionAlert.threshold := 2.5%float;
                       InterventionAlert.trend := 0%float |}
      else mret tt
  | None => mret tt
  end.

(** The body of [categories.forEach(category => ...)]: [categoryLogs] is
    a new array, and so is [scores], the array [map] returns, which is
    sorted in place. *)
Definition checkCategory (alerts : ref) (studentId studentName : string)
    (studentLogs : ref) (_ : unit) (category : string) : M unit :=
  categoryLogs ← filter (hasCategory category) studentLogs;
  selected ← elements categoryLogs;
  if (3 <=? length selected)%nat then
    scores ← alloc (map CategoryScore.score
                      (flat_map (categoryEntries category) selected));
    _ ← sort byDateOfScore scores;
    checkDecline alerts studentId studentName category scores;;
    checkThreshold alerts studentId studentName category scores
  else mret tt.

(** The body of [studentMap.forEach((studentLogs, studentId) => ...)];
    [studentLogs[0].studentName] throws on an empty array. *)
Definition checkStudent (alerts : ref) (_ : unit) (entry : string * ref) : M unit :=
  studentLogs ← elements entry.2;
  match studentLogs with
  | [] => throw
  | first :: _ =>
      each (checkCategory alerts entry.1 (ObservationLog.studentName first) entry.2)
        categories tt
  end.

(** The array sorted at the end and returned is [alerts], created empty on
    the first line. *)
Definition generateInterventionAlerts (logs : ref) : M ref :=
  alerts ← alloc (T := InterventionAlert.t) [];
  studentMap ← forEach groupLog logs [];
  each (checkStudent alerts) studentMap tt;;
  sort bySeverityDesc alerts.

End WithHost.

(** *** Recommendations *)

(** The body of [categoryRecommendations.forEach(rec => ...)]. *)
Definition applyRule (recommendations : ref) (alert : InterventionAlert.t)
    (_ : unit) (rec : Rule.t) : M unit :=
  if inBand alert rec then push recommendations (recommend alert rec) else mret tt.

(** The body of [alerts.forEach(alert => ...)]. *)
Definition applyAlert (recommendations : ref) (_ : unit) (alert : InterventionAlert.t)
  : M unit :=
  match categoryRecommendations alert with
  | Own rules => each (applyRule recommendations alert) rules tt
  | _ => throw
  end.

(** The array returned is [recommendations], created empty on the first
    line; [logs] is accepted and never read. *)
Definition generateRecommendations (logs alerts : ref) : M ref :=
  recommendations ← alloc (T := Recommendation.t) [];
  forEach (applyAlert recommendations) alerts tt;;
  mret recommendations.

End InPlace.

(** ** What the loops own while they run

    The invariants that relate a loop of [InPlace] to the loop of
    [Analytics] it computes. *)

Module Owned.
Import JS Analytics Heap.

Definition single (arr : ref) : list ref := [arr].

(** [generateRecommendations]: the array being filled is the one at
    [recommendations]. *)
Definition filling (n recommendations : ref) (h : heap) (_ : unit)
    (acc : list Recommendation.t) : Prop :=
  (n <= recommendations)%nat /\ h !! recommendations = Some (arrayOf acc).

(** The groups of [generateInterventionAlerts] while they are built: the
    Map holds the addresses of distinct arrays created after [alerts]. *)
Definition grouping (alerts : ref) (h : heap) (m : JSMap ref)
    (pm : JSMap (list ObservationLog.t)) : Prop :=
  (S alerts <= length h)%nat
  /\ hold stores h m pm
  /\ separate (S alerts) h (refs single m).

(** The arrays of a score object: their addresses, and what they hold. *)
Definition scoreRefs (obj : InPlace.ScoreRefs) : list ref := (map_to_list obj).*2.

Definition scoresAt (h : heap) (obj : InPlace.ScoreRefs) (p : ScoreArrays) : Prop :=
  forall c, match obj !! c with
            | Some arr => exists l, h !! arr = Some (arrayOf l) /\ p !! c = Some l
            | None => p !! c = None
            end.

(** The two Maps of [calculateTrends] while they are filled. *)
Definition bucketing (n : nat) (h : heap) (st : InPlace.TrendRefs) (ps : TrendState) : Prop :=
  (n <= length h)%nat
  /\ hold scoresAt h st.1 ps.1
  /\ hold scoresAt h st.2 ps.2
  /\ separate n h (refs scoreRefs st.1 ++ refs scoreRefs st.2).

(** The score arrays of a student of [calculatePeerComparison]. *)
Definition studentRefs (d : InPlace.StudentRefs) : list ref :=
  scoreRefs (InPlace.sr_scores d).

Definition studentAt (h : heap) (d : InPlace.StudentRefs) (p : StudentData) : Prop :=
  scoresAt h (InPlace.sr_scores d) (sd_scores p) /\ InPlace.sr_name d = sd_name p.

(** The Map of [calculatePeerComparison] while it is filled. *)
Definition collecting (n : nat) (h : heap) (m : JSMap InPlace.StudentRefs)
    (pm : JSMap StudentData) : Prop :=
  (n <= length h)%nat
  /\ hold studentAt h m pm
  /\ separate n h (refs studentRefs m).

End Owned.

(** ** A concrete host, for evaluating the functions on examples

    The machine runs in UTC; [Date.parse] accepts the ISO forms [YYYY-MM],
    [YYYY-MM-DD], [YYYY-MM-DDTHH:mm:ssZ] and [YYYY-MM-DDTHH:mm:ss.sssZ] (the
    last is what [toISOString] writes) and rejects everything else. *)

Module UTCHost.
Import JS.

Definition digitValue (c : Ascii.ascii) : option Z :=
  let n := Z.of_N (Ascii.N_of_ascii c) in
  if (48 <=? n) && (n <=? 57) then Some (n - 48) else None.

Fixpoint digitsFrom (acc : Z) (s : string) : option Z :=
  match s with
  | EmptyString => Some acc
  | String c s' =>
      match digitValue c with
      | Some d => digitsFrom (10 * acc + d) s'
      | None => None
      end
  end.

(** The number written by the [n] digits of [s] that start at [i]. *)
Definition field (i n : nat) (s : string) : option Z :=
  let f := String.substring i n s in
  if decide (String.length f = n) then digitsFrom 0 f else None.

Definition sep (i : nat) (c : string) (s : string) : bool :=
  bool_decide (String.substring i 1 s = c).

Definition inRange (lo hi : Z) (x : option Z) : option Z :=
  match x with
  | Some v => if (lo <=? v) && (v <=? hi) then Some v else None
  | None => None
  end.

Definition parseDay (s : string) (withDay : bool) : option Z :=
  y ← field 0 4 s;
  mo ← inRange 1 12 (field 5 2 s);
  d ← (if withDay then inRange 1 31 (field 8 2 s) else Some 1);
  if sep 4 "-" s && (negb withDay || sep 7 "-" s)
  then Some (MakeDay y (mo - 1) d) else None.

Definition parseTime (s : string) (withMillis : bool) : option Z :=
  h ← inRange 0 23 (field 11 2 s);
  mi ← inRange 0 59 (field 14 2 s);
  sec ← inRange 0 59 (field 17 2 s);
  ms ← (if withMillis then field 20 3 s else Some 0);
  if sep 10 "T" s && sep 13 ":" s && sep 16 ":" s
     && (if withMillis then sep 19 "." s && sep 23 "Z" s else sep 19 "Z" s)
  then Some (((h * 60 + mi) * 60 + sec) * 1000 + ms) else None.

Definition parse (s : string) : option Z :=
  match String.length s with
  | 7%nat => day ← parseDay s false; Some (MakeDate day 0)
  | 10%nat => day ← parseDay s true; Some (MakeDate day 0)
  | 20%nat => day ← parseDay s true; time ← parseTime s false; Some (MakeDate day time)
  | 24%nat => day ← parseDay s true; time ← parseTime s true; Some (MakeDate day time)
  | _ => None
  end.

(** The integer nearest to [|x| * 10^k], a tie going up (exact). *)
Definition scaled (k : Z) (x : float) : Z :=
  match Prim2SF x with
  | S754_finite _ m e =>
      if 0 <=? e then Zpos m * 2 ^ e * 10 ^ k
      else (2 * Zpos m * 10 ^ k + 2 ^ (- e)) / 2 ^ (- e + 1)
  | _ => 0
  end.

(** [n] written with a decimal point [k] digits from the right. *)
Definition fixedPoint (k : nat) (n : Z) : string :=
  let frac := pretty (n mod 10 ^ Z.of_nat k) in
  pretty (n / 10 ^ Z.of_nat k) +:+ "."
    +:+ repeat_string (k - String.length frac) "0" +:+ frac.

Definition signOf (x : float) : string := if (x <? 0)%float then "-" else "".

(** [x.toFixed(1)] for |x| < 10^21. *)
Definition toFixed1 (x : float) : string :=
  match Prim2SF x with
  | S754_nan => "NaN"
  | S754_infinity s => if s then "-Infinity" else "Infinity"
  | _ => signOf x +:+ fixedPoint 1 (scaled 1 x)
  end.

(** The fewest fraction digits, among [k, k+1, ...], that read back as [x]. *)
Fixpoint shortest (fuel : nat) (k : nat) (x : float) : string :=
  let n := scaled (Z.of_nat k) x in
  match fuel with
  | O => fixedPoint k n
  | S fuel' =>
      if (Z2F n / Z2F (10 ^ Z.of_nat k) =? abs x)%float then fixedPoint k n
      else shortest fuel' (S k) x
  end.

(** [String(x)] for a fractional [x]: exact when [x] has at most 15
    significant digits and 1e-6 <= |x| < 1e21. *)
Definition toString (x : float) : string :=
  match Prim2SF x with
  | S754_nan => "NaN"
  | S754_infinity s => if s then "-Infinity" else "Infinity"
  | S754_zero _ => "0"
  | _ => signOf x +:+ shortest 16 1 x
  end.

#[export] Instance host : Host :=
  {| Date_parse := parse;
     LocalTZA := fun _ => 0;
     Number_toFixed1 := toFixed1;
     Number_toString := toString |}.

End UTCHost.


Import JS Analytics.

(** ** Notions used in the statements *)

(** One step of the percentile passes seen from a single student: the
    percentile for category [c], given the cohort lists. *)
Definition assign (cohort : string -> list float) (st : PeerComparison.t) (c : string)
  : PeerComparison.t :=
  setPercentile c (percentileOf (cohort c) (PeerComparison.categoryAverages st !! c)) st.

(** A student after both percentile passes. *)
Definition ranked (logs : list ObservationLog.t) (st : PeerComparison.t) : PeerComparison.t :=
  setOverall (fold_left (assign (cohortScores (Returned.studentAverages logs))) categories st).

(** The records of student [sid], in input order. *)
Definition studentLogsOf (sid : string) (logs : list ObservationLog.t)
  : list ObservationLog.t :=
  List.filter (fun log => bool_decide (ObservationLog.studentId log = sid)) logs.

(** The name on the first record of student [sid]. *)
Definition studentNameOf (sid : string) (logs : list ObservationLog.t) : string :=
  match studentLogsOf sid logs with
  | first :: _ => ObservationLog.studentName first
  | [] => ""
  end.

(** The records of student [sid] that score category [c]. *)
Definition categoryLogsOf (sid c : string) (logs : list ObservationLog.t)
  : list ObservationLog.t :=
  List.filter (hasCategory c) (studentLogsOf sid logs).

(** The score entries of student [sid] for category [c]. *)
Definition pairEntries (sid c : string) (logs : list ObservationLog.t)
  : list CategoryScore.t :=
  flat_map (categoryEntries c) (studentLogsOf sid logs).

(** The sequence of scores the alert generator windows over for the pair
    [(sid, c)], in the order the generator gives it. *)
Definition pairScores (sid c : string) (logs : list ObservationLog.t) : list float :=
  sortedScores c (categoryLogsOf sid c logs).

(** An alert of type [ty] for the pair [(sid, c)] is among [alerts]. *)
Definition emits (alerts : list InterventionAlert.t) (sid c : string) (ty : AlertType)
  : Prop :=
  exists a, In a alerts
    /\ InterventionAlert.studentId a = sid
    /\ InterventionAlert.category a = c
    /\ InterventionAlert.alertType a = ty.

(** The reading of the specification for the order of a pair's scores:
    the records that score the category sorted by the instant of their
    [timestamp], each contributing its entries for the category. *)
Definition byTimestamp `{Host} (a b : ObservationLog.t) : float :=
  (getTime (Date_ofString (ObservationLog.timestamp a))
   - getTime (Date_ofString (ObservationLog.timestamp b)))%float.

Definition chronologicalScores `{Host} (sid c : string) (logs : list ObservationLog.t)
  : list float :=
  map CategoryScore.score
    (flat_map (categoryEntries c) (Array_sort byTimestamp (categoryLogsOf sid c logs))).

(** The bucket keys of a record. *)
Definition weekOf `{Host} (log : ObservationLog.t) : string :=
  getWeekKey (Date_ofString (ObservationLog.timestamp log)).

Definition monthOf `{Host} (log : ObservationLog.t) : string :=
  getMonthKey (Date_ofString (ObservationLog.timestamp log)).

(** The category-score entries a record carries (none when [categories] is
    absent). *)
Definition entriesOf (log : ObservationLog.t) : list CategoryScore.t :=
  default [] (ObservationLog.categories log).

(** The records, the entries and the scores that contribute to the bucket
    [k] of the granularity [key] (one of [weekOf], [monthOf]). *)
Definition bucketLogs (key : ObservationLog.t -> string) (k : string)
    (logs : list ObservationLog.t) : list ObservationLog.t :=
  List.filter (fun log => bool_decide (key log = k)) logs.

Definition bucketEntries (key : ObservationLog.t -> string) (k : string)
    (logs : list ObservationLog.t) : list CategoryScore.t :=
  flat_map entriesOf (bucketLogs key k logs).

Definition bucketScores (key : ObservationLog.t -> string) (k c : string)
    (logs : list ObservationLog.t) : list float :=
  map CategoryScore.score (List.filter (isCategory c) (bucketEntries key k logs)).

(** One of the two accumulating Maps of [calculateTrends] on its own. *)
Definition pushEntry (k : string) (data : JSMap (gmap string (list float)))
    (categoryScore : CategoryScore.t) : JSMap (gmap string (list float)) :=
  Map_update k (Returned.pushScore (CategoryScore.category categoryScore)
                  (CategoryScore.score categoryScore)) data.

Definition accumulate (key : ObservationLog.t -> string)
    (data : JSMap (gmap string (list float))) (log : ObservationLog.t)
  : JSMap (gmap string (list float)) :=
  fold_left (pushEntry (key log)) (entriesOf log) (initBucket (key log) data).

(** All the entries of one record pushed into one bucket object. *)
Definition pushAll (cats : list CategoryScore.t) (obj : gmap string (list float))
  : gmap string (list float) :=
  fold_left (fun obj cs =>
               Returned.pushScore (CategoryScore.category cs) (CategoryScore.score cs) obj)
    cats obj.

(** No score entry of the records is filed under the name of a member
    inherited from [Object.prototype]. *)
Definition plainEntries (logs : list ObservationLog.t) : Prop :=
  forall log cs, In log logs -> In cs (entriesOf log) ->
    inherited (CategoryScore.category cs) = false.

(** [Some l] for a non-empty array, no property for an empty one. *)
Definition nonEmpty (l : list float) : option (list float) :=
  match l with [] => None | _ => Some l end.

(** The local time [lt] moved back to the first day of its month. *)
Definition monthStartOf (lt : Z) : Z := lt - (DateFromTime lt - 1) * msPerDay.

(** The reading of the specification for the week number:
    [ceil((dayOfMonth + weekday of the first day of the instant's month) / 7)]. *)
Definition weekOfMonth (lt : Z) : Z :=
  (DateFromTime lt + WeekDay (monthStartOf lt) + 6) / 7.

(** A binary64 value that is not NaN and has sign [sx]; one that is
    finite and positive. *)
Definition signedSF (sx : bool) (x : spec_float) : Prop :=
  match x with
  | S754_zero s | S754_infinity s | S754_finite s _ _ => s = sx
  | S754_nan => False
  end.

Definition positiveSF (x : spec_float) : Prop :=
  match x with S754_finite false _ _ => True | _ => False end.

(** A Number that is positive or +0: what a percentile always is. *)
Definition positiveOrZero (x : float) : Prop :=
  (0 <? x)%float = true \/ x = 0%float.

(** ** Notions used in the further statements *)

(** The distinct elements of [l] in the order of their first occurrence:
    the iteration order of a [Map] keyed by them, and of [new Set(l)]. *)
Definition firstOccurrences (l : list string) : list string :=
  fold_left (fun seen x => if bool_decide (x ∈ seen) then seen else seen ++ [x]) l [].

#[global] Instance Severity_eq_dec : EqDecision Severity.
Proof. solve_decision. Defined.

#[global] Instance AlertType_eq_dec : EqDecision AlertType.
Proof. solve_decision. Defined.


(** What an alert is about. *)
Definition alertKey (a : InterventionAlert.t) : string * string * AlertType :=
  (InterventionAlert.studentId a, InterventionAlert.category a,
   InterventionAlert.alertType a).

(** The two alerts a pair of student and category can get. *)
Definition pairKeys (sid c : string) : list (string * string * AlertType) :=
  [(sid, c, decline); (sid, c, threshold)].

(** ** Sample inputs *)

Module Examples.

Definition entry (category : string) (score : float) : CategoryScore.t :=
  CategoryScore.mk category score false.

Definition record (id studentId studentName timestamp : string)
    (cats : list CategoryScore.t) : ObservationLog.t :=
  ObservationLog.mk id studentId studentName timestamp "" [] (Some cats).

(** Three students; two share the top average in one category. *)
Definition cohort : list ObservationLog.t :=
  [ record "o1" "1" "Sarah Johnson" "2024-03-04T09:00:00.000Z"
      [entry "Cognitive Skills" 2; entry "Social Skills" 4];
    record "o2" "2" "Mike Chen" "2024-03-04T09:30:00.000Z"
      [entry "Cognitive Skills" 3];
    record "o3" "3" "Emma Davis" "2024-03-05T09:00:00.000Z"
      [entry "Cognitive Skills" 2.5];
    record "o4" "3" "Emma Davis" "2024-03-12T09:00:00.000Z"
      [entry "Cognitive Skills" 3.5] ].

(** One student scored weekly in one category. *)
Definition weekly (studentId studentName category : string) (scores : list float)
  : list ObservationLog.t :=
  map (fun '(timestamp, score) =>
         record "" studentId studentName timestamp [entry category score])
    (zip [ "2024-01-08T09:00:00.000Z"; "2024-01-15T09:00:00.000Z";
           "2024-01-22T09:00:00.000Z"; "2024-01-29T09:00:00.000Z";
           "2024-02-05T09:00:00.000Z"; "2024-02-12T09:00:00.000Z" ] scores).

(** Scores falling from 4 to 2 over six weeks. *)
Definition falling : list ObservationLog.t :=
  weekly "5" "Jordan Smith" "Cognitive Skills" [4; 4; 4; 2; 2; 2]%float.

(** Scores slipping within one integer band. *)
Definition slipping : list ObservationLog.t :=
  weekly "2" "Mike Chen" "Communication" [2.9; 2.9; 2.9; 2; 2; 2]%float.

(** Two records, each scoring the same category three times. *)
Definition twoRecords : list ObservationLog.t :=
  [ record "o1" "2" "Mike Chen" "2024-01-08T09:00:00.000Z"
      [entry "Communication" 2.9; entry "Communication" 2.9; entry "Communication" 2.9];
    record "o2" "2" "Mike Chen" "2024-01-15T09:00:00.000Z"
      [entry "Communication" 2; entry "Communication" 2; entry "Communication" 2] ].

(** One record scoring the same category three times. *)
Definition oneRecord : list ObservationLog.t :=
  [ record "o1" "2" "Mike Chen" "2024-01-08T09:00:00.000Z"
      [entry "Creativity" 1; entry "Creativity" 1; entry "Creativity" 1] ].

(** A week with a record of three scores and a record of one score; a
    later record without [categories]; another with an empty array. *)
Definition notes : list ObservationLog.t :=
  [ record "n1" "1" "Sarah Johnson" "2024-03-04T09:00:00.000Z"
      [entry "Cognitive Skills" 2; entry "Social Skills" 4; entry "Creativity" 5];
    record "n2" "2" "Mike Chen" "2024-03-05T09:00:00.000Z"
      [entry "Cognitive Skills" 3];
    ObservationLog.mk "n3" "2" "Mike Chen" "2024-05-30T09:00:00.000Z" "" [] None;
    record "n4" "3" "Emma Davis" "2024-04-20T09:00:00.000Z" [] ].

(** The array a call returned (empty for a call that threw). *)
Definition returned {A} (call : Completion (list A)) : list A :=
  match call with Normal out => out | Throw_TypeError => [] end.

Definition noTrend : TrendData.t := TrendData.mk "" ∅ 0.

(** The first entry of [calculateTrends notes]. *)
Definition firstTrend : TrendData.t :=
  nth 0 (returned (calculateTrends (H := UTCHost.host) notes None)) noTrend.

(** The record of [notes] without [categories], and the one with none. *)
Definition bare : ObservationLog.t :=
  ObservationLog.mk "n3" "2" "Mike Chen" "2024-05-30T09:00:00.000Z" "" [] None.

Definition blank : ObservationLog.t :=
  record "n4" "3" "Emma Davis" "2024-04-20T09:00:00.000Z" [].

(** A record that files a score under the name of an inherited member. *)
Definition odd : ObservationLog.t :=
  record "n5" "2" "Mike Chen" "2024-03-06T09:00:00.000Z" [entry "toString" 3].

(** 2024-03-05T10:20:30.123Z, and midnight of 5 March of the year 50. *)
Definition march2024 : Z := 1709634030123.
Definition march50 : Z := -60583852800000.

(** A low threshold alert for one student. *)
Definition alertFor (score : float) (category : string) : InterventionAlert.t :=
  InterventionAlert.mk "2" "Mike Chen" threshold category low "" score 2.5 0.

Definition nobody : PeerComparison.t := PeerComparison.mk "" "" ∅ [] 0.

(** The entries of [calculatePeerComparison cohort] for students 1 and 3. *)
Definition sarah : PeerComparison.t :=
  nth 0 (returned (calculatePeerComparison cohort)) nobody.

Definition emma : PeerComparison.t :=
  nth 2 (returned (calculatePeerComparison cohort)) nobody.

(** A heap on which the caller holds the sample cohort at address 0 and
    two alerts at address 1. *)
Definition callerHeap : Heap.heap :=
  [ Heap.Records cohort;
    Heap.Alerts [alertFor 2 "Cognitive Skills"; alertFor 2 "Motor Skills"] ].

End Examples.

(** * Properties *)

(** ** Folding with [push] *)

Section Pushing.
Context {A B : Type}.

(** A loop body that only appends to the array it fills is a [flat_map]. *)
Lemma fold_left_push (step : list B -> A -> list B) (f : A -> list B) :
  (forall acc x, step acc x = acc ++ f x) ->
  forall l acc, fold_left step l acc = acc ++ flat_map f l.
Proof.
  intros Hstep l. induction l as [|x l IH]; intros acc; simpl.
  - by rewrite app_nil_r.
  - rewrite IH, Hstep. by rewrite <- app_assoc.
Qed.
End Pushing.

(** ** [Array.prototype.sort] rearranges, whatever the comparator *)

Section Sorting.
Context {A : Type} (cmp : A -> A -> float).

Lemma sort_insert_perm x l : Permutation (sort_insert cmp x l) (x :: l).
Proof.
  induction l as [|y l IH]; simpl; [done|].
  destruct (0 <? cmp x y)%float; [|done].
  rewrite IH. apply perm_swap.
Qed.

Lemma Array_sort_perm l : Permutation (Array_sort cmp l) l.
Proof.
  induction l as [|x l IH]; simpl; [done|].
  rewrite sort_insert_perm. by constructor.
Qed.

Lemma Array_sort_In x l : In x (Array_sort cmp l) <-> In x l.
Proof.
  split; apply Permutation_in; [|symmetry]; apply Array_sort_perm.
Qed.

Lemma Array_sort_length l : length (Array_sort cmp l) = length l.
Proof. apply Permutation_length, Array_sort_perm. Qed.
End Sorting.

(** ** Loops that may throw *)

Section Loops.
Context {S A : Type}.


(** A loop whose body completes on every element is a [fold_left]. *)
Lemma forEach_Normal (body : S -> A -> Completion S) (step : S -> A -> S) l s :
  (forall s x, In x l -> body s x = Normal (step s x)) ->
  forEach body l s = Normal (fold_left step l s).
Proof.
  revert s. induction l as [|x l IH]; intros s Hbody; simpl; [done|].
  rewrite Hbody by (by left). apply IH. intros s' y Hy. apply Hbody. by right.
Qed.

(** A loop that completes has run its body to completion on every element. *)
Lemma forEach_fold (body : S -> A -> Completion S) (step : S -> A -> S) l s s' :
  (forall s x s', body s x = Normal s' -> s' = step s x) ->
  forEach body l s = Normal s' -> s' = fold_left step l s.
Proof.
  intros Hbody. revert s. induction l as [|x l IH]; intros s; simpl.
  - by intros [= <-].
  - destruct (body s x) as [s1|] eqn:E; [|done].
    apply Hbody in E as ->. apply IH.
Qed.

End Loops.

(** ** Recommendations *)







Example recommendation_fan_out :
  (map (fun r => (Recommendation.activity r, Recommendation.priority r))
     <$> generateRecommendations [] [Examples.alertFor 2 "Cognitive Skills"])
  = Normal [("One-on-one problem-solving sessions", low);
            ("Small group problem-solving activities", low)]
  /\ generateRecommendations [] [Examples.alertFor 3.5 "Cognitive Skills"] = Normal []
  /\ generateRecommendations [] [Examples.alertFor 2 "Motor Skills"] = Normal [].
Proof. vm_compute. repeat split; reflexivity. Qed.


(** ** Insertion-ordered maps *)

Section Maps.
Context {V : Type}.
Implicit Types (m : JSMap V) (k : string).

Lemma Map_get_None k m : Map_get k m = None <-> ~ In k (Map_keys m).
Proof.
  induction m as [|[k' v] m IH]; simpl; [tauto|].
  destruct (decide (k' = k)) as [->|Hne]; [split; [done|tauto]|].
  rewrite IH. tauto.
Qed.

Lemma Map_get_In k v m : Map_get k m = Some v -> In (k, v) m.
Proof.
  induction m as [|[k' v'] m IH]; simpl; [done|].
  destruct (decide (k' = k)) as [->|Hne]; [intros [= ->]; by left|].
  intros Hget. right. by apply IH.
Qed.

Lemma Map_In_get k v m : NoDup (Map_keys m) -> In (k, v) m -> Map_get k m = Some v.
Proof.
  induction m as [|[k' v'] m IH]; simpl; [done|].
  intros Hnd [[= -> ->]|Hin].
  - by rewrite decide_True.
  - apply NoDup_cons_1_1 in Hnd as Hk'. apply NoDup_cons_1_2 in Hnd.
    destruct (decide (k' = k)) as [->|Hne]; [|by apply IH].
    exfalso. apply Hk'. apply list_elem_of_In.
    change k with (fst (k, v)). by apply in_map.
Qed.

Lemma Map_has_true k m : Map_has k m = true <-> In k (Map_keys m).
Proof.
  unfold Map_has. destruct (Map_get k m) as [v|] eqn:E.
  - split; [|done]. intros _. apply Map_get_In in E.
    change k with (fst (k, v)). by apply in_map.
  - apply Map_get_None in E. split; [done|tauto].
Qed.

Lemma Map_has_false k m : Map_has k m = false <-> ~ In k (Map_keys m).
Proof. rewrite <- Map_has_true. by destruct (Map_has k m). Qed.

Lemma Map_update_keys k f m : Map_keys (Map_update k f m) = Map_keys m.
Proof.
  induction m as [|[k' v] m IH]; simpl; [done|].
  destruct (decide (k' = k)); simpl; [done|by rewrite IH].
Qed.

Lemma Map_set_absent k v m : ~ In k (Map_keys m) -> Map_set k v m = m ++ [(k, v)].
Proof.
  induction m as [|[k' v'] m IH]; simpl; [done|].
  intros Hout. destruct (decide (k' = k)) as [->|Hne]; [tauto|].
  rewrite IH; [done|tauto].
Qed.

Lemma Map_get_update k k' f m :
  Map_get k' (Map_update k f m)
  = if decide (k = k') then f <$> Map_get k' m else Map_get k' m.
Proof.
  induction m as [|[k0 v] m IH]; simpl; [by destruct (decide (k = k'))|].
  destruct (decide (k0 = k)) as [->|Hne]; simpl.
  - destruct (decide (k = k')); [done|done].
  - destruct (decide (k0 = k')) as [->|Hne']; simpl.
    + by rewrite decide_False by congruence.
    + apply IH.
Qed.

Lemma Map_get_app k m1 m2 :
  Map_get k (m1 ++ m2) = if Map_get k m1 is Some v then Some v else Map_get k m2.
Proof.
  induction m1 as [|[k' v] m1 IH]; simpl; [done|].
  by destruct (decide (k' = k)).
Qed.
End Maps.

(** ** The calls that return

    Each loop of [Analytics] that can throw either throws or leaves what
    the loop of [Returned] leaves; it completes when no score entry is
    filed under an inherited name. *)

Section Returns.
Context `{Host}.

Lemma pushScore_returns c x obj obj' :
  pushScore c x obj = Normal obj' -> obj' = Returned.pushScore c x obj.
Proof.
  unfold pushScore, Returned.pushScore, Object_get.
  destruct (obj !! c) as [arr|] eqn:E.
  - rewrite E. intros [= <-]. apply map_eq. intros c'.
    destruct (decide (c = c')) as [<-|Hne].
    + by rewrite lookup_insert_eq, lookup_alter_eq, E.
    + by rewrite lookup_insert_ne, lookup_alter_ne.
  - destruct (inherited c); [by rewrite E|].
    rewrite lookup_insert_eq. intros [= <-]. apply map_eq. intros c'.
    destruct (decide (c = c')) as [<-|Hne].
    + by rewrite lookup_insert_eq, lookup_alter_eq, lookup_insert_eq.
    + by rewrite lookup_insert_ne, lookup_alter_ne.
Qed.

Lemma pushScore_plain c x obj :
  inherited c = false -> pushScore c x obj = Normal (Returned.pushScore c x obj).
Proof.
  intros Hc. destruct (pushScore c x obj) as [obj'|] eqn:E.
  - by apply pushScore_returns in E as ->.
  - exfalso. revert E. unfold pushScore, Object_get. rewrite Hc.
    destruct (obj !! c) as [arr|] eqn:E'.
    + by rewrite E'.
    + by rewrite lookup_insert_eq.
Qed.

Lemma Map_update_at {V} k (f g : V -> V) (m : JSMap V) v :
  Map_get k m = Some v -> f v = g v -> Map_update k f m = Map_update k g m.
Proof.
  induction m as [|[k' v'] m IH]; simpl; [done|].
  destruct (decide (k' = k)); [by intros [= ->] ->|].
  intros Hget Hfg. by rewrite IH.
Qed.

Lemma Map_modify_returns {V} k (f : V -> Completion V) (g : V -> V) (m m' : JSMap V) :
  (forall v v', f v = Normal v' -> v' = g v) ->
  Map_modify k f m = Normal m' -> m' = Map_update k g m.
Proof.
  intros Hf. unfold Map_modify. destruct (Map_get k m) as [v|] eqn:E; [|done].
  destruct (f v) as [v'|] eqn:Ev; [|done]. simpl. intros [= <-].
  apply (Map_update_at _ _ _ _ v E). by apply Hf.
Qed.

Lemma Map_modify_Normal {V} k (f : V -> Completion V) (g : V -> V) (m : JSMap V) :
  (forall v, f v = Normal (g v)) -> In k (Map_keys m) ->
  Map_modify k f m = Normal (Map_update k g m).
Proof.
  intros Hf Hin. unfold Map_modify.
  destruct (Map_get k m) as [v|] eqn:E.
  - rewrite Hf. simpl. f_equal. by apply (Map_update_at _ _ _ _ v E).
  - by apply Map_get_None in E.
Qed.

Lemma initBucket_key k (data : JSMap ScoreArrays) : In k (Map_keys (initBucket k data)).
Proof.
  unfold initBucket. destruct (Map_has k data) eqn:E.
  - by apply Map_has_true.
  - apply Map_has_false in E. rewrite Map_set_absent by done.
    unfold Map_keys. rewrite map_app, in_app_iff. right. by left.
Qed.

Lemma addCategoryScore_returns weekKey monthKey st cs st' :
  addCategoryScore weekKey monthKey st cs = Normal st' ->
  st' = Returned.addCategoryScore weekKey monthKey st cs.
Proof.
  unfold addCategoryScore, Returned.addCategoryScore.
  destruct (Map_modify weekKey _ st.1) as [w|] eqn:Ew; [|done].
  destruct (Map_modify monthKey _ st.2) as [m|] eqn:Em; [|done].
  simpl. intros [= <-].
  apply (Map_modify_returns _ _
           (Returned.pushScore (CategoryScore.category cs) (CategoryScore.score cs)))
    in Ew; [|intros v v'; apply pushScore_returns].
  apply (Map_modify_returns _ _
           (Returned.pushScore (CategoryScore.category cs) (CategoryScore.score cs)))
    in Em; [|intros v v'; apply pushScore_returns].
  by subst.
Qed.

Lemma addCategoryScore_plain weekKey monthKey st cs :
  inherited (CategoryScore.category cs) = false ->
  In weekKey (Map_keys st.1) -> In monthKey (Map_keys st.2) ->
  addCategoryScore weekKey monthKey st cs
  = Normal (Returned.addCategoryScore weekKey monthKey st cs).
Proof.
  intros Hc Hw Hm. unfold addCategoryScore, Returned.addCategoryScore.
  rewrite (Map_modify_Normal _ _
             (Returned.pushScore (CategoryScore.category cs) (CategoryScore.score cs)))
    by (done || intros; by apply pushScore_plain).
  simpl.
  rewrite (Map_modify_Normal _ _
             (Returned.pushScore (CategoryScore.category cs) (CategoryScore.score cs)))
    by (done || intros; by apply pushScore_plain).
  done.
Qed.

Lemma addLog_returns st log st' :
  addLog st log = Normal st' -> st' = Returned.addLog st log.
Proof.
  unfold addLog, Returned.addLog. cbv zeta.
  destruct (ObservationLog.categories log) as [cats|]; [|by intros [= <-]].
  apply forEach_fold. apply addCategoryScore_returns.
Qed.

Lemma addCategoryScore_keys weekKey monthKey st cats :
  Map_keys (fold_left (Returned.addCategoryScore weekKey monthKey) cats st).1 = Map_keys st.1
  /\ Map_keys (fold_left (Returned.addCategoryScore weekKey monthKey) cats st).2
     = Map_keys st.2.
Proof.
  revert st. induction cats as [|cs cats IH]; intros st; simpl; [done|].
  destruct (IH (Returned.addCategoryScore weekKey monthKey st cs)) as [-> ->].
  unfold Returned.addCategoryScore. cbn [fst snd]. by rewrite !Map_update_keys.
Qed.

Lemma forEach_addCategoryScore weekKey monthKey cats st :
  (forall cs, In cs cats -> inherited (CategoryScore.category cs) = false) ->
  In weekKey (Map_keys st.1) -> In monthKey (Map_keys st.2) ->
  forEach (addCategoryScore weekKey monthKey) cats st
  = Normal (fold_left (Returned.addCategoryScore weekKey monthKey) cats st).
Proof.
  revert st. induction cats as [|cs cats IH]; intros st Hplain Hw Hm; simpl; [done|].
  rewrite addCategoryScore_plain by (done || apply Hplain; by left).
  apply IH.
  - intros cs' Hin. apply Hplain. by right.
  - unfold Returned.addCategoryScore. cbn [fst]. by rewrite Map_update_keys.
  - unfold Returned.addCategoryScore. cbn [snd]. by rewrite Map_update_keys.
Qed.

Lemma addLog_plain st log :
  (forall cs, In cs (entriesOf log) -> inherited (CategoryScore.category cs) = false) ->
  addLog st log = Normal (Returned.addLog st log).
Proof.
  intros Hplain. unfold addLog, Returned.addLog, entriesOf in *. cbv zeta.
  destruct (ObservationLog.categories log) as [cats|]; [|done].
  apply forEach_addCategoryScore; [done|apply initBucket_key..].
Qed.

(** [calculateTrends] returns nothing but what [Returned.calculateTrends]
    describes, and it returns whenever the selected records are plain. *)
Lemma calculateTrends_returns logs studentId trends :
  calculateTrends logs studentId = Normal trends ->
  trends = Returned.calculateTrends logs studentId.
Proof.
  unfold calculateTrends, Returned.calculateTrends, Returned.trendState.
  destruct (forEach addLog _ _) as [st|] eqn:E; [|done]. simpl. intros [= <-].
  f_equal. revert E. apply forEach_fold. apply addLog_returns.
Qed.

Lemma calculateTrends_plain logs studentId :
  plainEntries (filteredLogs logs studentId) ->
  calculateTrends logs studentId = Normal (Returned.calculateTrends logs studentId).
Proof.
  intros Hplain. unfold calculateTrends, Returned.calculateTrends, Returned.trendState.
  rewrite (forEach_Normal addLog Returned.addLog); [done|].
  intros st log Hin. apply addLog_plain. intros cs. by apply Hplain.
Qed.

End Returns.

Section StudentsReturned.

Lemma pushStudentScore_returns st sid cs st' :
  pushStudentScore st sid cs = Normal st' -> st' = Returned.pushStudentScore st sid cs.
Proof.
  unfold pushStudentScore, Returned.pushStudentScore.
  apply Map_modify_returns. intros d d'.
  destruct (pushScore _ _ (sd_scores d)) as [scores|] eqn:E; [|done]. simpl.
  intros [= <-]. by apply pushScore_returns in E as ->.
Qed.

Lemma pushStudentScore_plain st sid cs :
  inherited (CategoryScore.category cs) = false -> In sid (Map_keys st) ->
  pushStudentScore st sid cs = Normal (Returned.pushStudentScore st sid cs).
Proof.
  intros Hc Hin. unfold pushStudentScore, Returned.pushStudentScore.
  apply Map_modify_Normal; [|done]. intros d. by rewrite pushScore_plain.
Qed.

Lemma collectLog_returns st log st' :
  collectLog st log = Normal st' -> st' = Returned.collectLog st log.
Proof.
  unfold collectLog, Returned.collectLog. cbv zeta.
  destruct (ObservationLog.categories log) as [cats|]; [|by intros [= <-]].
  apply forEach_fold. intros s cs s'. apply pushStudentScore_returns.
Qed.

Lemma collectLog_plain st log :
  (forall cs, In cs (entriesOf log) -> inherited (CategoryScore.category cs) = false) ->
  collectLog st log = Normal (Returned.collectLog st log).
Proof.
  intros Hplain. unfold collectLog, Returned.collectLog, entriesOf in *. cbv zeta.
  set (sid := ObservationLog.studentId log).
  set (st' := if Map_has sid st then st else _).
  assert (Hin : In sid (Map_keys st')).
  { unfold st'. destruct (Map_has sid st) eqn:E; [by apply Map_has_true|].
    apply Map_has_false in E. rewrite Map_set_absent by done.
    unfold Map_keys. rewrite map_app, in_app_iff. right. by left. }
  clearbody st'.
  destruct (ObservationLog.categories log) as [cats|]; [|done]. simpl in Hplain.
  revert st' Hin. induction cats as [|cs cats IH]; intros st' Hin; simpl; [done|].
  rewrite pushStudentScore_plain by (done || apply Hplain; by left).
  apply IH.
  - intros cs' Hcs. apply Hplain. by right.
  - unfold Returned.pushStudentScore. by rewrite Map_update_keys.
Qed.

Lemma calculatePeerComparison_returns logs out :
  calculatePeerComparison logs = Normal out ->
  out = Returned.calculatePeerComparison logs.
Proof.
  unfold calculatePeerComparison, Returned.calculatePeerComparison,
    Returned.rankedStudents, Returned.studentAverages, Returned.studentMap.
  destruct (forEach collectLog logs []) as [st|] eqn:E; [|done]. simpl. intros [= <-].
  do 3 f_equal. revert E. apply forEach_fold. apply collectLog_returns.
Qed.

Lemma calculatePeerComparison_plain logs :
  plainEntries logs ->
  calculatePeerComparison logs = Normal (Returned.calculatePeerComparison logs).
Proof.
  intros Hplain. unfold calculatePeerComparison, Returned.calculatePeerComparison,
    Returned.rankedStudents, Returned.studentAverages, Returned.studentMap.
  rewrite (forEach_Normal collectLog Returned.collectLog); [done|].
  intros st log Hin. apply collectLog_plain. intros cs. by apply Hplain.
Qed.

End StudentsReturned.

(** ** Peer comparison *)

Section PeerComparison.

Lemma NoDup_categories : NoDup categories.
Proof. apply (bool_decide_unpack _). by vm_compute. Qed.

(** The cohort list reads nothing but the students' averages. *)
Lemma cohortScores_map (g : PeerComparison.t -> PeerComparison.t) students category :
  (forall st, PeerComparison.categoryAverages (g st) = PeerComparison.categoryAverages st) ->
  cohortScores (map g students) category = cohortScores students category.
Proof.
  intros Hg. unfold cohortScores. f_equal.
  induction students as [|st l IH]; [done|].
  cbn [map omap list_omap]. rewrite Hg. by rewrite <- IH.
Qed.

Lemma assign_fold_averages cohort cs st :
  PeerComparison.categoryAverages (fold_left (assign cohort) cs st)
  = PeerComparison.categoryAverages st.
Proof. revert st. induction cs as [|c cs IH]; intros st; simpl; [done|]. by rewrite IH. Qed.

Lemma rankCategory_fold cs students :
  fold_left rankCategory cs students
  = map (fun st => fold_left (assign (cohortScores students)) cs st) students.
Proof.
  revert students. induction cs as [|c cs IH]; intros students; simpl.
  - symmetry. apply map_id.
  - rewrite IH. unfold rankCategory at 2. rewrite map_map.
    apply map_ext. intros st.
    assert (Hco : forall c', cohortScores (rankCategory students c) c'
                             = cohortScores students c').
    { intros c'. by apply cohortScores_map. }
    clear IH. change (setPercentile c _ st) with (assign (cohortScores students) st c).
    generalize (assign (cohortScores students) st c).
    induction cs as [|c' cs IH]; intros st'; simpl; [done|].
    unfold assign at 2 4. rewrite Hco. apply IH.
Qed.

Lemma fold_Map_set_fresh {V} (g : string -> V) cs (m : JSMap V) :
  NoDup cs -> (forall c, In c cs -> ~ In c (Map_keys m)) ->
  fold_left (fun m c => Map_set c (g c) m) cs m = m ++ map (fun c => (c, g c)) cs.
Proof.
  revert m. induction cs as [|c cs IH]; intros m Hnd Hfresh; simpl.
  - by rewrite app_nil_r.
  - rewrite Map_set_absent by (apply Hfresh; by left).
    apply NoDup_cons_1_1 in Hnd as Hc. apply NoDup_cons_1_2 in Hnd.
    rewrite IH; [by rewrite <- app_assoc|done|].
    intros c' Hin. unfold Map_keys. rewrite map_app, in_app_iff. simpl.
    intros [Hm|[->|[]]].
    + apply (Hfresh c'); [by right|done].
    + apply Hc. by apply list_elem_of_In.
Qed.

Lemma assign_fold_percentile cohort cs st :
  PeerComparison.percentile (fold_left (assign cohort) cs st)
  = fold_left (fun m c =>
      Map_set c (percentileOf (cohort c) (PeerComparison.categoryAverages st !! c)) m)
      cs (PeerComparison.percentile st).
Proof.
  revert st. induction cs as [|c cs IH]; intros st; simpl; [done|].
  rewrite IH. simpl. done.
Qed.

Lemma assign_fold_id cohort cs st :
  PeerComparison.studentId (fold_left (assign cohort) cs st) = PeerComparison.studentId st.
Proof. revert st. induction cs as [|c cs IH]; intros st; simpl; [done|]. by rewrite IH. Qed.

(** Every ranked student comes from one entry of [Returned.studentAverages], keeps
    its identity and averages, and carries one percentile per canonical
    category, in order. *)
Lemma rankedStudents_In logs p :
  In p (Returned.rankedStudents logs) ->
  exists st, In st (Returned.studentAverages logs)
    /\ PeerComparison.studentId p = PeerComparison.studentId st
    /\ PeerComparison.categoryAverages p = PeerComparison.categoryAverages st
    /\ PeerComparison.percentile p
       = map (fun c => (c, percentileOf (cohortScores (Returned.studentAverages logs) c)
                             (PeerComparison.categoryAverages st !! c))) categories
    /\ PeerComparison.overallPercentile p
       = (let valid := validPercentiles p in
          if (0 <? length valid)%nat
          then Math_round (sum valid / nat2F (length valid))%float else 0%float).
Proof.
  unfold Returned.rankedStudents, rankedStudents. rewrite rankCategory_fold, map_map.
  intros (st & <- & Hst)%in_map_iff. exists st. split; [done|].
  unfold setOverall, validPercentiles.
  cbn [PeerComparison.studentId PeerComparison.categoryAverages
       PeerComparison.percentile PeerComparison.overallPercentile].
  rewrite assign_fold_id, assign_fold_averages, assign_fold_percentile.
  repeat split; try done.
  unfold Returned.studentAverages, studentAverages in Hst. apply in_map_iff in Hst as (e & <- & _).
  rewrite fold_Map_set_fresh; [done|apply NoDup_categories|].
  intros c _. simpl. tauto.
Qed.

End PeerComparison.

(** ** Two facts about binary64 comparison *)

Lemma ltb_zero_leb_refl (x : float) : (0 <? x)%float = true -> (x <=? x)%float = true.
Proof.
  rewrite FloatAxioms.ltb_spec, FloatAxioms.leb_spec.
  change (Prim2SF 0) with (S754_zero false).
  unfold SFltb, SFleb.
  destruct (Prim2SF x) as [s|s| |s m e]; simpl; try done.
  - by destruct s.
  - destruct s; [done|]. intros _.
    by rewrite Z.compare_refl, Pos.compare_cont_refl.
Qed.

Lemma ltb_irrefl_zero : (0 <? 0)%float = false.
Proof. reflexivity. Qed.


(** ** The sign of rounded quotients

    The operations on binary64 never turn non-negative operands into a NaN
    or a negative result; the facts are read off the specification of the
    primitive floats. *)

Lemma shr_1_nonneg mrs : 0 <= shr_m mrs -> 0 <= shr_m (shr_1 mrs).
Proof.
  destruct mrs as [m r s]. simpl. destruct m as [|p|p]; [done| |lia].
  intros _. destruct p; simpl; lia.
Qed.

Lemma iter_pos_shr_1_nonneg p mrs :
  0 <= shr_m mrs -> 0 <= shr_m (SpecFloat.iter_pos shr_1 p mrs).
Proof.
  revert mrs. induction p as [p IH|p IH|]; intros mrs Hm; simpl.
  - apply IH, IH. by apply shr_1_nonneg.
  - by apply IH, IH.
  - by apply shr_1_nonneg.
Qed.

Lemma shr_fexp_nonneg m e l :
  0 <= m -> 0 <= shr_m (shr_fexp prec emax m e l).1.
Proof.
  intros Hm. unfold shr_fexp, shr.
  assert (Hrec : 0 <= shr_m (shr_record_of_loc m l)).
  { destruct l as [|[]]; simpl; done. }
  destruct (fexp prec emax (Zdigits2 m + e) - e); simpl; try done.
  by apply iter_pos_shr_1_nonneg.
Qed.

Lemma round_nearest_even_nonneg m l : 0 <= m -> 0 <= round_nearest_even m l.
Proof.
  intros Hm. unfold round_nearest_even. destruct l as [|[]]; try lia.
  destruct (Z.even m); lia.
Qed.

Lemma binary_round_aux_signed sx mx ex lx :
  0 <= mx -> signedSF sx (binary_round_aux prec emax sx mx ex lx).
Proof.
  intros Hm. unfold binary_round_aux.
  pose proof (shr_fexp_nonneg mx ex lx Hm) as H1.
  destruct (shr_fexp prec emax mx ex lx) as [mrs' e'] eqn:E1. simpl in H1.
  pose proof (shr_fexp_nonneg (round_nearest_even (shr_m mrs') (loc_of_shr_record mrs')) e'
                loc_Exact (round_nearest_even_nonneg _ _ H1)) as H2.
  destruct (shr_fexp prec emax _ e' loc_Exact) as [mrs'' e''] eqn:E2. simpl in H2.
  destruct (shr_m mrs'') as [|p|p]; simpl; [done| |lia].
  by destruct (e'' <=? emax - prec).
Qed.

Lemma SFdiv_signed x y :
  positiveSF x -> positiveSF y -> signedSF false (SFdiv prec emax x y).
Proof.
  destruct x as [| | |[] mx ex]; try done. destruct y as [| | |[] my ey]; try done.
  intros _ _. unfold SFdiv.
  destruct (SFdiv_core_binary prec emax (Z.pos mx) ex (Z.pos my) ey) as [[mz ez] lz] eqn:E.
  apply binary_round_aux_signed.
  unfold SFdiv_core_binary in E.
  set (s := _ - _ - _) in E.
  set (m' := match s with Z0 => _ | Zpos _ => _ | Zneg _ => _ end) in E.
  assert (Hm' : 0 <= m').
  { unfold m'. destruct s; [lia| |lia]. rewrite Z.shiftl_mul_pow2 by lia. lia. }
  destruct (Z.div_eucl m' (Z.pos my)) as [q r] eqn:Ediv.
  injection E as <- _ _.
  pose proof (Z.div_eucl_eq m' (Z.pos my) ltac:(lia)) as Heq.
  pose proof (Z.mod_pos_bound m' (Z.pos my) ltac:(lia)) as Hr.
  unfold Z.modulo in Hr. rewrite Ediv in Heq, Hr. nia.
Qed.

Lemma SFmul_signed x y :
  signedSF false x -> positiveSF y -> signedSF false (SFmul prec emax x y).
Proof.
  destruct y as [| | |[] my ey]; try done. intros Hx _.
  destruct x as [sx|sx| |sx mx ex]; simpl in *; subst; try done.
  apply binary_round_aux_signed. lia.
Qed.

Lemma digits2_pos_lt p : Z.pos p < 2 ^ Z.pos (digits2_pos p).
Proof.
  induction p as [p IH|p IH|]; simpl; [| |done];
    rewrite Pos2Z.inj_succ, Z.pow_succ_r by lia; lia.
Qed.

Lemma digits2_pos_le p n : 0 <= n -> Z.pos p < 2 ^ n -> Z.pos (digits2_pos p) <= n.
Proof.
  revert n. induction p as [p IH|p IH|]; intros n Hn Hlt; simpl.
  - destruct (Z.eq_dec n 0) as [->|Hne]; [simpl in Hlt; lia|].
    rewrite Pos2Z.inj_succ. specialize (IH (n - 1) ltac:(lia)).
    replace n with (Z.succ (n - 1)) in Hlt by lia. rewrite Z.pow_succ_r in Hlt by lia. lia.
  - destruct (Z.eq_dec n 0) as [->|Hne]; [simpl in Hlt; lia|].
    rewrite Pos2Z.inj_succ. specialize (IH (n - 1) ltac:(lia)).
    replace n with (Z.succ (n - 1)) in Hlt by lia. rewrite Z.pow_succ_r in Hlt by lia. lia.
  - destruct (Z.eq_dec n 0) as [->|Hne]; [simpl in Hlt; lia|]. lia.
Qed.

Lemma digits2_pos_iter p k :
  Z.pos (digits2_pos (Pos.iter xO p k)) = Z.pos (digits2_pos p) + Z.pos k.
Proof.
  induction k as [|k IH] using Pos.peano_ind; simpl.
  - lia.
  - rewrite Pos.iter_succ. simpl. lia.
Qed.

Lemma binary_round_aux_exact sx mz ez :
  Z.pos (digits2_pos mz) = 53 -> -1074 <= ez <= 971 ->
  binary_round_aux prec emax sx (Z.pos mz) ez loc_Exact = S754_finite sx mz ez.
Proof.
  intros Hd He. unfold binary_round_aux.
  assert (Hshr : forall l, shr_fexp prec emax (Z.pos mz) ez l
                           = (shr_record_of_loc (Z.pos mz) l, ez)).
  { intros l. unfold shr_fexp. simpl Zdigits2. rewrite Hd.
    unfold fexp, emin, prec, emax.
    replace (Z.max (53 + ez - 53) (3 - 1024 - 53) - ez) with 0 by lia. done. }
  rewrite Hshr. simpl. rewrite Hshr. simpl.
  assert (Hle : (ez <=? emax - prec) = true) by (apply Z.leb_le; unfold emax, prec; lia).
  by rewrite Hle.
Qed.

Lemma Z2F_positive a : 0 < a < 2 ^ 53 -> positiveSF (Prim2SF (Z2F a)).
Proof.
  intros Ha. unfold Z2F.
  assert (Hlt : (a <? 0) = false) by (apply Z.ltb_ge; lia). rewrite Hlt.
  rewrite of_uint63_spec, of_Z_spec.
  assert (H63 : 2 ^ 53 < wB) by (vm_compute; reflexivity).
  rewrite Z.mod_small by lia.
  destruct a as [|p|p]; [lia| |lia]. simpl binary_normalize. unfold binary_round.
  pose proof (digits2_pos_le p 53 ltac:(lia) ltac:(lia)) as Hd.
  unfold shl_align, fexp, emin, prec, emax.
  replace (Z.max (Z.pos (digits2_pos p) + 0 - 53) (3 - 1024 - 53) - 0)
    with (Z.pos (digits2_pos p) - 53) by lia.
  destruct (Z.pos (digits2_pos p) - 53) as [|k|k] eqn:Ek; [| lia |].
  - rewrite binary_round_aux_exact; [done|lia|lia].
  - rewrite binary_round_aux_exact; [done| |lia].
    rewrite digits2_pos_iter. lia.
Qed.

Lemma positiveSF_ltb x : positiveSF (Prim2SF x) -> (0 <? x)%float = true.
Proof.
  rewrite FloatAxioms.ltb_spec. change (Prim2SF 0) with (S754_zero false).
  by destruct (Prim2SF x) as [| | |[] m e].
Qed.

Lemma valid_mantissa x s m e : Prim2SF x = S754_finite s m e -> Z.pos m < 2 ^ 53.
Proof.
  intros Hx. pose proof (Prim2SF_valid x) as Hv. rewrite Hx in Hv.
  simpl in Hv. unfold bounded, canonical_mantissa in Hv.
  apply andb_prop in Hv as [Hc _]. apply Z.eqb_eq in Hc.
  unfold fexp, emin, prec, emax in Hc.
  pose proof (digits2_pos_lt m) as Hlt.
  assert (Hd : Z.pos (digits2_pos m) <= 53) by lia.
  eapply Z.lt_le_trans; [exact Hlt|]. apply Z.pow_le_mono_r; lia.
Qed.

(** [Math.round] of a Number that is neither negative nor NaN is positive
    or +0. *)
Lemma Math_round_sign x :
  signedSF false (Prim2SF x) -> positiveOrZero (Math_round x).
Proof.
  intros Hx. unfold positiveOrZero, Math_round.
  destruct (Prim2SF x) as [s|s| |s m e] eqn:E; simpl in Hx; try done; subst s.
  - right. apply Prim2SF_inj. by rewrite E.
  - left. rewrite FloatAxioms.ltb_spec, E. done.
  - destruct (0 <=? e) eqn:Ee.
    + left. rewrite FloatAxioms.ltb_spec, E. done.
    + apply Z.leb_gt in Ee. cbv zeta.
      set (r := (2 * Z.pos m + 2 ^ (- e)) / 2 ^ (- e + 1)).
      destruct (r =? 0) eqn:Er; [by right|]. left.
      apply Z.eqb_neq in Er. apply positiveSF_ltb, Z2F_positive.
      pose proof (valid_mantissa x false m e E) as Hm.
      assert (Hpow : 2 ^ (- e + 1) = 2 * 2 ^ (- e))
        by (rewrite Z.add_1_r, Z.pow_succ_r; lia).
      assert (Hk : 2 <= 2 ^ (- e)).
      { change 2 with (2 ^ 1) at 1. apply Z.pow_le_mono_r; lia. }
      assert (Hr0 : 0 <= r) by (apply Z.div_pos; lia).
      assert (Hrm : r <= Z.pos m).
      { unfold r. rewrite Hpow. apply Z.div_le_upper_bound; [lia|]. nia. }
      lia.
Qed.

(** ** The order of binary64 values *)

Lemma Pos_compare_cont_Eq m1 m2 : Pos.compare_cont Eq m1 m2 = (m1 ?= m2)%positive.
Proof. reflexivity. Qed.

Ltac sf_order :=
  repeat match goal with
  | s : bool |- _ => destruct s
  end;
  simpl in *; try done;
  repeat match goal with
  | H : context [Z.compare ?a ?b] |- _ => destruct (Z.compare_spec a b); simpl in H; try done
  | |- context [Z.compare ?a ?b] => destruct (Z.compare_spec a b); simpl; try done
  | H : context [Pos.compare_cont Eq ?a ?b] |- _ =>
      rewrite Pos_compare_cont_Eq in H; destruct (Pos.compare_spec a b); simpl in H; try done
  | |- context [Pos.compare_cont Eq ?a ?b] =>
      rewrite Pos_compare_cont_Eq; destruct (Pos.compare_spec a b); simpl; try done
  end; try lia; try congruence.

Lemma SFltb_trans x y z : SFltb x y = true -> SFltb y z = true -> SFltb x z = true.
Proof.
  unfold SFltb. destruct x as [sx|sx| |sx mx ex], y as [sy|sy| |sy my ey], z as [sz|sz| |sz mz ez];
    try done; sf_order.
Qed.

Lemma SFleb_trans x y z : SFleb x y = true -> SFleb y z = true -> SFleb x z = true.
Proof.
  unfold SFleb. destruct x as [sx|sx| |sx mx ex], y as [sy|sy| |sy my ey], z as [sz|sz| |sz mz ez];
    try done; sf_order.
Qed.

Lemma SFltb_leb_trans x y z : SFltb x y = true -> SFleb y z = true -> SFltb x z = true.
Proof.
  unfold SFleb, SFltb. destruct x as [sx|sx| |sx mx ex], y as [sy|sy| |sy my ey], z as [sz|sz| |sz mz ez];
    try done; sf_order.
Qed.

Lemma SFleb_ltb_trans x y z : SFleb x y = true -> SFltb y z = true -> SFltb x z = true.
Proof.
  unfold SFleb, SFltb. destruct x as [sx|sx| |sx mx ex], y as [sy|sy| |sy my ey], z as [sz|sz| |sz mz ez];
    try done; sf_order.
Qed.

Lemma SFltb_leb x y : SFltb x y = true -> SFleb x y = true.
Proof. unfold SFltb, SFleb. by destruct (SFcompare x y) as [[]|]. Qed.

(** Two values that are not NaN are comparable. *)
Lemma SFleb_total x y : x <> S754_nan -> y <> S754_nan -> SFleb x y = negb (SFltb y x).
Proof.
  unfold SFleb, SFltb. destruct x as [sx|sx| |sx mx ex], y as [sy|sy| |sy my ey];
    try done; intros _ _; sf_order.
Qed.

Lemma ltb_trans (x y z : float) : (x <? y)%float = true -> (y <? z)%float = true -> (x <? z)%float = true.
Proof. rewrite !FloatAxioms.ltb_spec. apply SFltb_trans. Qed.
Lemma leb_trans (x y z : float) : (x <=? y)%float = true -> (y <=? z)%float = true -> (x <=? z)%float = true.
Proof. rewrite !FloatAxioms.leb_spec. apply SFleb_trans. Qed.
Lemma ltb_leb_trans (x y z : float) : (x <? y)%float = true -> (y <=? z)%float = true -> (x <? z)%float = true.
Proof. rewrite !FloatAxioms.ltb_spec, FloatAxioms.leb_spec. apply SFltb_leb_trans. Qed.
Lemma leb_ltb_trans (x y z : float) : (x <=? y)%float = true -> (y <? z)%float = true -> (x <? z)%float = true.
Proof. rewrite !FloatAxioms.ltb_spec, FloatAxioms.leb_spec. apply SFleb_ltb_trans. Qed.
Lemma ltb_leb (x y : float) : (x <? y)%float = true -> (x <=? y)%float = true.
Proof. rewrite FloatAxioms.ltb_spec, FloatAxioms.leb_spec. apply SFltb_leb. Qed.

(** ** The sign of a difference *)

Lemma shr_1_half mrs : 0 <= shr_m mrs -> shr_m (shr_1 mrs) = shr_m mrs / 2.
Proof.
  destruct mrs as [m r s]. simpl. destruct m as [|p|p]; [done| |lia].
  intros _. destruct p as [p|p|]; simpl shr_m.
  - rewrite Pos2Z.inj_xI. Z.div_mod_to_equations. lia.
  - rewrite Pos2Z.inj_xO. Z.div_mod_to_equations. lia.
  - done.
Qed.

Lemma iter_pos_shr_1_div p mrs :
  0 <= shr_m mrs -> shr_m (SpecFloat.iter_pos shr_1 p mrs) = shr_m mrs / 2 ^ Z.pos p.
Proof.
  revert mrs. induction p as [p IH|p IH|]; intros mrs Hm; simpl SpecFloat.iter_pos.
  - rewrite IH, IH, shr_1_half by (try apply iter_pos_shr_1_nonneg; by try apply shr_1_nonneg).
    rewrite !Z.div_div by lia. f_equal.
    rewrite Pos2Z.inj_xI, <- !Z.pow_add_r by lia. change 2 with (2 ^ 1) at 1.
    rewrite <- !Z.pow_add_r by lia. f_equal. lia.
  - rewrite IH, IH by (try apply iter_pos_shr_1_nonneg; done).
    rewrite !Z.div_div by lia. f_equal.
    rewrite Pos2Z.inj_xO, <- !Z.pow_add_r by lia. f_equal. lia.
  - rewrite shr_1_half by done. done.
Qed.

Lemma digits2_pos_ge p : 2 ^ (Z.pos (digits2_pos p) - 1) <= Z.pos p.
Proof.
  induction p as [p IH|p IH|]; simpl digits2_pos; [| |done];
    rewrite Pos2Z.inj_succ; replace (Z.succ (Z.pos (digits2_pos p)) - 1)
      with (Z.succ (Z.pos (digits2_pos p) - 1)) by lia;
    rewrite Z.pow_succ_r by lia; lia.
Qed.

(** Rounding a positive mantissa whose exponent is not below the least
    one never reaches zero. *)
Lemma shr_fexp_pos m e l :
  0 < m -> -1074 <= e ->
  0 < shr_m (shr_fexp prec emax m e l).1 /\ -1074 <= (shr_fexp prec emax m e l).2.
Proof.
  intros Hm He. unfold shr_fexp, shr.
  assert (Hrec : shr_m (shr_record_of_loc m l) = m) by (destruct l as [|[]]; done).
  destruct m as [|p|p]; [lia| |lia]. simpl Zdigits2.
  destruct (fexp prec emax (Z.pos (digits2_pos p) + e) - e) as [|n|n] eqn:En;
    cbn [fst snd]; [by rewrite Hrec|
                    |by rewrite Hrec].
  split; [|lia].
  rewrite iter_pos_shr_1_div by (rewrite Hrec; lia). rewrite Hrec.
  apply Z.div_str_pos. split; [lia|].
  pose proof (digits2_pos_ge p) as Hge.
  eapply Z.le_trans; [|exact Hge]. apply Z.pow_le_mono_r; [lia|].
  unfold fexp, SpecFloat.emin, prec, emax in *. lia.
Qed.

Lemma round_nearest_even_pos m l : 0 < m -> 0 < round_nearest_even m l.
Proof.
  intros Hm. unfold round_nearest_even. destruct l as [|[]]; try lia.
  destruct (Z.even m); lia.
Qed.

Lemma binary_round_aux_nonzero sx mx ex lx :
  0 < mx -> -1074 <= ex ->
  match binary_round_aux prec emax sx mx ex lx with
  | S754_finite s _ _ | S754_infinity s => s = sx
  | _ => False
  end.
Proof.
  intros Hm He. unfold binary_round_aux.
  destruct (shr_fexp_pos mx ex lx Hm He) as [H1 H1e].
  destruct (shr_fexp prec emax mx ex lx) as [mrs' e'] eqn:E1. cbn [fst snd] in H1, H1e.
  destruct (shr_fexp_pos (round_nearest_even (shr_m mrs') (loc_of_shr_record mrs')) e'
              loc_Exact (round_nearest_even_pos _ _ H1) H1e) as [H2 _].
  destruct (shr_fexp prec emax _ e' loc_Exact) as [mrs'' e''] eqn:E2. cbn [fst snd] in H2.
  destruct (shr_m mrs'') as [|p|p]; [lia| |lia].
  by destruct (e'' <=? emax - prec).
Qed.

Lemma shl_align_value m e e' :
  e' <= e -> Z.pos (shl_align m e e').1 = Z.pos m * 2 ^ (e - e').
Proof.
  intros Hle. unfold shl_align. destruct (e' - e) as [|d|d] eqn:Ed; cbn [fst].
  - replace (e - e') with 0 by lia. lia.
  - lia.
  - replace (e - e') with (Z.pos d) by lia.
    clear. induction d as [|d IH] using Pos.peano_ind.
    + simpl. lia.
    + rewrite Pos.iter_succ, Pos2Z.inj_xO, IH, Pos2Z.inj_succ, Z.pow_succ_r by lia. lia.
Qed.

Lemma shl_align_exp m e e' : -1074 <= e -> -1074 <= e' ->
  -1074 <= (shl_align m e e').2.
Proof. intros. unfold shl_align. by destruct (e' - e). Qed.

Lemma binary_round_nonzero sx m e :
  -1074 <= e ->
  match binary_round prec emax sx m e with
  | S754_finite s _ _ | S754_infinity s => s = sx
  | _ => False
  end.
Proof.
  intros He. unfold binary_round.
  pose proof (shl_align_exp m e (fexp prec emax (Z.pos (digits2_pos m) + e)) He
                ltac:(unfold fexp, SpecFloat.emin, prec, emax; lia)) as He'.
  destruct (shl_align m e _) as [mz ez]. cbn [snd] in He'.
  by apply binary_round_aux_nonzero.
Qed.

(** A valid finite value: its exponent is not below the least one, its
    mantissa has 53 digits unless the exponent is the least one. *)
Lemma bounded_canonical m e :
  bounded prec emax m e = true ->
  -1074 <= e /\ Z.pos m < 2 ^ 53
  /\ (-1074 < e -> 2 ^ 52 <= Z.pos m).
Proof.
  unfold bounded, canonical_mantissa. intros [Hc _]%andb_prop. apply Z.eqb_eq in Hc.
  pose proof (digits2_pos_lt m) as Hlt. pose proof (digits2_pos_ge m) as Hge.
  unfold fexp, SpecFloat.emin, prec, emax in *.
  split; [lia|]. split.
  - eapply Z.lt_le_trans; [exact Hlt|]. apply Z.pow_le_mono_r; lia.
  - intros He. assert (Hd : Z.pos (digits2_pos m) = 53) by lia.
    rewrite Hd in Hge. exact Hge.
Qed.

(** The magnitudes of two valid finite values compare as their
    (exponent, mantissa) pairs do. *)
Lemma magnitude_compare m1 e1 m2 e2 :
  bounded prec emax m1 e1 = true -> bounded prec emax m2 e2 = true ->
  let ez := Z.min e1 e2 in
  (Z.pos (shl_align m1 e1 ez).1 ?= Z.pos (shl_align m2 e2 ez).1)
  = match e1 ?= e2 with
    | Lt => Lt | Gt => Gt | Eq => Pos.compare_cont Eq m1 m2
    end.
Proof.
  intros (He1 & Hm1 & Hn1)%bounded_canonical (He2 & Hm2 & Hn2)%bounded_canonical ez.
  rewrite !shl_align_value by (unfold ez; lia).
  destruct (Z.compare_spec e1 e2) as [->|Hlt|Hgt].
  - unfold ez. rewrite Z.min_id, Z.sub_diag. simpl. rewrite !Pos.mul_1_r. done.
  - unfold ez. rewrite Z.min_l by lia. rewrite Z.sub_diag, Z.mul_1_r.
    apply Z.compare_lt_iff.
    assert (2 <= 2 ^ (e2 - e1)).
    { change 2 with (2 ^ 1) at 1. apply Z.pow_le_mono_r; lia. }
    specialize (Hn2 ltac:(lia)). nia.
  - unfold ez. rewrite Z.min_r by lia. rewrite Z.sub_diag, Z.mul_1_r.
    apply Z.compare_gt_iff.
    assert (2 <= 2 ^ (e1 - e2)).
    { change 2 with (2 ^ 1) at 1. apply Z.pow_le_mono_r; lia. }
    specialize (Hn1 ltac:(lia)). nia.
Qed.

Lemma binary_normalize_sign M e :
  -1074 <= e ->
  SFltb (S754_zero false) (binary_normalize prec emax M e false) = (0 <? M).
Proof.
  intros He. destruct M as [|p|p]; simpl binary_normalize.
  - done.
  - pose proof (binary_round_nonzero false p e He) as Hr.
    destruct (binary_round prec emax false p e) as [| | |]; try done; by subst.
  - pose proof (binary_round_nonzero true p e He) as Hr.
    destruct (binary_round prec emax true p e) as [| | |]; try done; by subst.
Qed.

Lemma SFsub_sign x y :
  valid_binary x = true -> valid_binary y = true ->
  SFltb (S754_zero false) (SFsub prec emax y x) = SFltb x y.
Proof.
  intros Hx Hy.
  destruct x as [sx|sx| |sx mx ex], y as [sy|sy| |sy my ey];
    try (by repeat match goal with s : bool |- _ => destruct s end).
  simpl in Hx, Hy. unfold SFsub.
  pose proof (bounded_canonical _ _ Hx) as (Hex & _).
  pose proof (bounded_canonical _ _ Hy) as (Hey & _).
  rewrite binary_normalize_sign by lia.
  pose proof (magnitude_compare mx ex my ey Hx Hy) as Hcmp. cbv zeta in Hcmp.
  unfold SFltb, SFcompare. rewrite (Z.min_comm ey ex).
  set (a := Z.pos (shl_align mx ex (Z.min ex ey)).1) in *.
  set (b := Z.pos (shl_align my ey (Z.min ex ey)).1) in *.
  assert (Ha : 0 < a) by (unfold a; lia). assert (Hb : 0 < b) by (unfold b; lia).
  clearbody a b.
  assert (Hopp : match ex ?= ey with
                 | Eq => CompOpp (Pos.compare_cont Eq mx my) | Lt => Gt | Gt => Lt
                 end = CompOpp (a ?= b)).
  { rewrite Hcmp. by destruct (ex ?= ey). }
  destruct sx, sy; simpl cond_Zopp.
  - rewrite Hopp.
    destruct (Z.compare_spec a b); simpl; [apply Z.ltb_ge|apply Z.ltb_ge|apply Z.ltb_lt]; lia.
  - apply Z.ltb_lt. lia.
  - apply Z.ltb_ge. lia.
  - rewrite <- Hcmp.
    destruct (Z.compare_spec a b); simpl; [apply Z.ltb_ge|apply Z.ltb_lt|apply Z.ltb_ge]; lia.
Qed.

(** [b - a > 0] exactly when [a < b], for all Numbers (NaN included). *)
Lemma sub_pos_ltb (a b : float) : (0 <? b - a)%float = (a <? b)%float.
Proof.
  rewrite !FloatAxioms.ltb_spec, FloatAxioms.sub_spec.
  change (Prim2SF 0) with (S754_zero false).
  apply SFsub_sign; apply Prim2SF_valid.
Qed.

Lemma ltb_not_nan (x y : float) :
  (x <? y)%float = true -> Prim2SF x <> S754_nan /\ Prim2SF y <> S754_nan.
Proof.
  rewrite FloatAxioms.ltb_spec. unfold SFltb.
  destruct (Prim2SF x), (Prim2SF y); done.
Qed.

Lemma leb_total (x y : float) :
  Prim2SF x <> S754_nan -> Prim2SF y <> S754_nan ->
  (x <=? y)%float = negb (y <? x)%float.
Proof. rewrite FloatAxioms.leb_spec, FloatAxioms.ltb_spec. apply SFleb_total. Qed.

Lemma ltb_irrefl (x : float) : (x <? x)%float = false.
Proof.
  rewrite FloatAxioms.ltb_spec. unfold SFltb.
  destruct (Prim2SF x) as [[]|[]| |[] m e]; simpl; try done;
    by rewrite Z.compare_refl, Pos.compare_cont_refl.
Qed.

(** ** Sorting with a consistent comparator *)

Section StableSort.
Context {A : Type} (cmp : A -> A -> float).

(** [x] is placed after [y]. *)
Let after (x y : A) : bool := (0 <? cmp x y)%float.



(** The members of a class that the comparator does not order keep their
    relative order. *)
Lemma Array_sort_stable (c : A -> bool) l :
  (forall x y, c x = true -> c y = true -> after x y = false) ->
  List.filter c (Array_sort cmp l) = List.filter c l.
Proof.
  intros Hclass. unfold Array_sort.
  induction l as [|x l IH]; simpl; [done|]. rewrite <- IH.
  generalize (fold_right (sort_insert cmp) [] l) as sorted. clear IH.
  intros sorted. induction sorted as [|y sorted IH]; simpl; [done|].
  destruct (0 <? cmp x y)%float eqn:E; simpl.
  - rewrite IH. destruct (c x) eqn:Ex, (c y) eqn:Ey; try done.
    specialize (Hclass x y Ex Ey). unfold after in Hclass. congruence.
  - done.
Qed.

(** On elements that the comparator orders consistently, no element of the
    result is placed before one it must follow. *)
Lemma Array_sort_sorted (P : A -> Prop) l :
  (forall x y z, P x -> P y -> P z ->
     after x y = false -> after y z = false -> after x z = false) ->
  (forall x y, P x -> P y -> after x y = true -> after y x = false) ->
  Forall P l ->
  StronglySorted (fun x y => after x y = false) (Array_sort cmp l).
Proof.
  intros Htrans Hasym Hall. unfold Array_sort.
  induction Hall as [|x l Hx Hl IH]; simpl; [constructor|].
  assert (HP : Forall P (fold_right (sort_insert cmp) [] l)).
  { apply Forall_forall. intros y Hy. apply list_elem_of_In, Array_sort_In in Hy.
    rewrite Forall_forall in Hl. by apply Hl, list_elem_of_In. }
  revert IH HP. generalize (fold_right (sort_insert cmp) [] l) as sorted.
  intros sorted Hsorted HP.
  induction Hsorted as [|y sorted Hs IH Hy]; simpl.
  - repeat constructor.
  - apply Forall_cons in HP as [HPy HP].
    destruct (0 <? cmp x y)%float eqn:E.
    + constructor; [by apply IH|].
      assert (Hin : forall z, In z (sort_insert cmp x sorted) -> z = x \/ In z sorted).
      { intros z Hz.
        apply (Permutation_in _ (sort_insert_perm cmp x sorted)) in Hz.
        destruct Hz as [<-|Hz]; auto. }
      apply Forall_forall. intros z Hz%list_elem_of_In%Hin.
      destruct Hz as [->|Hz].
      * by apply Hasym.
      * rewrite Forall_forall in Hy. by apply Hy, list_elem_of_In.
    + constructor; [by constructor|].
      constructor; [done|].
      apply Forall_forall. intros z Hz.
      rewrite Forall_forall in Hy, HP.
      apply (Htrans x y z); auto.
Qed.

End StableSort.

(** ** Student identifiers are unique *)

Section Invariants.
Context {S A : Type} (P : S -> Prop) (step : S -> A -> S).

Lemma fold_left_invariant l s :
  P s -> (forall s x, P s -> P (step s x)) -> P (fold_left step l s).
Proof.
  intros Hs Hstep. revert s Hs.
  induction l as [|x l IH]; intros s Hs; simpl; [done|].
  apply IH, Hstep, Hs.
Qed.
End Invariants.

Lemma Map_init_NoDup {V} k (v : V) (m : JSMap V) :
  NoDup (Map_keys m) -> NoDup (Map_keys (if Map_has k m then m else Map_set k v m)).
Proof.
  intros Hnd. destruct (Map_has k m) eqn:E; [done|].
  apply Map_has_false in E. rewrite Map_set_absent by done.
  unfold Map_keys. rewrite map_app. simpl.
  apply NoDup_app. split_and!; [done| |apply NoDup_singleton].
  intros k' Hin ->%list_elem_of_singleton. by apply E, list_elem_of_In.
Qed.

Lemma studentMap_NoDup logs : NoDup (Map_keys (Returned.studentMap logs)).
Proof.
  unfold Returned.studentMap. apply fold_left_invariant; [constructor|].
  intros st log Hnd. unfold Returned.collectLog.
  set (st' := if Map_has _ st then st else _).
  assert (Hst' : NoDup (Map_keys st')) by by apply Map_init_NoDup.
  destruct (ObservationLog.categories log) as [cats|]; [|done].
  apply fold_left_invariant; [done|].
  intros s cs Hs. unfold Returned.pushStudentScore. by rewrite Map_update_keys.
Qed.

Lemma studentAverages_ids logs :
  map PeerComparison.studentId (Returned.studentAverages logs) = Map_keys (Returned.studentMap logs).
Proof. unfold Returned.studentAverages, studentAverages. rewrite map_map. done. Qed.

Lemma omap_all_None {A B} (f : A -> option B) (l : list A) :
  (forall x, In x l -> f x = None) -> omap f l = [].
Proof.
  induction l as [|x l IH]; intros Hf; [done|].
  cbn [omap list_omap]. rewrite Hf by (by left).
  apply IH. intros y Hy. apply Hf. by right.
Qed.

(** With unique identifiers, a cohort in which one student alone has a
    positive average is the one-element list of that average. *)
Lemma cohort_single (students : list PeerComparison.t) st c s :
  NoDup (map PeerComparison.studentId students) ->
  In st students ->
  PeerComparison.categoryAverages st !! c = Some s ->
  (0 <? s)%float = true ->
  (forall q, In q students ->
     PeerComparison.studentId q <> PeerComparison.studentId st ->
     PeerComparison.categoryAverages q !! c = None) ->
  cohortScores students c = [s].
Proof.
  intros Hnd Hin Havg Hpos Hothers. unfold cohortScores.
  set (f := fun q : PeerComparison.t => _).
  assert (Hone : omap f students = [s]); [|by rewrite Hone].
  assert (Hf : f st = Some s) by (unfold f; by rewrite Havg; simpl; rewrite Hpos).
  assert (Hnone : forall q, In q students ->
            PeerComparison.studentId q <> PeerComparison.studentId st -> f q = None).
  { intros q Hq Hne. unfold f. by rewrite (Hothers q Hq Hne). }
  clear Hothers Havg Hpos. clearbody f.
  induction students as [|x l IH]; [done|].
  cbn [map] in Hnd. apply NoDup_cons_1_1 in Hnd as Hx. apply NoDup_cons_1_2 in Hnd.
  cbn [omap list_omap].
  destruct (decide (PeerComparison.studentId x = PeerComparison.studentId st)) as [Heq|Hne].
  - assert (x = st) as ->.
    { destruct Hin as [->|Hin]; [done|]. exfalso. apply Hx.
      rewrite Heq. apply list_elem_of_In. by apply in_map. }
    rewrite Hf.
    rewrite (omap_all_None f l); [done|].
    intros q Hq. apply Hnone; [by right|].
    intros Hid. apply Hx. rewrite <- Hid. apply list_elem_of_In. by apply in_map.
  - rewrite (Hnone x) by (by left || done).
    apply IH; [done| |].
    + destruct Hin as [->|Hin]; [done|done].
    + intros q Hq. apply Hnone. by right.
Qed.

Lemma rankedStudents_map logs :
  Returned.rankedStudents logs = map (ranked logs) (Returned.studentAverages logs).
Proof. unfold Returned.rankedStudents, rankedStudents. by rewrite rankCategory_fold, map_map. Qed.

Lemma ranked_id logs st :
  PeerComparison.studentId (ranked logs st) = PeerComparison.studentId st.
Proof. unfold ranked, setOverall. cbn [PeerComparison.studentId]. apply assign_fold_id. Qed.

Lemma ranked_averages logs st :
  PeerComparison.categoryAverages (ranked logs st) = PeerComparison.categoryAverages st.
Proof.
  unfold ranked, setOverall. cbn [PeerComparison.categoryAverages].
  apply assign_fold_averages.
Qed.

Lemma calculatePeerComparison_In logs p :
  In p (Returned.calculatePeerComparison logs) <-> In p (Returned.rankedStudents logs).
Proof. apply Array_sort_In. Qed.

Lemma Map_get_table {V} (g : string -> V) cs c :
  In c cs -> Map_get c (map (fun c => (c, g c)) cs) = Some (g c).
Proof.
  induction cs as [|c' cs IH]; simpl; [done|].
  intros [->|Hin]; [by rewrite decide_True|].
  destruct (decide (c' = c)) as [->|Hne]; [done|by apply IH].
Qed.

Lemma findIndex_from_found {A} (p : A -> bool) (l : list A) i :
  (exists x, In x l /\ p x = true) ->
  i <= findIndex_from p i l < i + Z.of_nat (length l).
Proof.
  revert i. induction l as [|y l IH]; intros i (x & Hin & Hp); [done|].
  simpl findIndex_from. destruct (p y) eqn:Hy.
  - simpl length. lia.
  - destruct Hin as [->|Hin]; [congruence|].
    specialize (IH (i + 1) (ex_intro _ x (conj Hin Hp))). simpl length. lia.
Qed.

(** A student with a positive average is a member of the cohort list. *)
Lemma cohortScores_member students st c s :
  In st students ->
  PeerComparison.categoryAverages st !! c = Some s ->
  (0 <? s)%float = true ->
  In s (cohortScores students c).
Proof.
  intros Hin Havg Hpos. unfold cohortScores. apply Array_sort_In.
  apply list_elem_of_In, list_elem_of_omap. exists st. split.
  - by apply list_elem_of_In.
  - rewrite Havg. simpl. by rewrite Hpos.
Qed.

(** *** The cohort list is in rising order *)

Lemma Permutation_filter {A} (f : A -> bool) (l l' : list A) :
  Permutation l l' -> Permutation (List.filter f l) (List.filter f l').
Proof.
  induction 1 as [|x l l' _ IH|x y l|l l' l'' _ IH _ IH']; simpl.
  - done.
  - destruct (f x); [by constructor|done].
  - destruct (f x), (f y); try done. apply perm_swap.
  - by etransitivity.
Qed.

Lemma Permutation_omap {A B} (f : A -> option B) (l l' : list A) :
  Permutation l l' -> Permutation (omap f l) (omap f l').
Proof.
  induction 1 as [|x l l' _ IH|x y l|l l' l'' _ IH _ IH']; cbn [omap list_omap].
  - done.
  - destruct (f x); [by constructor|done].
  - destruct (f x), (f y); try done. apply perm_swap.
  - by etransitivity.
Qed.

Lemma StronglySorted_weaken {A} (R R' : A -> A -> Prop) (l : list A) :
  (forall x y, In x l -> In y l -> R x y -> R' x y) ->
  StronglySorted R l -> StronglySorted R' l.
Proof.
  intros HR Hs. induction Hs as [|x l Hs IH Hx]; constructor.
  - apply IH. intros y z Hy Hz. apply HR; by right.
  - apply Forall_forall. intros y Hy. rewrite Forall_forall in Hx.
    apply HR; [by left|right; by apply list_elem_of_In|by apply Hx].
Qed.

Lemma filter_none {A} (f : A -> bool) (l : list A) :
  (forall x, In x l -> f x = false) -> List.filter f l = [].
Proof.
  induction l as [|x l IH]; intros Hf; simpl; [done|].
  rewrite Hf by (by left). apply IH. intros y Hy. apply Hf. by right.
Qed.

Lemma cohortScores_positive students c :
  Forall (fun x => (0 <? x)%float = true) (cohortScores students c).
Proof.
  apply Forall_forall. intros x Hx%list_elem_of_In.
  unfold cohortScores in Hx. apply Array_sort_In in Hx.
  apply list_elem_of_In, list_elem_of_omap in Hx as (st & _ & Hst).
  unfold positive in Hst.
  destruct (PeerComparison.categoryAverages st !! c) as [y|]; [|done].
  destruct (0 <? y)%float eqn:E; [|done]. by injection Hst as <-.
Qed.

Lemma cohortScores_sorted students c :
  StronglySorted (fun x y => (x <=? y)%float = true) (cohortScores students c).
Proof.
  pose proof (cohortScores_positive students c) as Hpos.
  unfold cohortScores in *.
  set (l := omap _ students) in *. clearbody l.
  assert (Hl : Forall (fun x => (0 <? x)%float = true) l).
  { apply Forall_forall. intros x Hx. rewrite Forall_forall in Hpos.
    apply Hpos, list_elem_of_In, Array_sort_In. by apply list_elem_of_In. }
  assert (Hs : StronglySorted (fun x y => (0 <? x - y)%float = false)
                 (Array_sort (fun a b => (a - b)%float) l)).
  { apply (Array_sort_sorted _ (fun x => (0 <? x)%float = true)); [| |done].
    - intros x y z [_ Hx]%ltb_not_nan [_ Hy]%ltb_not_nan [_ Hz]%ltb_not_nan.
      rewrite !sub_pos_ltb. intros Hxy Hyz.
      assert (Hle : (x <=? z)%float = true).
      { apply (leb_trans x y z); rewrite leb_total by done; by rewrite ?Hxy, ?Hyz. }
      rewrite leb_total in Hle by done. by destruct (z <? x)%float.
    - intros x y _ _. rewrite !sub_pos_ltb. intros Hyx.
      destruct (x <? y)%float eqn:E; [|done].
      pose proof (ltb_trans _ _ _ Hyx E) as Hyy. by rewrite ltb_irrefl in Hyy. }
  eapply StronglySorted_weaken; [|exact Hs].
  intros x y Hx%list_elem_of_In Hy%list_elem_of_In. cbv beta.
  rewrite sub_pos_ltb. intros Hxy.
  rewrite Forall_forall in Hpos.
  apply Hpos, ltb_not_nan in Hx as [_ Hx]. apply Hpos, ltb_not_nan in Hy as [_ Hy].
  rewrite leb_total by done. by rewrite Hxy.
Qed.

(** In a rising list the first element [>= s] comes after exactly the
    elements below [s]. *)
Lemma findIndex_sorted (l : list float) (s : float) i :
  StronglySorted (fun x y => (x <=? y)%float = true) l ->
  Forall (fun x => Prim2SF x <> S754_nan) l -> Prim2SF s <> S754_nan ->
  (exists x, In x l /\ (s <=? x)%float = true) ->
  findIndex_from (fun x => (s <=? x)%float) i l
  = i + Z.of_nat (length (List.filter (fun x => (x <? s)%float) l)).
Proof.
  intros Hs Hl Hns. revert i.
  induction Hs as [|y l Hs IH Hy]; intros i (x & Hin & Hx); [done|].
  apply Forall_cons in Hl as [Hny Hl]. simpl.
  destruct (s <=? y)%float eqn:E.
  - assert (Hy' : (y <? s)%float = false).
    { rewrite leb_total in E by done. by apply negb_true_iff in E. }
    rewrite Hy'.
    assert (Hnone : List.filter (fun x => (x <? s)%float) l = []).
    { apply filter_none. intros z Hz.
      rewrite Forall_forall in Hy, Hl.
      assert (Hle : (s <=? z)%float = true)
        by (apply (leb_trans s y z); [done|by apply Hy, list_elem_of_In]).
      rewrite leb_total in Hle by (done || by apply Hl, list_elem_of_In).
      by apply negb_true_iff in Hle. }
    rewrite Hnone. simpl. lia.
  - assert (Hy' : (y <? s)%float = true).
    { rewrite leb_total in E by done. by apply negb_false_iff in E. }
    rewrite Hy'. simpl length.
    destruct Hin as [->|Hin]; [congruence|].
    rewrite IH by (done || by exists x). lia.
Qed.

(** The cohort list, seen from the output: it holds the averages of the
    students that have a positive one. *)
Lemma cohortScores_output logs c :
  Permutation (cohortScores (Returned.studentAverages logs) c)
    (omap (fun q => PeerComparison.categoryAverages q !! c)
       (List.filter (fun q => positive (PeerComparison.categoryAverages q !! c))
          (Returned.calculatePeerComparison logs))).
Proof.
  set (f := fun q : PeerComparison.t =>
              let score := PeerComparison.categoryAverages q !! c in
              if positive score then score else None).
  assert (Homap : forall l : list PeerComparison.t,
            omap (fun q => PeerComparison.categoryAverages q !! c)
              (List.filter (fun q => positive (PeerComparison.categoryAverages q !! c)) l)
            = omap f l).
  { induction l as [|q l IH]; [done|]. simpl List.filter. cbn [omap list_omap].
    unfold f at 1. cbv zeta.
    destruct (positive (PeerComparison.categoryAverages q !! c)) eqn:E.
    - cbn [omap list_omap]. rewrite IH.
      by destruct (PeerComparison.categoryAverages q !! c).
    - by rewrite IH. }
  rewrite Homap. unfold cohortScores. fold f.
  rewrite (Array_sort_perm _ (omap f (Returned.studentAverages logs))).
  unfold Returned.calculatePeerComparison.
  rewrite (Permutation_omap f _ _ (Array_sort_perm _ _)).
  rewrite rankedStudents_map.
  assert (Heq : omap f (map (ranked logs) (Returned.studentAverages logs))
                = omap f (Returned.studentAverages logs)); [|by rewrite Heq].
  assert (Hf : forall st, f (ranked logs st) = f st)
    by (intros st; unfold f; by rewrite ranked_averages).
  induction (Returned.studentAverages logs) as [|st l IH]; [done|].
  cbn [map omap list_omap]. by rewrite Hf, IH.
Qed.

Lemma omap_filter_length {A B} (f : A -> option B) (g : B -> bool) (l : list A) :
  length (List.filter g (omap f l))
  = length (List.filter (fun x => match f x with Some y => g y | None => false end) l).
Proof.
  induction l as [|x l IH]; [done|]. cbn [omap list_omap]. simpl List.filter.
  destruct (f x) as [y|]; [|done]. simpl List.filter.
  destruct (g y); simpl; by rewrite IH.
Qed.

Lemma omap_total_length {A B} (f : A -> option B) (l : list A) :
  (forall x, In x l -> f x <> None) -> length (omap f l) = length l.
Proof.
  induction l as [|x l IH]; intros Hf; [done|]. cbn [omap list_omap].
  destruct (f x) eqn:E; [|by destruct (Hf x (or_introl eq_refl))].
  simpl. rewrite IH; [done|]. intros y Hy. apply Hf. by right.
Qed.

(** C4: for a student of the output with a positive average [s] in a
    canonical category [c], the percentile for [c] is
    [round((rank + 1) / cohortSize * 100)], where the cohort list holds the
    positive averages for [c] of all the students of the output in rising
    order and [rank] is the index of its first element [>= s], which is
    the number of students with a positive average below [s].  Hence a
    student with the same average gets the same percentile (the one of the
    first member of the tie group), and a student who alone has data for
    [c] gets 100. *)
Theorem percentile_rank (logs : list ObservationLog.t) (out : list PeerComparison.t)
    (p : PeerComparison.t) (c : string) (s : float) :
  calculatePeerComparison logs = Normal out ->
  In p out ->
  In c categories ->
  PeerComparison.categoryAverages p !! c = Some s ->
  (0 <? s)%float = true ->
  let scored :=
    List.filter (fun q => positive (PeerComparison.categoryAverages q !! c)) out in
  let below :=
    List.filter (fun q => match PeerComparison.categoryAverages q !! c with
                          | Some x => (x <? s)%float
                          | None => false
                          end) scored in
  exists cohort,
    Permutation cohort (omap (fun q => PeerComparison.categoryAverages q !! c) scored)
    /\ StronglySorted (fun x y => (x <=? y)%float = true) cohort
    /\ length cohort = length scored
    /\ let rank := Array_findIndex (fun x => (s <=? x)%float) cohort in
       Map_get c (PeerComparison.percentile p)
         = Some (Math_round (Z2F (rank + 1) / nat2F (length cohort) * 100)%float)
       /\ 0 <= rank < Z.of_nat (length cohort)
       /\ rank = Z.of_nat (length below)
       /\ (forall q, In q out ->
             PeerComparison.categoryAverages q !! c = Some s ->
             Map_get c (PeerComparison.percentile q)
             = Map_get c (PeerComparison.percentile p))
       /\ ((forall q, In q out ->
              PeerComparison.studentId q <> PeerComparison.studentId p ->
              PeerComparison.categoryAverages q !! c = None) ->
           Map_get c (PeerComparison.percentile p) = Some 100%float).
Proof.
  intros Hout Hp Hc Havg Hpos scored below.
  apply calculatePeerComparison_returns in Hout. subst out.
  set (cohort := cohortScores (Returned.studentAverages logs) c).
  set (rank := Array_findIndex (fun x => (s <=? x)%float) cohort).
  pose proof (cohortScores_output logs c) as Hperm. fold cohort scored in Hperm.
  pose proof (cohortScores_sorted (Returned.studentAverages logs) c) as Hsorted.
  pose proof (cohortScores_positive (Returned.studentAverages logs) c) as Hpositive.
  fold cohort in Hsorted, Hpositive.
  assert (Hmember : In s cohort).
  { apply calculatePeerComparison_In in Hp as Hp'.
    rewrite rankedStudents_map in Hp'. apply in_map_iff in Hp' as (st & <- & Hst).
    rewrite ranked_averages in Havg. by apply (cohortScores_member _ st). }
  assert (Hrank : 0 <= rank < Z.of_nat (length cohort)).
  { pose proof (findIndex_from_found (fun x => (s <=? x)%float) cohort 0) as Hfound.
    unfold rank, Array_findIndex. rewrite Z.add_0_l in Hfound. apply Hfound.
    exists s. split; [done|by apply ltb_zero_leb_refl]. }
  assert (Hformula : forall q, In q (Returned.calculatePeerComparison logs) ->
            PeerComparison.categoryAverages q !! c = Some s ->
            Map_get c (PeerComparison.percentile q)
            = Some (Math_round (Z2F (rank + 1) / nat2F (length cohort) * 100)%float)).
  { intros q Hq Hqavg. apply calculatePeerComparison_In in Hq.
    apply rankedStudents_In in Hq as (st & _ & _ & Hav & Hperc & _).
    rewrite Hperc, Map_get_table by done.
    rewrite <- Hav, Hqavg. unfold percentileOf. by rewrite Hpos. }
  exists cohort. split; [done|]. split; [done|]. split.
  { rewrite (Permutation_length Hperm). apply omap_total_length.
    intros q Hq. apply filter_In in Hq as [_ Hq]. unfold positive in Hq.
    by destruct (PeerComparison.categoryAverages q !! c). }
  cbv zeta. fold rank. split; [by apply Hformula|]. split; [done|]. split; [|split].
  - unfold rank, Array_findIndex. rewrite findIndex_sorted.
    + rewrite Z.add_0_l. f_equal.
      rewrite (Permutation_length (Permutation_filter _ _ _ Hperm)).
      apply omap_filter_length.
    + done.
    + eapply Forall_impl; [exact Hpositive|]. intros x Hx.
      by apply ltb_not_nan in Hx as [_ Hx].
    + by apply ltb_not_nan in Hpos as [_ Hs].
    + exists s. split; [done|by apply ltb_zero_leb_refl].
  - intros q Hq Hqavg. by rewrite !Hformula.
  - intros Halone. rewrite (Hformula p) by done.
    apply calculatePeerComparison_In in Hp as Hp'.
    rewrite rankedStudents_map in Hp'. apply in_map_iff in Hp' as (st & <- & Hst).
    assert (Hcohort : cohort = [s]).
    { apply (cohort_single _ st).
      - rewrite studentAverages_ids. apply studentMap_NoDup.
      - done.
      - by rewrite <- ranked_averages with (logs := logs).
      - done.
      - intros q Hq Hne. rewrite <- ranked_averages with (logs := logs).
        apply Halone.
        + apply calculatePeerComparison_In. rewrite rankedStudents_map. by apply in_map.
        + by rewrite !ranked_id. }
    unfold rank. rewrite Hcohort. unfold Array_findIndex. simpl.
    by rewrite ltb_zero_leb_refl.
Qed.

Lemma percentile_rank_witness :
  let out := Examples.returned (calculatePeerComparison Examples.cohort) in
  let avg q := PeerComparison.categoryAverages q !! "Cognitive Skills" in
  let scored := List.filter (fun q => positive (avg q)) out in
  let below :=
    List.filter (fun q => match avg q with
                          | Some x => (x <? 3)%float
                          | None => false
                          end) scored in
  exists cohort,
    Permutation cohort (omap avg scored)
    /\ StronglySorted (fun x y => (x <=? y)%float = true) cohort
    /\ length cohort = length scored
    /\ let rank := Array_findIndex (fun x => (3 <=? x)%float) cohort in
       Map_get "Cognitive Skills" (PeerComparison.percentile Examples.emma)
         = Some (Math_round (Z2F (rank + 1) / nat2F (length cohort) * 100)%float)
       /\ 0 <= rank < Z.of_nat (length cohort)
       /\ rank = Z.of_nat (length below)
       /\ (forall q, In q out ->
             avg q = Some 3%float ->
             Map_get "Cognitive Skills" (PeerComparison.percentile q)
             = Map_get "Cognitive Skills" (PeerComparison.percentile Examples.emma))
       /\ ((forall q, In q out ->
              PeerComparison.studentId q <> PeerComparison.studentId Examples.emma ->
              avg q = None) ->
           Map_get "Cognitive Skills" (PeerComparison.percentile Examples.emma)
           = Some 100%float).
Proof.
  apply (percentile_rank Examples.cohort
           (Examples.returned (calculatePeerComparison Examples.cohort))
           Examples.emma "Cognitive Skills" 3%float).
  - vm_compute. reflexivity.
  - vm_compute. right. right. left. reflexivity.
  - vm_compute. left. reflexivity.
  - vm_compute. reflexivity.
  - vm_compute. reflexivity.
Defined.

(** The tie of the sample cohort: averages 2, 3, 3 give percentiles 33, 67,
    67; both tied students land on the first rank of their group, after
    the one student below them. *)
Example percentile_tie :
  map (fun p => Map_get "Cognitive Skills" (PeerComparison.percentile p))
    <$> calculatePeerComparison Examples.cohort
  = Normal [Some 33%float; Some 67%float; Some 67%float].
Proof. vm_compute. reflexivity. Qed.

(** *** Percentiles are positive or zero *)

Lemma omap_length_le {A B} (f : A -> option B) (l : list A) :
  (length (omap f l) <= length l)%nat.
Proof.
  induction l as [|x l IH]; [done|].
  cbn [omap list_omap]. destruct (f x); simpl; lia.
Qed.

Lemma cohortScores_length students c :
  (length (cohortScores students c) <= length students)%nat.
Proof. unfold cohortScores. rewrite Array_sort_length. apply omap_length_le. Qed.

Lemma Map_update_length {V} k (f : V -> V) (m : JSMap V) :
  length (Map_update k f m) = length m.
Proof.
  induction m as [|[k' v] m IH]; simpl; [done|].
  destruct (decide (k' = k)); simpl; [done|by rewrite IH].
Qed.

Lemma fold_left_length_le {S A} (size : S -> nat) (step : S -> A -> S) :
  (forall s x, (size (step s x) <= 1 + size s)%nat) ->
  forall l s, (size (fold_left step l s) <= size s + length l)%nat.
Proof.
  intros Hstep l. induction l as [|x l IH]; intros s; simpl; [lia|].
  specialize (IH (step s x)). specialize (Hstep s x). lia.
Qed.

(** There are no more students than records. *)
Lemma studentAverages_length logs :
  (length (Returned.studentAverages logs) <= length logs)%nat.
Proof.
  unfold Returned.studentAverages, studentAverages, Returned.studentMap. rewrite length_map.
  apply (fold_left_length_le (@length _) Returned.collectLog).
  intros st log. unfold Returned.collectLog.
  assert (Hfold : forall cats s,
            length (fold_left (fun st cs =>
                      Returned.pushStudentScore st (ObservationLog.studentId log) cs) cats s)
            = length s).
  { intros cats. induction cats as [|cs cats IH]; intros s0; simpl; [done|].
    rewrite IH. apply Map_update_length. }
  cbv zeta. destruct (ObservationLog.categories log); rewrite ?Hfold;
    (destruct (Map_has _ _) eqn:E; [lia|]);
    apply Map_has_false in E; rewrite Map_set_absent by done;
    rewrite length_app; simpl; lia.
Qed.

(** The percentile written for one student and category: the literal 0,
    or the rounding of a quotient of positive integers times 100. *)
Lemma percentileOf_sign cohort score :
  Z.of_nat (length cohort) < 2 ^ 53 ->
  (forall s, score = Some s -> (0 <? s)%float = true -> In s cohort) ->
  positiveOrZero (percentileOf cohort score).
Proof.
  intros Hlen Hmember. unfold percentileOf.
  destruct score as [s|]; [|by right].
  destruct (0 <? s)%float eqn:Hpos; [|by right].
  specialize (Hmember s eq_refl Hpos).
  pose proof (findIndex_from_found (fun x => (s <=? x)%float) cohort 0) as Hrank.
  rewrite Z.add_0_l in Hrank. fold (Array_findIndex (fun x => (s <=? x)%float) cohort) in Hrank.
  specialize (Hrank (ex_intro _ s (conj Hmember (ltb_zero_leb_refl s Hpos)))).
  apply Math_round_sign. rewrite FloatAxioms.mul_spec, FloatAxioms.div_spec.
  apply SFmul_signed; [|done].
  apply SFdiv_signed; apply Z2F_positive; lia.
Qed.

Lemma eqb_zero_of_sign x :
  positiveOrZero x -> negb (x =? 0)%float = (0 <? x)%float.
Proof.
  intros [Hpos| ->]; [|reflexivity].
  rewrite Hpos. rewrite FloatAxioms.ltb_spec in Hpos.
  rewrite FloatAxioms.eqb_spec.
  change (Prim2SF 0) with (S754_zero false) in *.
  unfold SFltb, SFeqb in *.
  destruct (Prim2SF x) as [| [] | | [] m e]; simpl in *; done.
Qed.

(** C7: for a student of the output of a call that returns (the record
    array having fewer than 2^32 elements, as every array has),
    [overallPercentile] is the rounded
    unweighted mean of those of the student's category percentiles that are
    non-zero, and 0 when there is none; the student has one percentile per
    canonical category, each positive or zero, and the percentile of a
    category without data is 0, which keeps it out of the mean instead of
    counting it as a zero. *)
Theorem overallPercentile_mean (logs : list ObservationLog.t)
    (out : list PeerComparison.t) (p : PeerComparison.t) :
  calculatePeerComparison logs = Normal out ->
  In p out ->
  Z.of_nat (length logs) < 2 ^ 32 ->
  let percentiles := map snd (PeerComparison.percentile p) in
  let nonZero := List.filter (fun x => negb (x =? 0)%float) percentiles in
  PeerComparison.overallPercentile p
    = match nonZero with
      | [] => 0%float
      | _ => Math_round (sum nonZero / nat2F (length nonZero))%float
      end
  /\ map fst (PeerComparison.percentile p) = categories
  /\ (forall x, In x percentiles -> (0 <? x)%float = true \/ x = 0%float)
  /\ (forall c, In c categories ->
        PeerComparison.categoryAverages p !! c = None ->
        Map_get c (PeerComparison.percentile p) = Some 0%float).
Proof.
  intros Hout Hp Hlen percentiles nonZero.
  apply calculatePeerComparison_returns in Hout. subst out.
  apply calculatePeerComparison_In in Hp.
  apply rankedStudents_In in Hp as (st & Hst & _ & Hav & Hperc & Hoverall).
  assert (Hsign : forall x, In x percentiles -> positiveOrZero x).
  { intros x. unfold percentiles. rewrite Hperc, map_map. cbn [snd].
    intros (c & <- & Hc)%in_map_iff. apply percentileOf_sign.
    - pose proof (cohortScores_length (Returned.studentAverages logs) c).
      pose proof (studentAverages_length logs).
      assert (2 ^ 32 < 2 ^ 53) by (vm_compute; reflexivity). lia.
    - intros s Hs Hpos. by apply (cohortScores_member _ st). }
  assert (Hfilter : nonZero = validPercentiles p).
  { unfold nonZero, validPercentiles. fold percentiles.
    apply filter_ext_in. intros x Hx. by apply eqb_zero_of_sign, Hsign. }
  split_and!.
  - rewrite Hoverall, Hfilter. by destruct (validPercentiles p).
  - rewrite Hperc, map_map. apply map_id.
  - done.
  - intros c Hc Hnone. rewrite Hperc, Map_get_table by done. by rewrite <- Hav, Hnone.
Qed.

Lemma overallPercentile_mean_witness :
  let percentiles := map snd (PeerComparison.percentile Examples.sarah) in
  let nonZero := List.filter (fun x => negb (x =? 0)%float) percentiles in
  PeerComparison.overallPercentile Examples.sarah
    = match nonZero with
      | [] => 0%float
      | _ => Math_round (sum nonZero / nat2F (length nonZero))%float
      end
  /\ map fst (PeerComparison.percentile Examples.sarah) = categories
  /\ (forall x, In x percentiles -> (0 <? x)%float = true \/ x = 0%float)
  /\ (forall c, In c categories ->
        PeerComparison.categoryAverages Examples.sarah !! c = None ->
        Map_get c (PeerComparison.percentile Examples.sarah) = Some 0%float).
Proof.
  apply (overallPercentile_mean Examples.cohort
           (Examples.returned (calculatePeerComparison Examples.cohort)) Examples.sarah).
  - vm_compute. reflexivity.
  - vm_compute. left. reflexivity.
  - vm_compute. reflexivity.
Defined.

(** In the sample cohort the first student has percentiles 33 and 100 and
    three categories without data: the overall percentile is
    [round((33 + 100) / 2) = 67], not [round(133 / 5) = 27]. *)
Example overallPercentile_sarah :
  map snd (PeerComparison.percentile Examples.sarah) = [33; 100; 0; 0; 0]%float
  /\ PeerComparison.overallPercentile Examples.sarah = 67%float.
Proof. vm_compute. done. Qed.

(** ** Grouping records by student *)

Section Grouping.

(** The records of one student, in input order. *)
Lemma groupLog_get (m : JSMap (list ObservationLog.t)) log sid :
  Map_get sid (groupLog m log)
  = if decide (ObservationLog.studentId log = sid)
    then Some (default [] (Map_get sid m) ++ [log])
    else Map_get sid m.
Proof.
  unfold groupLog. rewrite Map_get_update.
  destruct (decide (ObservationLog.studentId log = sid)) as [<-|Hne].
  - destruct (Map_has _ m) eqn:E.
    + unfold Map_has in E. by destruct (Map_get _ m).
    + apply Map_has_false in E as Hout. rewrite Map_set_absent by done.
      rewrite Map_get_app. apply Map_get_None in Hout. rewrite Hout. simpl.
      by rewrite decide_True.
  - destruct (Map_has _ m) eqn:E; [done|].
    apply Map_has_false in E. rewrite Map_set_absent by done.
    rewrite Map_get_app. destruct (Map_get sid m); [done|]. simpl.
    by rewrite decide_False.
Qed.

Lemma groupLog_NoDup (m : JSMap (list ObservationLog.t)) log :
  NoDup (Map_keys m) -> NoDup (Map_keys (groupLog m log)).
Proof.
  intros Hnd. unfold groupLog. rewrite Map_update_keys. by apply Map_init_NoDup.
Qed.

Lemma logsByStudent_NoDup logs : NoDup (Map_keys (logsByStudent logs)).
Proof.
  unfold logsByStudent. apply fold_left_invariant; [constructor|].
  intros m log. apply groupLog_NoDup.
Qed.

Lemma logsByStudent_get logs sid :
  Map_get sid (logsByStudent logs)
  = match studentLogsOf sid logs with
    | [] => None
    | studentLogs => Some studentLogs
    end.
Proof.
  unfold logsByStudent, studentLogsOf.
  induction logs as [|log logs IH] using rev_ind; [done|].
  rewrite fold_left_app, List.filter_app. simpl fold_left. rewrite groupLog_get, IH.
  simpl. destruct (decide (ObservationLog.studentId log = sid)) as [Heq|Hne].
  - rewrite bool_decide_true by done.
    destruct (List.filter _ logs) as [|l0 ls]; [done|done].
  - rewrite bool_decide_false by done. by rewrite app_nil_r.
Qed.

(** The entries of the Map are the non-empty groups. *)
Lemma logsByStudent_In logs sid studentLogs :
  In (sid, studentLogs) (logsByStudent logs)
  <-> studentLogs = studentLogsOf sid logs /\ studentLogs <> [].
Proof.
  split.
  - intros Hin. apply Map_In_get in Hin; [|apply logsByStudent_NoDup].
    rewrite logsByStudent_get in Hin.
    destruct (studentLogsOf sid logs); [done|]. by injection Hin as <-.
  - intros [-> Hne]. apply Map_get_In. rewrite logsByStudent_get.
    by destruct (studentLogsOf sid logs).
Qed.

End Grouping.

(** ** Intervention alerts *)

Section Alerts.
Context `{Host}.

Lemma checkDecline_push sid name c scores alerts :
  checkDecline sid name c scores alerts = alerts ++ checkDecline sid name c scores [].
Proof.
  unfold checkDecline.
  repeat match goal with |- context [if ?b then _ else _] => destruct b end;
    by rewrite ?app_nil_r.
Qed.

Lemma checkThreshold_push sid name c scores alerts :
  checkThreshold sid name c scores alerts = alerts ++ checkThreshold sid name c scores [].
Proof.
  unfold checkThreshold. destruct (Array_last scores) as [cur|]; [|by rewrite app_nil_r].
  destruct (cur <? 2.5)%float; by rewrite ?app_nil_r.
Qed.

(** What one (student, category) pair pushes. *)
Lemma checkCategory_push sid name studentLogs alerts c :
  checkCategory sid name studentLogs alerts c
  = alerts ++ checkCategory sid name studentLogs [] c.
Proof.
  unfold checkCategory. destruct (3 <=? length _)%nat; [|by rewrite app_nil_r].
  rewrite checkThreshold_push, checkDecline_push.
  rewrite (checkThreshold_push _ _ _ _ (checkDecline _ _ _ _ [])).
  by rewrite app_assoc.
Qed.

Lemma checkStudent_push alerts entry :
  checkStudent alerts entry = alerts ++ checkStudent [] entry.
Proof.
  unfold checkStudent. destruct entry.2 as [|first rest]; [by rewrite app_nil_r|].
  rewrite !(fold_left_push _ _ (checkCategory_push _ _ _)). done.
Qed.

Lemma pushedAlerts_flat logs :
  pushedAlerts logs = flat_map (checkStudent []) (logsByStudent logs).
Proof. unfold pushedAlerts. by rewrite (fold_left_push _ _ checkStudent_push). Qed.

Lemma checkCategory_fields sid name studentLogs c a :
  In a (checkCategory sid name studentLogs [] c) ->
  InterventionAlert.studentId a = sid /\ InterventionAlert.category a = c
  /\ InterventionAlert.studentName a = name.
Proof.
  unfold checkCategory. destruct (3 <=? length _)%nat; [|done].
  rewrite checkThreshold_push. rewrite in_app_iff.
  unfold checkDecline, checkThreshold.
  intros [Hin|Hin];
    repeat match type of Hin with
           | context [if ?b then _ else _] => destruct b
           | context [match ?o with Some _ => _ | None => _ end] => destruct o
           end;
    simpl in Hin; try done; by destruct Hin as [<-|[]].
Qed.

(** The alerts of the output are those pushed for a student of the input
    and a canonical category. *)
Lemma generateInterventionAlerts_In logs a :
  In a (generateInterventionAlerts logs)
  <-> exists sid first rest c,
        studentLogsOf sid logs = first :: rest
        /\ In c categories
        /\ In a (checkCategory sid (ObservationLog.studentName first)
                   (first :: rest) [] c).
Proof.
  unfold generateInterventionAlerts. rewrite Array_sort_In, pushedAlerts_flat.
  rewrite in_flat_map. split.
  - intros ([sid studentLogs] & Hentry & Ha).
    apply logsByStudent_In in Hentry as [-> Hne].
    unfold checkStudent in Ha. cbn [fst snd] in Ha.
    destruct (studentLogsOf sid logs) as [|first rest] eqn:E; [done|].
    rewrite (fold_left_push _ _ (checkCategory_push _ _ _)) in Ha.
    apply in_flat_map in Ha as (c & Hc & Ha). by exists sid, first, rest, c.
  - intros (sid & first & rest & c & Hlogs & Hc & Ha).
    exists (sid, first :: rest). split.
    + apply logsByStudent_In. by rewrite Hlogs.
    + unfold checkStudent. cbn [fst snd].
      rewrite (fold_left_push _ _ (checkCategory_push _ _ _)).
      apply in_flat_map. by exists c.
Qed.

End Alerts.

(** ** The two windows *)

Section Windows.

Lemma recentScores_drop (scores : list float) :
  recentScores scores = drop (length scores - 3) scores.
Proof.
  unfold recentScores, Array_slice, relIndex.
  change (-3 <? 0) with true. cbv iota.
  match goal with
  | |- take ?a (drop ?b _) = _ =>
      replace b with (length scores - 3)%nat by lia;
      apply take_ge; rewrite length_drop; lia
  end.
Qed.

Lemma olderScores_take_drop (scores : list float) :
  olderScores scores
  = take (Nat.min 3 (length scores - 3)) (drop (length scores - 6) scores).
Proof.
  unfold olderScores, Array_slice, relIndex.
  change (-3 <? 0) with true. change (-6 <? 0) with true. cbv iota.
  match goal with
  | |- take ?a (drop ?b _) = _ =>
      replace b with (length scores - 6)%nat by lia;
      replace a with (Nat.min 3 (length scores - 3)) by lia
  end.
  done.
Qed.

(** The sequence is a prefix, then the older window (the up to three
    scores before the last three), then the recent window (the last
    three). *)
Lemma windows_split (scores : list float) :
  (3 <= length scores)%nat ->
  take (length scores - 6) scores ++ olderScores scores ++ recentScores scores = scores
  /\ length (recentScores scores) = 3%nat
  /\ length (olderScores scores) = Nat.min 3 (length scores - 3).
Proof.
  intros Hlen. rewrite recentScores_drop, olderScores_take_drop.
  split; [|split].
  - transitivity (take (length scores - 6) scores ++ drop (length scores - 6) scores);
      [|apply take_drop].
    f_equal. set (rest := drop (length scores - 6) scores).
    transitivity (take (Nat.min 3 (length scores - 3)) rest
                  ++ drop (Nat.min 3 (length scores - 3)) rest);
      [|apply take_drop].
    f_equal. unfold rest. rewrite drop_drop. f_equal. lia.
  - rewrite length_drop. lia.
  - rewrite length_take, length_drop. lia.
Qed.

Lemma olderScores_nonempty (scores : list float) :
  (3 <= length scores)%nat ->
  (olderScores scores <> [] <-> (4 <= length scores)%nat).
Proof.
  intros Hlen. destruct (windows_split scores Hlen) as (_ & _ & Hold).
  destruct (olderScores scores) as [|x l]; cbn [length] in Hold; split.
  - intros Hne. by destruct Hne.
  - intros Hfour _. lia.
  - intros _. lia.
  - done.
Qed.

End Windows.

(** ** Every record that scores a category contributes a score *)

Lemma hasCategory_entries c log :
  hasCategory c log = true -> categoryEntries c log <> [].
Proof.
  unfold hasCategory, categoryEntries.
  destruct (ObservationLog.categories log) as [cats|]; [|done].
  intros (cat & Hin & Hcat)%existsb_exists Hnil.
  assert (Hf : In cat (List.filter (isCategory c) cats)) by by apply filter_In.
  by rewrite Hnil in Hf.
Qed.

Lemma categoryEntries_length c (l : list ObservationLog.t) :
  (length (List.filter (hasCategory c) l)
   <= length (flat_map (categoryEntries c) (List.filter (hasCategory c) l)))%nat.
Proof.
  induction l as [|log l IH]; simpl; [done|].
  destruct (hasCategory c log) eqn:E; [|done].
  simpl. rewrite length_app. apply hasCategory_entries in E.
  destruct (categoryEntries c log); [done|]. simpl. lia.
Qed.

(** Records that do not score the category contribute no entry. *)
Lemma categoryEntries_filter c (l : list ObservationLog.t) :
  flat_map (categoryEntries c) (List.filter (hasCategory c) l)
  = flat_map (categoryEntries c) l.
Proof.
  induction l as [|log l IH]; simpl; [done|].
  destruct (hasCategory c log) eqn:E; simpl; [by rewrite IH|].
  rewrite IH. unfold hasCategory, categoryEntries in *.
  destruct (ObservationLog.categories log) as [cats|]; [|done].
  assert (Hnil : List.filter (isCategory c) cats = []); [|by rewrite Hnil].
  clear IH. induction cats as [|x cats IH]; simpl in *; [done|].
  apply orb_false_iff in E as [-> E]. by apply IH.
Qed.

Lemma pairScores_length sid c logs :
  length (pairScores sid c logs) = length (pairEntries sid c logs).
Proof.
  unfold pairScores, sortedScores, pairEntries, categoryLogsOf.
  by rewrite Array_sort_length, length_map, categoryEntries_filter.
Qed.

Lemma categoryLogs_le_entries sid c logs :
  (length (categoryLogsOf sid c logs) <= length (pairEntries sid c logs))%nat.
Proof.
  unfold pairEntries, categoryLogsOf. rewrite <- categoryEntries_filter.
  apply categoryEntries_length.
Qed.

(** ** What a pair of student and category emits *)

Section PairAlerts.
Context `{Host}.

(** The alerts of the output for the pair [(sid, c)], when at least three
    records of the student score the canonical category [c]: the decline
    check and the threshold check run on [pairScores sid c logs]. *)
Lemma pair_alerts logs sid c a :
  In c categories ->
  (3 <= length (categoryLogsOf sid c logs))%nat ->
  (In a (generateInterventionAlerts logs)
   /\ InterventionAlert.studentId a = sid /\ InterventionAlert.category a = c)
  <-> In a (checkDecline sid (studentNameOf sid logs) c (pairScores sid c logs) []
            ++ checkThreshold sid (studentNameOf sid logs) c (pairScores sid c logs) []).
Proof.
  intros Hc Hlen. rewrite generateInterventionAlerts_In.
  assert (Hcheck : forall first rest, studentLogsOf sid logs = first :: rest ->
            checkCategory sid (ObservationLog.studentName first) (first :: rest) [] c
            = checkDecline sid (studentNameOf sid logs) c (pairScores sid c logs) []
              ++ checkThreshold sid (studentNameOf sid logs) c (pairScores sid c logs) []).
  { intros first rest Hlogs.
    assert (Hname : studentNameOf sid logs = ObservationLog.studentName first)
      by (unfold studentNameOf; by rewrite Hlogs).
    rewrite Hname. unfold checkCategory. rewrite <- Hlogs.
    fold (categoryLogsOf sid c logs). fold (pairScores sid c logs).
    apply Nat.leb_le in Hlen. rewrite Hlen.
    by rewrite checkThreshold_push. }
  split.
  - intros ((sid' & first & rest & c' & Hlogs & Hc' & Ha) & Hsid & Hcat).
    apply checkCategory_fields in Ha as Hf. destruct Hf as (Hs & Hcc & _).
    rewrite Hsid in Hs. rewrite Hcat in Hcc. subst sid' c'.
    by rewrite <- (Hcheck first rest).
  - intros Ha.
    destruct (studentLogsOf sid logs) as [|first rest] eqn:Hlogs.
    { unfold categoryLogsOf in Hlen. rewrite Hlogs in Hlen. simpl in Hlen. lia. }
    rewrite <- (Hcheck first rest eq_refl) in Ha.
    apply checkCategory_fields in Ha as Hf. destruct Hf as (Hs & Hcc & _).
    split; [|done]. by exists sid, first, rest, c.
Qed.

(** Fewer than three records scoring the category: nothing is emitted. *)
Lemma pair_silent logs sid c a :
  (length (categoryLogsOf sid c logs) < 3)%nat ->
  In a (generateInterventionAlerts logs) ->
  InterventionAlert.studentId a = sid -> InterventionAlert.category a = c -> False.
Proof.
  intros Hlen (sid' & first & rest & c' & Hlogs & Hc' & Ha)%generateInterventionAlerts_In
         Hsid Hcat.
  apply checkCategory_fields in Ha as Hf. destruct Hf as (Hs & Hcc & _).
  rewrite Hsid in Hs. rewrite Hcat in Hcc. subst sid' c'.
  unfold checkCategory in Ha. rewrite <- Hlogs in Ha.
  fold (categoryLogsOf sid c logs) in Ha.
  apply Nat.leb_gt in Hlen. by rewrite Hlen in Ha.
Qed.

(** A category outside the five canonical ones: nothing is emitted. *)
Lemma unknown_category_silent logs a :
  In a (generateInterventionAlerts logs) -> In (InterventionAlert.category a) categories.
Proof.
  intros (sid & first & rest & c & Hlogs & Hc & Ha)%generateInterventionAlerts_In.
  apply checkCategory_fields in Ha as (_ & -> & _). done.
Qed.

End PairAlerts.

Section AlertRules.
Context `{Host}.

Lemma checkDecline_In sid name c scores a :
  In a (checkDecline sid name c scores [])
  <-> (3 <= length scores)%nat /\ olderScores scores <> []
      /\ (0.5 <? mean (olderScores scores) - mean (recentScores scores))%float = true
      /\ a = {| InterventionAlert.studentId := sid;
                InterventionAlert.studentName := name;
                InterventionAlert.alertType := decline;
                InterventionAlert.category := c;
                InterventionAlert.severity :=
                  declineSeverity (mean (olderScores scores) - mean (recentScores scores));
                InterventionAlert.message :=
                  c +:+ " scores have declined by "
                    +:+ Number_toFixed1
                          (mean (olderScores scores) - mean (recentScores scores))
                    +:+ " points";
                InterventionAlert.score := mean (recentScores scores);
                InterventionAlert.threshold := mean (olderScores scores);
                InterventionAlert.trend :=
                  (mean (olderScores scores) - mean (recentScores scores))%float |}.
Proof.
  unfold checkDecline.
  destruct (3 <=? length scores)%nat eqn:E3.
  2: { apply Nat.leb_gt in E3. split; [done|]. intros (Hlen & _). lia. }
  apply Nat.leb_le in E3.
  destruct (olderScores scores) as [|x older] eqn:Eold.
  { simpl. split; [done|]. by intros (_ & Hne & _). }
  cbn [length Nat.ltb Nat.leb].
  destruct (0.5 <? _)%float eqn:Ed.
  - simpl. split.
    + intros [<-|[]]. done.
    + intros (_ & _ & _ & ->). by left.
  - simpl. split; [done|]. by intros (_ & _ & Hd & _).
Qed.

Lemma checkThreshold_In sid name c scores a :
  In a (checkThreshold sid name c scores [])
  <-> exists currentScore,
        Array_last scores = Some currentScore
        /\ (currentScore <? 2.5)%float = true
        /\ a = {| InterventionAlert.studentId := sid;
                  InterventionAlert.studentName := name;
                  InterventionAlert.alertType := threshold;
                  InterventionAlert.category := c;
                  InterventionAlert.severity := thresholdSeverity currentScore;
                  InterventionAlert.message :=
                    c +:+ " score is below threshold ("
                      +:+ numberToString currentScore +:+ "/5)";
                  InterventionAlert.score := currentScore;
                  InterventionAlert.threshold := 2.5%float;
                  InterventionAlert.trend := 0%float |}.
Proof.
  unfold checkThreshold. destruct (Array_last scores) as [cur|].
  2: { split; [done|]. by intros (? & ? & _). }
  destruct (cur <? 2.5)%float eqn:E.
  - simpl. split.
    + intros [<-|[]]. by exists cur.
    + intros (cur' & [= <-] & _ & ->). by left.
  - simpl. split; [done|]. intros (cur' & [= <-] & Hlt & _). congruence.
Qed.

(** At least three records scoring the category give at least three
    scores, so there is a last one. *)
Lemma pairScores_last logs sid c :
  (3 <= length (categoryLogsOf sid c logs))%nat ->
  (3 <= length (pairScores sid c logs))%nat
  /\ exists currentScore, Array_last (pairScores sid c logs) = Some currentScore.
Proof.
  intros Hlen.
  assert (Hscores : (3 <= length (pairScores sid c logs))%nat).
  { rewrite pairScores_length. pose proof (categoryLogs_le_entries sid c logs). lia. }
  split; [done|]. unfold Array_last.
  destruct (last (pairScores sid c logs)) as [cur|] eqn:E; [by exists cur|].
  apply last_None in E. rewrite E in Hscores. simpl in Hscores. lia.
Qed.

End AlertRules.

(** C2 (as amended): for a student [sid] and a canonical category [c] scored
    by at least three of the student's records, with a non-empty older
    window, a decline alert for the pair is in the output exactly when
    [mean(older) - mean(recent) > 0.5], where the windows are cut from the
    pair's score sequence as the generator orders it (recent: its last three
    scores; older: the up to three scores before them).  The alert has
    severity high if the decline exceeds 1, medium if it exceeds 0.7, low
    otherwise, and score = recent mean, threshold = older mean, trend =
    decline.  A decline of exactly 0.5 emits nothing; a decline of 0.51
    emits a low alert. *)
Theorem decline_alert `{Host} (logs : list ObservationLog.t) (sid c : string) :
  In c categories ->
  (3 <= length (categoryLogsOf sid c logs))%nat ->
  let scores := pairScores sid c logs in
  olderScores scores <> [] ->
  let alerts := generateInterventionAlerts logs in
  let recentAvg := mean (recentScores scores) in
  let olderAvg := mean (olderScores scores) in
  let d := (olderAvg - recentAvg)%float in
  (emits alerts sid c decline <-> (0.5 <? d)%float = true)
  /\ (forall a, In a alerts ->
        InterventionAlert.studentId a = sid -> InterventionAlert.category a = c ->
        InterventionAlert.alertType a = decline ->
        InterventionAlert.severity a
          = (if (1 <? d)%float then high else if (0.7 <? d)%float then medium else low)
        /\ InterventionAlert.score a = recentAvg
        /\ InterventionAlert.threshold a = olderAvg
        /\ InterventionAlert.trend a = d)
  /\ (d = 0.5%float -> ~ emits alerts sid c decline)
  /\ (d = 0.51%float ->
      exists a, In a alerts /\ InterventionAlert.studentId a = sid
        /\ InterventionAlert.category a = c /\ InterventionAlert.alertType a = decline
        /\ InterventionAlert.severity a = low)
  /\ (take (length scores - 6) scores ++ olderScores scores ++ recentScores scores = scores
      /\ length (recentScores scores) = 3%nat
      /\ length (olderScores scores) = Nat.min 3 (length scores - 3)).
Proof.
  intros Hc Hlen scores Hold alerts recentAvg olderAvg d.
  destruct (pairScores_last logs sid c Hlen) as (Hscores & _).
  assert (Hdecl : forall a,
            (In a alerts /\ InterventionAlert.studentId a = sid
             /\ InterventionAlert.category a = c
             /\ InterventionAlert.alertType a = decline)
            <-> (0.5 <? d)%float = true
                /\ In a (checkDecline sid (studentNameOf sid logs) c scores [])).
  { intros a. split.
    - intros (Hin & Hsid & Hcat & Hty).
      assert (Hpair : In a alerts /\ InterventionAlert.studentId a = sid
                      /\ InterventionAlert.category a = c) by done.
      apply (pair_alerts logs sid c a Hc Hlen) in Hpair.
      apply in_app_iff in Hpair as [Hd|Ht].
      + split; [|done]. by apply checkDecline_In in Hd as (_ & _ & Hd & _).
      + apply checkThreshold_In in Ht as (cur & _ & _ & ->). done.
    - intros (Hd & Hin).
      assert (Hpair : In a (checkDecline sid (studentNameOf sid logs) c scores []
                            ++ checkThreshold sid (studentNameOf sid logs) c scores []))
        by (apply in_app_iff; by left).
      apply (pair_alerts logs sid c a Hc Hlen) in Hpair as (Hin' & Hsid & Hcat).
      apply checkDecline_In in Hin as (_ & _ & _ & ->). done. }
  assert (Hemit : emits alerts sid c decline <-> (0.5 <? d)%float = true).
  { unfold emits. split.
    - intros (a & Ha). by apply Hdecl in Ha as [Hd _].
    - intros Hd.
      eexists. apply Hdecl. split; [done|].
      apply checkDecline_In. split_and!; done. }
  split_and!.
  - done.
  - intros a Hin Hsid Hcat Hty.
    assert (Ha : (0.5 <? d)%float = true
                 /\ In a (checkDecline sid (studentNameOf sid logs) c scores []))
      by by apply Hdecl.
    destruct Ha as (_ & Ha). apply checkDecline_In in Ha as (_ & _ & _ & ->). done.
  - intros Hd. rewrite Hemit, Hd. done.
  - intros Hd.
    assert (Hlt : (0.5 <? d)%float = true) by by rewrite Hd.
    apply Hemit in Hlt as (a & Hin & Hsid & Hcat & Hty). exists a. split_and!; try done.
    assert (Ha : (0.5 <? d)%float = true
                 /\ In a (checkDecline sid (studentNameOf sid logs) c scores []))
      by by apply Hdecl.
    destruct Ha as (_ & Ha). apply checkDecline_In in Ha as (_ & _ & _ & ->).
    cbn [InterventionAlert.severity]. fold scores. fold olderAvg recentAvg d.
    by rewrite Hd.
  - by apply windows_split.
  - by apply windows_split.
  - by apply windows_split.
Qed.

(** In the sample where six weekly scores slip from 2.9 to 2, the decline
    alert is emitted. *)
Lemma decline_alert_witness :
  emits (generateInterventionAlerts (H := UTCHost.host) Examples.slipping)
    "2" "Communication" decline.
Proof.
  assert (Hc : In "Communication" categories) by (vm_compute; tauto).
  assert (Hlen : (3 <= length (categoryLogsOf "2" "Communication" Examples.slipping))%nat)
    by (vm_compute; lia).
  assert (Hold : olderScores (pairScores "2" "Communication" Examples.slipping) <> [])
    by (vm_compute; discriminate).
  destruct (decline_alert (H := UTCHost.host) Examples.slipping "2" "Communication"
              Hc Hlen Hold) as (Hiff & _).
  apply Hiff. vm_compute. reflexivity.
Defined.

(** C2 as stated fails: two records, each scoring "Communication" three
    times, give six contributing entries, a non-empty older window and a
    decline of 0.9 whichever way the entries are ordered, yet nothing is
    emitted, because the records (not the entries) are counted. *)
Lemma decline_alert_counterexample :
  let logs := Examples.twoRecords in
  let entries := map CategoryScore.score (pairEntries "2" "Communication" logs) in
  (3 <= length entries)%nat
  /\ chronologicalScores (H := UTCHost.host) "2" "Communication" logs = entries
  /\ pairScores "2" "Communication" logs = entries
  /\ olderScores entries <> []
  /\ (0.5 <? mean (olderScores entries) - mean (recentScores entries))%float = true
  /\ generateInterventionAlerts (H := UTCHost.host) logs = [].
Proof. vm_compute. split_and!; first [done | lia]. Qed.

(** C3 (as amended): for a student [sid] and a canonical category [c] scored
    by at least three of the student's records, a threshold alert for the
    pair is in the output exactly when the last score of the pair's score
    sequence, as the generator orders it, is below 2.5; its severity is high
    below 1.5, medium below 2, low otherwise, and score = that last score,
    threshold = 2.5, trend = 0.  A last score of exactly 2.5 emits none.  A
    pair with fewer than three such records (in particular one with fewer
    than three score entries) emits no alert of any type, and alerts exist
    for the five canonical categories only. *)
Theorem threshold_alert `{Host} (logs : list ObservationLog.t) (sid c : string) :
  In c categories ->
  (3 <= length (categoryLogsOf sid c logs))%nat ->
  let alerts := generateInterventionAlerts logs in
  exists lastScore,
    Array_last (pairScores sid c logs) = Some lastScore
    /\ (emits alerts sid c threshold <-> (lastScore <? 2.5)%float = true)
    /\ (forall a, In a alerts ->
          InterventionAlert.studentId a = sid -> InterventionAlert.category a = c ->
          InterventionAlert.alertType a = threshold ->
          InterventionAlert.severity a
            = (if (lastScore <? 1.5)%float then high
               else if (lastScore <? 2)%float then medium else low)
          /\ InterventionAlert.score a = lastScore
          /\ InterventionAlert.threshold a = 2.5%float
          /\ InterventionAlert.trend a = 0%float)
    /\ (lastScore = 2.5%float -> ~ emits alerts sid c threshold)
    /\ (forall sid' c' ty,
          (length (categoryLogsOf sid' c' logs) < 3)%nat -> ~ emits alerts sid' c' ty)
    /\ (forall sid' c' ty,
          (length (pairEntries sid' c' logs) < 3)%nat -> ~ emits alerts sid' c' ty)
    /\ (forall a, In a alerts -> In (InterventionAlert.category a) categories).
Proof.
  intros Hc Hlen alerts.
  destruct (pairScores_last logs sid c Hlen) as (Hscores & lastScore & Hlast).
  exists lastScore. split; [done|].
  assert (Hthr : forall a,
            (In a alerts /\ InterventionAlert.studentId a = sid
             /\ InterventionAlert.category a = c
             /\ InterventionAlert.alertType a = threshold)
            <-> (lastScore <? 2.5)%float = true
                /\ In a (checkThreshold sid (studentNameOf sid logs) c
                           (pairScores sid c logs) [])).
  { intros a. split.
    - intros (Hin & Hsid & Hcat & Hty).
      assert (Hpair : In a alerts /\ InterventionAlert.studentId a = sid
                      /\ InterventionAlert.category a = c) by done.
      apply (pair_alerts logs sid c a Hc Hlen) in Hpair.
      apply in_app_iff in Hpair as [Hd|Ht].
      + apply checkDecline_In in Hd as (_ & _ & _ & ->). done.
      + split; [|done].
        apply checkThreshold_In in Ht as (cur & Hcur & Hlt & _). congruence.
    - intros (Hlt & Hin).
      assert (Hpair : In a (checkDecline sid (studentNameOf sid logs) c
                              (pairScores sid c logs) []
                            ++ checkThreshold sid (studentNameOf sid logs) c
                                 (pairScores sid c logs) []))
        by (apply in_app_iff; by right).
      apply (pair_alerts logs sid c a Hc Hlen) in Hpair as (Hin' & Hsid & Hcat).
      apply checkThreshold_In in Hin as (cur & _ & _ & ->). done. }
  assert (Hemit : emits alerts sid c threshold <-> (lastScore <? 2.5)%float = true).
  { unfold emits. split.
    - intros (a & Ha). by apply Hthr in Ha as [Hlt _].
    - intros Hlt. eexists. apply Hthr. split; [done|].
      apply checkThreshold_In. by exists lastScore. }
  split_and!.
  - done.
  - intros a Hin Hsid Hcat Hty.
    assert (Ha : (lastScore <? 2.5)%float = true
                 /\ In a (checkThreshold sid (studentNameOf sid logs) c
                            (pairScores sid c logs) [])) by by apply Hthr.
    destruct Ha as (_ & Ha).
    apply checkThreshold_In in Ha as (cur & Hcur & _ & ->).
    assert (cur = lastScore) as -> by congruence. done.
  - intros ->. rewrite Hemit. done.
  - intros sid' c' ty Hfew (a & Hin & Hsid & Hcat & _).
    by apply (pair_silent logs sid' c' a).
  - intros sid' c' ty Hfew (a & Hin & Hsid & Hcat & _).
    apply (pair_silent logs sid' c' a); try done.
    pose proof (categoryLogs_le_entries sid' c' logs). lia.
  - intros a. apply unknown_category_silent.
Qed.

(** In the sample where six weekly scores slip from 2.9 to 2, the threshold
    alert is emitted. *)
Lemma threshold_alert_witness :
  emits (generateInterventionAlerts (H := UTCHost.host) Examples.slipping)
    "2" "Communication" threshold.
Proof.
  assert (Hc : In "Communication" categories) by (vm_compute; tauto).
  assert (Hlen : (3 <= length (categoryLogsOf "2" "Communication" Examples.slipping))%nat)
    by (vm_compute; lia).
  destruct (threshold_alert (H := UTCHost.host) Examples.slipping "2" "Communication"
              Hc Hlen) as (lastScore & Hlast & Hiff & _).
  apply Hiff. vm_compute in Hlast. injection Hlast as <-. reflexivity.
Defined.

(** C3 as stated fails: one record scoring "Creativity" three times with
    score 1 gives three contributing entries whose last score, in any
    order, is 1 < 2.5, yet no threshold alert is emitted. *)
Lemma threshold_alert_counterexample :
  let logs := Examples.oneRecord in
  let entries := map CategoryScore.score (pairEntries "2" "Creativity" logs) in
  (3 <= length entries)%nat
  /\ entries = [1; 1; 1]%float
  /\ chronologicalScores (H := UTCHost.host) "2" "Creativity" logs = entries
  /\ (1 <? 2.5)%float = true
  /\ generateInterventionAlerts (H := UTCHost.host) logs = [].
Proof. vm_compute. split_and!; first [done | lia]. Qed.

(** C1 fails on the code: with six weekly records scoring 4, 4, 4, 2, 2, 2
    the chronological sequence ends in 2 (below 2.5) after falling by 2
    (above 0.5), but the generator windows over 2, 2, 2, 4, 4, 4 (the scores
    sorted by their own value read as a date) and emits nothing. *)
Theorem scores_sorted_by_value_not_time :
  let logs := Examples.falling in
  let chronological := chronologicalScores (H := UTCHost.host) "5" "Cognitive Skills" logs in
  let windowed := pairScores "5" "Cognitive Skills" logs in
  chronological = [4; 4; 4; 2; 2; 2]%float
  /\ windowed = [2; 2; 2; 4; 4; 4]%float
  /\ Array_last chronological = Some 2%float
  /\ Array_last windowed = Some 4%float
  /\ (mean (olderScores chronological) - mean (recentScores chronological))%float = 2%float
  /\ (mean (olderScores windowed) - mean (recentScores windowed))%float = (-2)%float
  /\ generateInterventionAlerts (H := UTCHost.host) logs = [].
Proof. vm_compute. repeat (split; [reflexivity|]). reflexivity. Qed.

(** ** Trend buckets *)

Section ScoreArrays.
Implicit Types (obj : gmap string (list float)).

Lemma pushScore_lookup c s obj c' :
  Returned.pushScore c s obj !! c'
  = if decide (c = c') then Some (default [] (obj !! c) ++ [s]) else obj !! c'.
Proof.
  unfold Returned.pushScore. destruct (decide (c = c')) as [<-|Hne].
  - destruct (obj !! c) as [arr|] eqn:E.
    + by rewrite lookup_alter_eq, E.
    + by rewrite lookup_alter_eq, lookup_insert_eq.
  - rewrite lookup_alter_ne by done.
    destruct (obj !! c); [done|]. by rewrite lookup_insert_ne.
Qed.

Lemma countEntries_insert c arr obj :
  obj !! c = None -> countEntries (<[c := arr]> obj) = (countEntries obj + length arr)%nat.
Proof.
  intros Hnone. unfold countEntries. rewrite map_fold_insert_L; [done| |done].
  intros. lia.
Qed.

Lemma countEntries_delete c arr obj :
  obj !! c = Some arr ->
  countEntries obj = (countEntries (delete c obj) + length arr)%nat.
Proof.
  intros Hsome. unfold countEntries.
  rewrite (map_fold_delete_L _ _ c arr obj); [done| |done].
  intros. lia.
Qed.

(** Every push adds one to the count of entries. *)
Lemma countEntries_push c s obj :
  countEntries (Returned.pushScore c s obj) = S (countEntries obj).
Proof.
  assert (Heq : Returned.pushScore c s obj = <[c := default [] (obj !! c) ++ [s]]> (delete c obj)).
  { apply map_eq. intros c'. rewrite pushScore_lookup.
    destruct (decide (c = c')) as [<-|Hne].
    - by rewrite lookup_insert_eq.
    - by rewrite lookup_insert_ne, lookup_delete_ne. }
  rewrite Heq, countEntries_insert by apply lookup_delete_eq.
  rewrite length_app. simpl.
  destruct (obj !! c) as [arr|] eqn:E; simpl.
  - rewrite (countEntries_delete c arr obj E). lia.
  - rewrite delete_id by done. lia.
Qed.

Lemma pushAll_count cats obj :
  countEntries (pushAll cats obj) = (countEntries obj + length cats)%nat.
Proof.
  revert obj. induction cats as [|cs cats IH]; intros obj; simpl; [lia|].
  unfold pushAll in *. simpl. rewrite IH, countEntries_push. lia.
Qed.

Lemma pushAll_lookup cats obj c (l : list float) :
  obj !! c = nonEmpty l ->
  pushAll cats obj !! c
  = nonEmpty (l ++ map CategoryScore.score (List.filter (isCategory c) cats)).
Proof.
  revert obj l. induction cats as [|cs cats IH]; intros obj l Hobj; simpl.
  - by rewrite app_nil_r.
  - unfold pushAll in *. simpl.
    unfold isCategory at 1. destruct (bool_decide _) eqn:E.
    + apply bool_decide_eq_true in E. simpl.
      rewrite (IH _ (l ++ [CategoryScore.score cs])); [by rewrite <- app_assoc|].
      rewrite pushScore_lookup, decide_True by done.
      rewrite E, Hobj. destruct l; simpl; done.
    + apply bool_decide_eq_false in E.
      apply IH. by rewrite pushScore_lookup, decide_False.
Qed.

End ScoreArrays.

Section Buckets.
Context `{Host}.
Implicit Types (data : JSMap (gmap string (list float))).

Lemma Map_update_id {V} k (m : JSMap V) (f : V -> V) :
  (forall v, f v = v) -> Map_update k f m = m.
Proof.
  intros Hf. induction m as [|[k' v] m IH]; simpl; [done|].
  destruct (decide (k' = k)); [by rewrite Hf|by rewrite IH].
Qed.

Lemma Map_update_twice {V} k (m : JSMap V) (f g : V -> V) :
  Map_update k g (Map_update k f m) = Map_update k (fun v => g (f v)) m.
Proof.
  induction m as [|[k' v] m IH]; simpl; [done|].
  destruct (decide (k' = k)) as [->|Hne]; simpl.
  - by rewrite decide_True.
  - by rewrite decide_False, IH.
Qed.

Lemma pushEntry_fold k cats data :
  fold_left (pushEntry k) cats data = Map_update k (pushAll cats) data.
Proof.
  revert data. induction cats as [|cs cats IH]; intros data; simpl.
  - symmetry. by apply Map_update_id.
  - rewrite IH. unfold pushEntry. by rewrite Map_update_twice.
Qed.

Lemma initBucket_get k data k' :
  Map_get k' (initBucket k data)
  = if decide (k = k') then Some (default ∅ (Map_get k' data)) else Map_get k' data.
Proof.
  unfold initBucket. destruct (Map_has k data) eqn:E.
  - destruct (decide (k = k')) as [<-|]; [|done].
    unfold Map_has in E. by destruct (Map_get k data).
  - apply Map_has_false in E as Hout. rewrite Map_set_absent by done.
    rewrite Map_get_app. simpl.
    destruct (decide (k = k')) as [<-|Hne].
    + apply Map_get_None in Hout. by rewrite Hout.
    + by destruct (Map_get k' data).
Qed.

Lemma accumulate_get key data log k :
  Map_get k (accumulate key data log)
  = if decide (key log = k)
    then Some (pushAll (entriesOf log) (default ∅ (Map_get k data)))
    else Map_get k data.
Proof.
  unfold accumulate. rewrite pushEntry_fold, Map_get_update, initBucket_get.
  by destruct (decide (key log = k)).
Qed.

Lemma accumulate_NoDup key data log :
  NoDup (Map_keys data) -> NoDup (Map_keys (accumulate key data log)).
Proof.
  intros Hnd. unfold accumulate. rewrite pushEntry_fold, Map_update_keys.
  by apply Map_init_NoDup.
Qed.

(** The state of one accumulating Map after the loop over [logs]: a
    bucket exists for exactly the keys of the records seen, and holds, per
    category, the scores of the bucket's entries in order. *)
Lemma accumulated key logs k :
  match Map_get k (fold_left (accumulate key) logs []) with
  | None => bucketLogs key k logs = []
  | Some obj =>
      bucketLogs key k logs <> []
      /\ (forall c, obj !! c = nonEmpty (bucketScores key k c logs))
      /\ countEntries obj = length (bucketEntries key k logs)
  end.
Proof.
  induction logs as [|log logs IH] using rev_ind; [done|].
  rewrite fold_left_app. simpl fold_left. rewrite accumulate_get.
  unfold bucketScores, bucketEntries, bucketLogs in *.
  rewrite List.filter_app. simpl List.filter.
  destruct (decide (key log = k)) as [Heq|Hne].
  - rewrite bool_decide_true by done. split_and!.
    + by destruct (List.filter _ logs).
    + intros c. rewrite flat_map_app, List.filter_app, map_app. simpl flat_map.
      rewrite app_nil_r. apply pushAll_lookup.
      destruct (Map_get k _) as [obj|]; simpl.
      * by destruct IH as (_ & Hobj & _).
      * by rewrite IH.
    + rewrite flat_map_app, length_app, pushAll_count. simpl flat_map.
      rewrite app_nil_r. f_equal.
      destruct (Map_get k _) as [obj|]; simpl.
      * by destruct IH as (_ & _ & Hcount).
      * by rewrite IH.
  - rewrite bool_decide_false by done. rewrite app_nil_r. apply IH.
Qed.

Lemma addLog_split (st : TrendState) log :
  Returned.addLog st log = (accumulate weekOf st.1 log, accumulate monthOf st.2 log).
Proof.
  unfold Returned.addLog, accumulate, entriesOf, weekOf, monthOf.
  destruct (ObservationLog.categories log) as [cats|]; [|done]. simpl.
  generalize (initBucket (getWeekKey (Date_ofString (ObservationLog.timestamp log))) st.1).
  generalize (initBucket (getMonthKey (Date_ofString (ObservationLog.timestamp log))) st.2).
  induction cats as [|cs cats IH]; intros m w; simpl; [done|].
  unfold Returned.addCategoryScore at 2. simpl. apply IH.
Qed.

Lemma trendState_split logs studentId :
  Returned.trendState logs studentId
  = (fold_left (accumulate weekOf) (filteredLogs logs studentId) [],
     fold_left (accumulate monthOf) (filteredLogs logs studentId) []).
Proof.
  unfold Returned.trendState. generalize (@nil (string * gmap string (list float))) at 1 3.
  generalize (@nil (string * gmap string (list float))).
  induction (filteredLogs logs studentId) as [|log l IH]; intros m w; simpl; [done|].
  rewrite addLog_split. apply IH.
Qed.

Lemma accumulated_NoDup key logs : NoDup (Map_keys (fold_left (accumulate key) logs [])).
Proof.
  apply fold_left_invariant; [constructor|]. intros. by apply accumulate_NoDup.
Qed.

End Buckets.

Section Trends.
Context `{Host}.

(** The entries of the output are the buckets of the two Maps. *)
Lemma calculateTrends_In logs studentId td :
  In td (Returned.calculateTrends logs studentId)
  <-> exists key k obj,
        (key = weekOf \/ key = monthOf)
        /\ Map_get k (fold_left (accumulate key) (filteredLogs logs studentId) [])
            = Some obj
        /\ td = toTrend (k, obj).
Proof.
  unfold Returned.calculateTrends, trendsFrom. cbv zeta.
  change (fold_left Returned.addLog (filteredLogs logs studentId) ([], []))
    with (Returned.trendState logs studentId).
  rewrite Array_sort_In, trendState_split. cbn [fst snd].
  rewrite in_app_iff, !in_map_iff. split.
  - intros [([k obj] & <- & Hin)|([k obj] & <- & Hin)].
    + exists weekOf, k, obj. split_and!; [by left| |done].
      apply Map_In_get; [apply accumulated_NoDup|done].
    + exists monthOf, k, obj. split_and!; [by right| |done].
      apply Map_In_get; [apply accumulated_NoDup|done].
  - intros (key & k & obj & [->| ->] & Hget & ->); [left|right];
      exists (k, obj); split; try done; by apply Map_get_In.
Qed.

End Trends.

(** C5: every entry of the output of a call of [calculateTrends] that
    returns is the bucket of one granularity (week or month) for a key that
    at least one of the selected records has; for each category with at least one score entry in the
    bucket, [scores] holds the plain mean (sum over count) of all the
    bucket's score entries for that category, and no property for the other
    categories; [totalObservations] is the number of category-score entries
    of the bucket's records, so a record with three scores counts three. *)
Theorem trend_bucket `{Host} (logs : list ObservationLog.t) (studentId : option string)
    (trends : list TrendData.t) (td : TrendData.t) :
  calculateTrends logs studentId = Normal trends ->
  In td trends ->
  let records := filteredLogs logs studentId in
  exists key,
    (key = weekOf \/ key = monthOf)
    /\ bucketLogs key (TrendData.period td) records <> []
    /\ (forall c,
          TrendData.scores td !! c
          = match bucketScores key (TrendData.period td) c records with
            | [] => None
            | entries => Some (sum entries / nat2F (length entries))%float
            end)
    /\ TrendData.totalObservations td
        = length (bucketEntries key (TrendData.period td) records)
    /\ length (bucketEntries key (TrendData.period td) records)
        = list_sum (map (fun log => length (entriesOf log))
                      (bucketLogs key (TrendData.period td) records)).
Proof.
  intros Htrends Htd records.
  apply calculateTrends_returns in Htrends. subst trends.
  apply calculateTrends_In in Htd as (key & k & obj & Hkey & Hget & ->).
  exists key. split; [done|].
  pose proof (accumulated key records k) as Hacc. fold records in Hget.
  rewrite Hget in Hacc. destruct Hacc as (Hne & Hobj & Hcount).
  cbn [toTrend TrendData.period TrendData.scores TrendData.totalObservations fst snd].
  split_and!; [done| |done|].
  - intros c. rewrite lookup_fmap, Hobj.
    by destruct (bucketScores key k c records).
  - unfold bucketEntries. clear Hne.
    induction (bucketLogs key k records) as [|log l IH]; [done|].
    simpl. rewrite length_app. by rewrite IH.
Qed.

Lemma trend_bucket_witness :
  let records := filteredLogs Examples.notes None in
  let td := Examples.firstTrend in
  exists key,
    (key = weekOf (H := UTCHost.host) \/ key = monthOf (H := UTCHost.host))
    /\ bucketLogs key (TrendData.period td) records <> []
    /\ (forall c,
          TrendData.scores td !! c
          = match bucketScores key (TrendData.period td) c records with
            | [] => None
            | entries => Some (sum entries / nat2F (length entries))%float
            end)
    /\ TrendData.totalObservations td
        = length (bucketEntries key (TrendData.period td) records)
    /\ length (bucketEntries key (TrendData.period td) records)
        = list_sum (map (fun log => length (entriesOf log))
                      (bucketLogs key (TrendData.period td) records)).
Proof.
  apply (trend_bucket (H := UTCHost.host) Examples.notes None
           (Examples.returned (calculateTrends (H := UTCHost.host) Examples.notes None))
           Examples.firstTrend).
  - vm_compute. reflexivity.
  - vm_compute. left. reflexivity.
Defined.

(** The first bucket of the sample: the week "2024-W02" holds a record of
    three scores and a record of one, so it counts four observations, and
    its "Cognitive Skills" score is the mean of 2 and 3. *)
Example trend_bucket_sample :
  TrendData.period Examples.firstTrend = "2024-W02"
  /\ TrendData.scores Examples.firstTrend !! "Cognitive Skills" = Some 2.5%float
  /\ TrendData.totalObservations Examples.firstTrend = 4%nat.
Proof. vm_compute. repeat split; reflexivity. Qed.

(** C10 (as amended): when no score entry of the selected records is
    filed under the name of a member inherited from [Object.prototype],
    [calculateTrends] returns, and for every record that passes the
    [studentId] filter (every record when no filter is given) and whose
    [categories] is absent or empty, the output has an entry for the
    record's week key and one for its month key; each of them has an empty
    [scores] map and [totalObservations = 0] when no record of that bucket
    carries a score entry. *)
Theorem empty_bucket `{Host} (logs : list ObservationLog.t) (studentId : option string)
    (log : ObservationLog.t) :
  In log (filteredLogs logs studentId) ->
  ObservationLog.categories log = None \/ ObservationLog.categories log = Some [] ->
  plainEntries (filteredLogs logs studentId) ->
  exists trends,
    calculateTrends logs studentId = Normal trends
    /\ let records := filteredLogs logs studentId in
       forall key, key = weekOf \/ key = monthOf ->
         exists td, In td trends
           /\ TrendData.period td = key log
           /\ (bucketEntries key (key log) records = [] ->
               TrendData.scores td = ∅ /\ TrendData.totalObservations td = 0%nat).
Proof.
  intros Hin _ Hplain. exists (Returned.calculateTrends logs studentId).
  split; [by apply calculateTrends_plain|]. intros records key Hkey.
  pose proof (accumulated key records (key log)) as Hacc.
  destruct (Map_get (key log) (fold_left (accumulate key) records [])) as [obj|] eqn:Hget.
  2: { exfalso. assert (Hb : In log (bucketLogs key (key log) records)).
       { apply filter_In. split; [done|]. by apply bool_decide_eq_true. }
       by rewrite Hacc in Hb. }
  destruct Hacc as (_ & Hobj & Hcount).
  exists (toTrend (key log, obj)). split_and!.
  - apply calculateTrends_In. by exists key, (key log), obj.
  - done.
  - intros Hempty. cbn [toTrend TrendData.scores TrendData.totalObservations fst snd].
    split; [|by rewrite Hcount, Hempty].
    apply map_eq. intros c. rewrite lookup_fmap, Hobj, lookup_empty.
    unfold bucketScores. by rewrite Hempty.
Qed.

(** The record of the sample without [categories] has its week bucket and
    its month bucket in the output. *)
Lemma empty_bucket_witness :
  exists trends,
    calculateTrends (H := UTCHost.host) Examples.notes None = Normal trends
    /\ let records := filteredLogs Examples.notes None in
       forall key, key = weekOf (H := UTCHost.host) \/ key = monthOf (H := UTCHost.host) ->
         exists td, In td trends
           /\ TrendData.period td = key Examples.bare
           /\ (bucketEntries key (key Examples.bare) records = [] ->
               TrendData.scores td = ∅ /\ TrendData.totalObservations td = 0%nat).
Proof.
  apply (empty_bucket (H := UTCHost.host) Examples.notes None Examples.bare).
  - vm_compute. right. right. left. reflexivity.
  - by left.
  - intros log cs Hlog Hcs.
    repeat (destruct Hlog as [<-|Hlog];
            [repeat (destruct Hcs as [<-|Hcs]; [vm_compute; reflexivity|]);
             by destruct Hcs|]).
    by destruct Hlog.
Defined.

(** In the sample, the record without [categories] and the record with an
    empty array each sit alone in their buckets: four entries of the output
    have no score and count no observation. *)
Example empty_bucket_sample :
  map (fun td => (TrendData.period td, map_to_list (TrendData.scores td),
                  TrendData.totalObservations td))
    <$> calculateTrends (H := UTCHost.host) Examples.notes None
  = Normal
    [ ("2024-W02", [("Social Skills", 4%float); ("Cognitive Skills", 2.5%float);
                    ("Creativity", 5%float)], 4%nat);
      ("2024-W05", [], 0%nat);
      ("2024-W03", [], 0%nat);
      ("2024-03", [("Social Skills", 4%float); ("Cognitive Skills", 2.5%float);
                   ("Creativity", 5%float)], 4%nat);
      ("2024-04", [], 0%nat);
      ("2024-05", [], 0%nat) ].
Proof. vm_compute. reflexivity. Qed.

(** C10 as stated fails in two ways.  With a [studentId] filter that a
    record without [categories] does not pass, no bucket is created for
    it.  And when another record files a score under "toString", the call
    throws a TypeError and returns no entry at all. *)
Lemma empty_bucket_counterexample :
  In Examples.bare [Examples.bare]
  /\ ObservationLog.categories Examples.bare = None
  /\ calculateTrends (H := UTCHost.host) [Examples.bare] (Some "1") = Normal []
  /\ In Examples.bare [Examples.bare; Examples.odd]
  /\ calculateTrends (H := UTCHost.host) [Examples.bare; Examples.odd] None
     = Throw_TypeError.
Proof. vm_compute. split_and!; [by left|done|done|by left|done]. Qed.

(** ** The calendar *)

Section Calendar.

Lemma DayFromYear_mean y :
  146097 * (y - 1970) - 506 <= 400 * DayFromYear y <= 146097 * (y - 1970) + 589.
Proof. unfold DayFromYear. Z.div_mod_to_equations. lia. Qed.

Lemma DayFromYear_step y :
  DayFromYear (y + 1) = DayFromYear y + (if isLeapYear y then 366 else 365).
Proof.
  unfold DayFromYear, isLeapYear.
  destruct (y mod 4 =? 0) eqn:E4; destruct (y mod 100 =? 0) eqn:E100;
    destruct (y mod 400 =? 0) eqn:E400; simpl;
    rewrite ?Z.eqb_eq, ?Z.eqb_neq in *; Z.div_mod_to_equations; lia.
Qed.

(** [YearFromTime t] is the year whose days contain [Day t]. *)
Lemma YearFromTime_spec t :
  DayFromYear (YearFromTime t) <= Day t < DayFromYear (YearFromTime t + 1).
Proof.
  unfold YearFromTime. generalize (Day t) as d. intros d. cbv zeta.
  set (q := d * 400 / 146097).
  assert (Hq : 146097 * q <= 400 * d < 146097 * q + 146097)
    by (unfold q; Z.div_mod_to_equations; lia).
  clearbody q.
  pose proof (DayFromYear_mean (1970 + q)).
  pose proof (DayFromYear_mean (1970 + q + 1)).
  pose proof (DayFromYear_mean (1970 + q + 1 + 1)).
  pose proof (DayFromYear_mean (1970 + q - 1)).
  destruct (DayFromYear (1970 + q + 1) <=? d) eqn:E1;
    [|destruct (d <? DayFromYear (1970 + q)) eqn:E2].
  - apply Z.leb_le in E1. lia.
  - apply Z.leb_gt in E1. apply Z.ltb_lt in E2.
    replace (1970 + q - 1 + 1) with (1970 + q) by lia. lia.
  - apply Z.leb_gt in E1. apply Z.ltb_ge in E2. lia.
Qed.

Lemma DayWithinYear_range t :
  0 <= DayWithinYear t < (if InLeapYear t then 366 else 365).
Proof.
  unfold DayWithinYear, InLeapYear. pose proof (YearFromTime_spec t) as Hy.
  rewrite DayFromYear_step in Hy. lia.
Qed.

Lemma MonthFromTime_range t : 0 <= MonthFromTime t <= 11.
Proof.
  unfold MonthFromTime, monthOfDay.
  repeat match goal with |- context [if ?b then _ else _] => destruct b end; lia.
Qed.

Lemma DateFromTime_range t : 1 <= DateFromTime t <= 31.
Proof.
  unfold DateFromTime, MonthFromTime, monthOfDay.
  pose proof (DayWithinYear_range t) as Hd. revert Hd.
  generalize (DayWithinYear t) as d. intros d.
  destruct (InLeapYear t); simpl; intros Hd;
    repeat match goal with
           | |- context [if ?a <? ?b then _ else _] =>
               destruct (Z.ltb_spec a b)
           end; simpl; lia.
Qed.

Lemma WeekDay_range t : 0 <= WeekDay t <= 6.
Proof. unfold WeekDay. Z.div_mod_to_equations. lia. Qed.

(** The day number of the first of the month, rebuilt from year and
    month, is the day of the instant moved back to the first. *)
Lemma MakeDay_monthStart lt :
  MakeDay (YearFromTime lt) (MonthFromTime lt) 1 = Day (monthStartOf lt).
Proof.
  pose proof (MonthFromTime_range lt) as Hm.
  unfold MakeDay, monthStartOf.
  replace (MonthFromTime lt / 12) with 0 by (Z.div_mod_to_equations; lia).
  replace (MonthFromTime lt mod 12) with (MonthFromTime lt)
    by (Z.div_mod_to_equations; lia).
  rewrite Z.add_0_r.
  assert (Hday : Day (lt - (DateFromTime lt - 1) * msPerDay)
                 = Day lt - (DateFromTime lt - 1)).
  { unfold Day, msPerDay. Z.div_mod_to_equations. lia. }
  rewrite Hday. unfold DateFromTime, DayWithinYear, InLeapYear. lia.
Qed.

End Calendar.

(** ** Bucket keys *)

Section Keys.
Context `{Host}.

(** [Math.ceil(n / 7)] on the doubles is the integer ceiling for the sums
    that can occur (a day of month plus a weekday), and the result prints
    as one digit, which [padStart] completes with a zero. *)
Lemma week_number n :
  1 <= n <= 37 ->
  padStart2 (numberToString (Math_ceil (optZ2F (Some n) / 7)%float))
  = "0" +:+ pretty ((n + 6) / 7).
Proof.
  intros Hn.
  assert (Hall : forallb (fun n =>
            bool_decide (padStart2 (numberToString (Math_ceil (optZ2F (Some n) / 7)%float))
                         = "0" +:+ pretty ((n + 6) / 7)))
            (map Z.of_nat (seq 1 37)) = true) by (vm_compute; reflexivity).
  rewrite forallb_forall in Hall.
  apply (bool_decide_unpack _), Is_true_true, Hall.
  replace n with (Z.of_nat (Z.to_nat n)) by lia.
  apply in_map, in_seq. lia.
Qed.

Lemma month_number m :
  1 <= m <= 12 -> String.length (padStart2 (pretty m)) = 2%nat.
Proof.
  intros Hm.
  assert (Hall : forallb (fun m => bool_decide (String.length (padStart2 (pretty m)) = 2%nat))
            (map Z.of_nat (seq 1 12)) = true) by (vm_compute; reflexivity).
  rewrite forallb_forall in Hall.
  apply (bool_decide_unpack _), Is_true_true, Hall.
  replace m with (Z.of_nat (Z.to_nat m)) by lia.
  apply in_map, in_seq. lia.
Qed.

Lemma weekOfMonth_range lt : 1 <= weekOfMonth lt <= 6.
Proof.
  unfold weekOfMonth.
  pose proof (DateFromTime_range lt). pose proof (WeekDay_range (monthStartOf lt)).
  Z.div_mod_to_equations. lia.
Qed.

End Keys.

(** C8 (as amended): for every valid instant whose local year is not one of
    0..99 (and after the year -271821, where the representable range
    begins), the week key is the year in plain decimal, ["-W"], and the two
    digits of [ceil((dayOfMonth + weekday of the first day of the instant's
    month) / 7)], a number from 1 to 6 that is 1 again on the first day of
    every month; the month key is the year, ["-"] and the two digits of the
    calendar month. *)
Theorem bucket_keys `{Host} (t : Z) :
  let lt := LocalTime t in
  let y := YearFromTime lt in
  Z.abs lt <= 8640000000000000 ->
  -271821 < y < 0 \/ 99 < y ->
  getWeekKey (TimeValue t) = pretty y +:+ "-W0" +:+ pretty (weekOfMonth lt)
  /\ 1 <= weekOfMonth lt <= 6
  /\ (DateFromTime lt = 1 -> weekOfMonth lt = 1)
  /\ getMonthKey (TimeValue t) = pretty y +:+ "-" +:+ padStart2 (pretty (MonthFromTime lt + 1))
  /\ 1 <= MonthFromTime lt + 1 <= 12
  /\ String.length (padStart2 (pretty (MonthFromTime lt + 1))) = 2%nat.
Proof.
  intros lt y Hvalid Hyear.
  pose proof (MonthFromTime_range lt) as Hm.
  pose proof (DateFromTime_range lt) as Hd.
  pose proof (WeekDay_range (monthStartOf lt)) as Hw.
  split; [|split; [|split; [|split; [|split]]]].
  - unfold getWeekKey, getFullYear, getMonth, getDate, monthStartDate.
    fold lt. fold y.
    assert (Hlegacy : (0 <=? y) && (y <=? 99) = false).
    { apply andb_false_iff. rewrite Z.leb_gt, Z.leb_gt. lia. }
    rewrite Hlegacy. unfold y. rewrite MakeDay_monthStart.
    assert (Hclip : clipDate (MakeDate (Day (monthStartOf lt)) 0)
                    = TimeValue (MakeDate (Day (monthStartOf lt)) 0)).
    { unfold clipDate.
      assert (Hrange : Z.abs (MakeDate (Day (monthStartOf lt)) 0) <= 8640000000000000);
        [|by apply Z.ltb_ge in Hrange; rewrite Hrange].
      rewrite <- MakeDay_monthStart. fold y.
      pose proof (YearFromTime_spec lt) as Hy. fold y in Hy.
      pose proof (DayFromYear_mean y) as Hmean.
      assert (Hday : MakeDay y (MonthFromTime lt) 1 = Day lt - (DateFromTime lt - 1)).
      { unfold y. rewrite MakeDay_monthStart. unfold monthStartOf, Day, msPerDay.
        Z.div_mod_to_equations. lia. }
      assert (Hlow : DayFromYear y <= MakeDay y (MonthFromTime lt) 1).
      { rewrite Hday. unfold DateFromTime, DayWithinYear. fold y.
        assert (0 <= monthStart (InLeapYear lt) (MonthFromTime lt)); [|lia].
        unfold monthStart.
        destruct (InLeapYear lt);
          repeat match goal with |- context [match ?m with _ => _ end] => destruct m end;
          lia. }
      unfold MakeDate. rewrite Hday in *. unfold Day, msPerDay in *.
      Z.div_mod_to_equations. lia. }
    rewrite Hclip. unfold localDay, addOpt.
    assert (Hwd : WeekDay (MakeDate (Day (monthStartOf lt)) 0) = WeekDay (monthStartOf lt)).
    { unfold WeekDay. f_equal. f_equal. unfold MakeDate, Day, msPerDay.
      Z.div_mod_to_equations. lia. }
    rewrite Hwd, week_number by lia.
    unfold weekOfMonth, intToString. done.
  - apply weekOfMonth_range.
  - intros Hfirst. unfold weekOfMonth. rewrite Hfirst. Z.div_mod_to_equations. lia.
  - unfold getMonthKey, getFullYear, getMonth, addOpt, intToString. done.
  - lia.
  - apply month_number. lia.
Qed.

Lemma bucket_keys_witness :
  getWeekKey (H := UTCHost.host) (TimeValue Examples.march2024) = "2024-W02"
  /\ getMonthKey (H := UTCHost.host) (TimeValue Examples.march2024) = "2024-03".
Proof.
  assert (Hvalid : Z.abs (LocalTime (H := UTCHost.host) Examples.march2024)
                   <= 8640000000000000) by (vm_compute; discriminate).
  assert (Hyear : -271821 < YearFromTime (LocalTime (H := UTCHost.host) Examples.march2024) < 0
                  \/ 99 < YearFromTime (LocalTime (H := UTCHost.host) Examples.march2024))
    by (right; vm_compute; reflexivity).
  destruct (bucket_keys (H := UTCHost.host) Examples.march2024 Hvalid Hyear)
    as (Hweek & _ & _ & Hmonth & _).
  rewrite Hweek, Hmonth. vm_compute. split; reflexivity.
Defined.

(** C8 as stated fails for an instant of the year 50: 5 March 0050 is in a
    month that starts on a Tuesday, so the stated week number is
    [ceil((5 + 2) / 7) = 1]; the function rebuilds the month start with
    [new Date(50, 2, 1)], which is 1 March 1950, a Wednesday, and returns
    week 2, after a year that is not written with four digits. *)
Lemma bucket_keys_counterexample :
  let t := Examples.march50 in
  let lt := LocalTime (H := UTCHost.host) t in
  Date_ofString (H := UTCHost.host) "0050-03-05T00:00:00.000Z" = TimeValue t
  /\ Z.abs lt <= 8640000000000000
  /\ (YearFromTime lt, MonthFromTime lt, DateFromTime lt) = (50, 2, 5)
  /\ WeekDay (monthStartOf lt) = 2
  /\ weekOfMonth lt = 1
  /\ localDay (monthStartDate (Some 50) (Some 2)) = Some 3
  /\ getWeekKey (H := UTCHost.host) (TimeValue t) = "50-W02".
Proof. vm_compute. split_and!; first [reflexivity | discriminate]. Qed.

(** * Further properties *)

(** ** The order of the alerts *)

Section AlertOrder.
Context `{Host}.




End AlertOrder.


(** ** What the alerts are about *)

Section Products.
Context {A B : Type}.

Lemma NoDup_flat_map (f : A -> list B) (l : list A) :
  NoDup l ->
  (forall x, In x l -> NoDup (f x)) ->
  (forall x y z, In x l -> In y l -> In z (f x) -> In z (f y) -> x = y) ->
  NoDup (flat_map f l).
Proof.
  induction 1 as [|x l Hx Hl IH]; intros Hf Hdisj; simpl; [constructor|].
  apply NoDup_app. split_and!.
  - apply Hf. by left.
  - intros z Hz%list_elem_of_In Hz'%list_elem_of_In.
    apply in_flat_map in Hz' as (y & Hy & Hzy).
    assert (x = y) as ->.
    { apply (Hdisj x y z); [by left|by right|done|done]. }
    by apply Hx, list_elem_of_In.
  - apply IH.
    + intros y Hy. apply Hf. by right.
    + intros y y' z Hy Hy'. apply Hdisj; by right.
Qed.

Lemma sublist_flat_map (f g : A -> list B) (l : list A) :
  (forall x, f x `sublist_of` g x) -> flat_map f l `sublist_of` flat_map g l.
Proof.
  intros Hfg. induction l as [|x l IH]; simpl; [constructor|]. by apply sublist_app.
Qed.

End Products.

Lemma map_flat_map {A B C} (f : B -> C) (g : A -> list B) (l : list A) :
  map f (flat_map g l) = flat_map (fun x => map f (g x)) l.
Proof. induction l as [|x l IH]; simpl; [done|]. by rewrite map_app, IH. Qed.

Lemma flat_map_map {A B C} (f : A -> B) (g : B -> list C) (l : list A) :
  flat_map g (map f l) = flat_map (fun x => g (f x)) l.
Proof. induction l as [|x l IH]; simpl; [done|]. by rewrite IH. Qed.

Section AlertKeys.
Context `{Host}.

Lemma checkCategory_keys sid name studentLogs c :
  map alertKey (checkCategory sid name studentLogs [] c) `sublist_of` pairKeys sid c.
Proof.
  unfold checkCategory, pairKeys. destruct (3 <=? length _)%nat; [|apply sublist_nil_l].
  rewrite checkThreshold_push, map_app.
  change [(sid, c, decline); (sid, c, threshold)]
    with ([(sid, c, decline)] ++ [(sid, c, threshold)]).
  apply sublist_app.
  - unfold checkDecline.
    repeat match goal with |- context [if ?b then _ else _] => destruct b end;
      simpl; try apply sublist_nil_l. by constructor.
  - unfold checkThreshold. destruct (Array_last _) as [cur|]; [|apply sublist_nil_l].
    destruct (cur <? 2.5)%float; simpl; [by constructor|apply sublist_nil_l].
Qed.

Lemma checkStudent_keys entry :
  map alertKey (checkStudent [] entry)
  `sublist_of` flat_map (pairKeys entry.1) categories.
Proof.
  unfold checkStudent. destruct entry.2 as [|first rest]; [apply sublist_nil_l|].
  rewrite (fold_left_push _ _ (checkCategory_push _ _ _)), app_nil_l.
  rewrite map_flat_map. apply sublist_flat_map. intros c. apply checkCategory_keys.
Qed.

Lemma pairKeys_NoDup (ids : list string) :
  NoDup ids -> NoDup (flat_map (fun sid => flat_map (pairKeys sid) categories) ids).
Proof.
  intros Hids. apply NoDup_flat_map; [done| |].
  - intros sid _. apply NoDup_flat_map; [apply NoDup_categories| |].
    + intros c _. unfold pairKeys. apply NoDup_cons. split; [|apply NoDup_singleton].
      by intros [=]%list_elem_of_singleton.
    + intros c c' z _ _ Hz Hz'. unfold pairKeys in *. simpl in *.
      destruct Hz as [<-|[<-|[]]], Hz' as [[=]|[[=]|[]]]; done.
  - intros sid sid' z _ _ (c & _ & Hz)%in_flat_map (c' & _ & Hz')%in_flat_map.
    unfold pairKeys in *. simpl in *.
    destruct Hz as [<-|[<-|[]]], Hz' as [[=]|[[=]|[]]]; done.
Qed.

Lemma pushedAlerts_keys logs :
  map alertKey (pushedAlerts logs)
  `sublist_of` flat_map (fun sid => flat_map (pairKeys sid) categories)
                 (Map_keys (logsByStudent logs)).
Proof.
  rewrite pushedAlerts_flat, map_flat_map. unfold Map_keys. rewrite flat_map_map.
  apply sublist_flat_map. intros entry. apply checkStudent_keys.
Qed.

Lemma alertKeys_NoDup logs : NoDup (map alertKey (generateInterventionAlerts logs)).
Proof.
  unfold generateInterventionAlerts.
  rewrite (Permutation_map alertKey (Array_sort_perm bySeverityDesc (pushedAlerts logs))).
  eapply sublist_NoDup; [|apply pushedAlerts_keys].
  apply pairKeys_NoDup, logsByStudent_NoDup.
Qed.

End AlertKeys.

Section AlertShape.
Context `{Host}.

Lemma alert_origin logs a :
  In a (generateInterventionAlerts logs) ->
  exists first rest scores,
    studentLogsOf (InterventionAlert.studentId a) logs = first :: rest
    /\ In (InterventionAlert.category a) categories
    /\ InterventionAlert.studentName a = ObservationLog.studentName first
    /\ (In a (checkDecline (InterventionAlert.studentId a) (ObservationLog.studentName first)
                (InterventionAlert.category a) scores [])
        \/ In a (checkThreshold (InterventionAlert.studentId a)
                   (ObservationLog.studentName first)
                   (InterventionAlert.category a) scores [])).
Proof.
  intros (sid & first & rest & c & Hlogs & Hc & Ha)%generateInterventionAlerts_In.
  apply checkCategory_fields in Ha as Hf. destruct Hf as (<- & <- & Hname).
  exists first, rest. unfold checkCategory in Ha.
  destruct (3 <=? length _)%nat; [|done].
  rewrite checkThreshold_push in Ha. apply in_app_iff in Ha.
  eexists. split_and!; [done|done|done|exact Ha].
Qed.

Lemma alert_kind logs a :
  In a (generateInterventionAlerts logs) ->
  In (InterventionAlert.category a) categories
  /\ (InterventionAlert.alertType a = decline \/ InterventionAlert.alertType a = threshold).
Proof.
  intros (first & rest & scores & _ & Hc & _ & Ha)%alert_origin. split; [done|].
  destruct Ha as [Ha|Ha].
  - apply checkDecline_In in Ha as (_ & _ & _ & Heq). left.
    set (sid := InterventionAlert.studentId a) in *.
    set (c := InterventionAlert.category a) in *. clearbody sid c. by subst a.
  - apply checkThreshold_In in Ha as (cur & _ & _ & Heq). right.
    set (sid := InterventionAlert.studentId a) in *.
    set (c := InterventionAlert.category a) in *. clearbody sid c. by subst a.
Qed.

End AlertShape.

(** X2: every alert of the output is a decline alert or a threshold alert
    (never an improvement alert) for a student of the input and one of the
    five categories, and carries the name on the student's first record.  A
    threshold alert has a score below 2.5, the threshold 2.5 and the trend
    0; a decline alert has a trend above 0.5 that is its threshold minus
    its score. *)
Theorem alerts_shape `{Host} (logs : list ObservationLog.t) :
  Forall (fun a =>
    In (InterventionAlert.category a) categories
    /\ (exists first rest,
          studentLogsOf (InterventionAlert.studentId a) logs = first :: rest
          /\ InterventionAlert.studentName a = ObservationLog.studentName first)
    /\ match InterventionAlert.alertType a with
       | threshold =>
           (InterventionAlert.score a <? 2.5)%float = true
           /\ InterventionAlert.threshold a = 2.5%float
           /\ InterventionAlert.trend a = 0%float
           /\ InterventionAlert.severity a = thresholdSeverity (InterventionAlert.score a)
       | decline =>
           (0.5 <? InterventionAlert.trend a)%float = true
           /\ InterventionAlert.trend a
              = (InterventionAlert.threshold a - InterventionAlert.score a)%float
           /\ InterventionAlert.severity a = declineSeverity (InterventionAlert.trend a)
       | improvement => False
       end)
    (generateInterventionAlerts logs).
Proof.
  apply Forall_forall. intros a Ha%list_elem_of_In.
  apply alert_origin in Ha as (first & rest & scores & Hlogs & Hc & Hname & Ha).
  split; [done|]. split; [by exists first, rest|].
  destruct Ha as [Ha|Ha].
  - apply checkDecline_In in Ha as (_ & _ & Hd & Heq).
    set (sid := InterventionAlert.studentId a) in *.
    set (c := InterventionAlert.category a) in *. clearbody sid c.
    subst a. by cbn.
  - apply checkThreshold_In in Ha as (cur & _ & Hlt & Heq).
    set (sid := InterventionAlert.studentId a) in *.
    set (c := InterventionAlert.category a) in *. clearbody sid c.
    subst a. by cbn.
Qed.

Lemma NoDup_map_filter {A B} (f : A -> B) (p : A -> bool) (l : list A) :
  NoDup (map f l) -> NoDup (map f (List.filter p l)).
Proof.
  induction l as [|x l IH]; simpl; [done|].
  intros [Hx Hl]%NoDup_cons. destruct (p x); simpl; [|by apply IH].
  apply NoDup_cons. split; [|by apply IH].
  intros Hin%list_elem_of_In. apply Hx, list_elem_of_In.
  apply in_map_iff in Hin as (y & Hy & Hin). apply filter_In in Hin as [Hin _].
  apply in_map_iff. by exists y.
Qed.

(** X3: the output holds at most one alert of each type for each pair of
    student and category, hence no more than ten alerts for one student. *)
Theorem alerts_unique `{Host} (logs : list ObservationLog.t) :
  NoDup (map alertKey (generateInterventionAlerts logs))
  /\ forall sid,
       (length (List.filter (fun a => bool_decide (InterventionAlert.studentId a = sid))
                  (generateInterventionAlerts logs)) <= 10)%nat.
Proof.
  split; [apply alertKeys_NoDup|]. intros sid.
  set (mine := List.filter _ _).
  rewrite <- (length_map alertKey mine).
  change 10%nat with (length (flat_map (pairKeys sid) categories)).
  apply submseteq_length, NoDup_submseteq.
  - unfold mine. apply NoDup_map_filter, alertKeys_NoDup.
  - intros k (a & <- & Ha)%list_elem_of_In%in_map_iff. apply list_elem_of_In.
    apply filter_In in Ha as [Ha Hsid].
    apply bool_decide_eq_true in Hsid.
    pose proof (alert_kind logs a Ha) as (Hc & Hty).
    apply in_flat_map. exists (InterventionAlert.category a). split; [done|].
    unfold pairKeys, alertKey. rewrite Hsid. simpl.
    destruct Hty as [-> | ->]; auto.
Qed.

(** ** The keys of a Map filled by a loop *)

Section MapKeys.
Context {V X : Type}.

Lemma Map_init_keys k (v : V) (m : JSMap V) :
  Map_keys (if Map_has k m then m else Map_set k v m)
  = if bool_decide (k ∈ Map_keys m) then Map_keys m else Map_keys m ++ [k].
Proof.
  destruct (Map_has k m) eqn:E.
  - apply Map_has_true in E. by rewrite bool_decide_true by by apply list_elem_of_In.
  - apply Map_has_false in E as Hout. rewrite Map_set_absent by done.
    rewrite bool_decide_false by (by intros ?%list_elem_of_In).
    unfold Map_keys. by rewrite map_app.
Qed.

(** A loop that creates the entry of each element's key when it is missing
    leaves the keys in the order of their first occurrence. *)
Lemma fold_left_keys (step : JSMap V -> X -> JSMap V) (key : X -> string) :
  (forall m x, Map_keys (step m x)
               = if bool_decide (key x ∈ Map_keys m) then Map_keys m
                 else Map_keys m ++ [key x]) ->
  forall l, Map_keys (fold_left step l []) = firstOccurrences (map key l).
Proof.
  intros Hstep l. unfold firstOccurrences.
  change (@nil string) with (Map_keys (@nil (string * V))) at 2.
  generalize (@nil (string * V)) as m.
  induction l as [|x l IH]; intros m; simpl; [done|].
  by rewrite IH, Hstep.
Qed.

End MapKeys.

Lemma firstOccurrences_NoDup l : NoDup (firstOccurrences l).
Proof.
  unfold firstOccurrences. apply fold_left_invariant; [constructor|].
  intros seen x Hnd. destruct (bool_decide (x ∈ seen)) eqn:E; [done|].
  apply bool_decide_eq_false in E.
  apply NoDup_app. split_and!; [done| |apply NoDup_singleton].
  by intros y Hy ->%list_elem_of_singleton.
Qed.

Lemma firstOccurrences_In l x : In x (firstOccurrences l) <-> In x l.
Proof.
  unfold firstOccurrences.
  assert (Hgen : forall seen, In x (fold_left (fun seen x =>
                     if bool_decide (x ∈ seen) then seen else seen ++ [x]) l seen)
                   <-> In x seen \/ In x l).
  { induction l as [|y l IH]; intros seen; simpl; [tauto|].
    rewrite IH. destruct (bool_decide (y ∈ seen)) eqn:E.
    - apply bool_decide_eq_true, list_elem_of_In in E. split; [tauto|].
      intros [?|[<-|?]]; auto.
    - rewrite in_app_iff. simpl. tauto. }
  rewrite Hgen. simpl. tauto.
Qed.

Section TrendPeriods.
Context `{Host}.

Lemma accumulate_keys (key : ObservationLog.t -> string) data log :
  Map_keys (accumulate key data log)
  = if bool_decide (key log ∈ Map_keys data) then Map_keys data
    else Map_keys data ++ [key log].
Proof.
  unfold accumulate. rewrite pushEntry_fold, Map_update_keys. apply Map_init_keys.
Qed.

Lemma accumulated_keys (key : ObservationLog.t -> string) logs :
  Map_keys (fold_left (accumulate key) logs []) = firstOccurrences (map key logs).
Proof. apply fold_left_keys, accumulate_keys. Qed.

Lemma toTrend_periods (data : JSMap (gmap string (list float))) :
  map TrendData.period (map toTrend data) = Map_keys data.
Proof. rewrite map_map. done. Qed.

End TrendPeriods.

(** X5: the output of a call of [calculateTrends] that returns has one
    entry for each distinct week key and one for each distinct month key
    of the selected records, and no other; in particular it is empty when
    no record is selected. *)
Theorem trend_periods `{Host} (logs : list ObservationLog.t) (studentId : option string)
    (trends : list TrendData.t) :
  calculateTrends logs studentId = Normal trends ->
  let records := filteredLogs logs studentId in
  Permutation (map TrendData.period trends)
    (firstOccurrences (map weekOf records) ++ firstOccurrences (map monthOf records)).
Proof.
  intros ->%calculateTrends_returns records.
  unfold Returned.calculateTrends, trendsFrom. cbv zeta.
  rewrite trendState_split. cbn [fst snd]. fold records.
  rewrite (Permutation_map _ (Array_sort_perm _ _)).
  by rewrite map_app, !toTrend_periods, !accumulated_keys.
Qed.

Lemma trend_periods_witness :
  let records := filteredLogs Examples.notes None in
  Permutation
    (map TrendData.period
       (Examples.returned (calculateTrends (H := UTCHost.host) Examples.notes None)))
    (firstOccurrences (map (weekOf (H := UTCHost.host)) records)
     ++ firstOccurrences (map (monthOf (H := UTCHost.host)) records)).
Proof.
  apply (trend_periods (H := UTCHost.host) Examples.notes None).
  vm_compute. reflexivity.
Defined.

(** ** Every score entry is counted once per granularity *)

Section Conservation.
Context `{Host}.
Implicit Types (data : JSMap (gmap string (list float))).

(** The entries counted by all the buckets of one Map. *)
Lemma counted_init k data :
  list_sum (map (fun e => countEntries e.2) (initBucket k data))
  = list_sum (map (fun e => countEntries e.2) data).
Proof.
  unfold initBucket. destruct (Map_has k data) eqn:E; [done|].
  apply Map_has_false in E. rewrite Map_set_absent by done.
  rewrite map_app, list_sum_app. simpl. unfold countEntries at 2.
  rewrite map_fold_empty. lia.
Qed.

Lemma counted_update k cats data :
  In k (Map_keys data) ->
  list_sum (map (fun e => countEntries e.2) (Map_update k (pushAll cats) data))
  = (list_sum (map (fun e => countEntries e.2) data) + length cats)%nat.
Proof.
  induction data as [|[k' obj] data IH]; simpl; [done|].
  destruct (decide (k' = k)) as [->|Hne]; simpl.
  - intros _. rewrite pushAll_count. lia.
  - intros [?|Hin]; [done|]. rewrite IH by done. lia.
Qed.

Lemma initBucket_has k data : In k (Map_keys (initBucket k data)).
Proof.
  unfold initBucket. destruct (Map_has k data) eqn:E.
  - by apply Map_has_true.
  - apply Map_has_false in E. rewrite Map_set_absent by done.
    unfold Map_keys. rewrite map_app, in_app_iff. right. by left.
Qed.

Lemma counted_accumulate (key : ObservationLog.t -> string) logs :
  list_sum (map (fun e => countEntries e.2) (fold_left (accumulate key) logs []))
  = length (flat_map entriesOf logs).
Proof.
  induction logs as [|log logs IH] using rev_ind; [done|].
  rewrite fold_left_app, flat_map_app, length_app. simpl.
  unfold accumulate at 1. rewrite pushEntry_fold.
  rewrite counted_update by apply initBucket_has.
  rewrite counted_init, IH, app_nil_r. done.
Qed.

End Conservation.

(** X6: the observation counts of the output of a call of
    [calculateTrends] that returns add up to twice the number of
    category-score entries of the selected records: every entry is counted
    in exactly one week bucket and in exactly one month bucket. *)
Theorem trend_observations_total `{Host} (logs : list ObservationLog.t)
    (studentId : option string) (trends : list TrendData.t) :
  calculateTrends logs studentId = Normal trends ->
  list_sum (map TrendData.totalObservations trends)
  = (2 * length (flat_map entriesOf (filteredLogs logs studentId)))%nat.
Proof.
  intros ->%calculateTrends_returns.
  unfold Returned.calculateTrends, trendsFrom. cbv zeta.
  rewrite trendState_split. cbn [fst snd].
  rewrite (Permutation_map _ (Array_sort_perm _ _)).
  rewrite map_app, list_sum_app, !map_map.
  cbn [toTrend TrendData.totalObservations].
  rewrite !counted_accumulate. lia.
Qed.

Lemma trend_observations_total_witness :
  list_sum (map TrendData.totalObservations
              (Examples.returned (calculateTrends (H := UTCHost.host) Examples.notes None)))
  = (2 * length (flat_map entriesOf (filteredLogs Examples.notes None)))%nat.
Proof.
  apply (trend_observations_total (H := UTCHost.host) Examples.notes None).
  vm_compute. reflexivity.
Defined.

(** ** The students of the peer comparison *)

Section MapValues.
Context {V W : Type} (f : V -> W).

(** A Map seen through a function of its values. *)
Let through (m : JSMap V) : JSMap W := map (fun e => (e.1, f e.2)) m.

Lemma through_get k m : Map_get k (through m) = f <$> Map_get k m.
Proof.
  induction m as [|[k' v] m IH]; simpl; [done|].
  destruct (decide (k' = k)); [done|apply IH].
Qed.

Lemma through_has k m : Map_has k (through m) = Map_has k m.
Proof. unfold Map_has. rewrite through_get. by destruct (Map_get k m). Qed.

Lemma through_set k v m : through (Map_set k v m) = Map_set k (f v) (through m).
Proof.
  induction m as [|[k' v'] m IH]; simpl; [done|].
  destruct (decide (k' = k)); simpl; [done|by rewrite IH].
Qed.

Lemma through_update k (g : V -> V) (g' : W -> W) m :
  (forall v, f (g v) = g' (f v)) ->
  through (Map_update k g m) = Map_update k g' (through m).
Proof.
  intros Hg. induction m as [|[k' v] m IH]; simpl; [done|].
  destruct (decide (k' = k)); simpl; [by rewrite Hg|by rewrite IH].
Qed.

End MapValues.

Lemma Map_init_get {V} k (v : V) (m : JSMap V) k' :
  Map_get k' (if Map_has k m then m else Map_set k v m)
  = if decide (k = k') then Some (default v (Map_get k' m)) else Map_get k' m.
Proof.
  destruct (Map_has k m) eqn:E.
  - destruct (decide (k = k')) as [<-|]; [|done].
    unfold Map_has in E. by destruct (Map_get k m).
  - apply Map_has_false in E as Hout. rewrite Map_set_absent by done.
    rewrite Map_get_app. simpl.
    destruct (decide (k = k')) as [<-|Hne].
    + apply Map_get_None in Hout. by rewrite Hout.
    + by destruct (Map_get k' m).
Qed.

Section Students.

(** The score arrays of the students are filled as the buckets of
    [calculateTrends] are, with the student identifier as the key. *)
Lemma collectLog_scores (st : JSMap StudentData) log :
  map (fun e => (e.1, sd_scores e.2)) (Returned.collectLog st log)
  = accumulate ObservationLog.studentId (map (fun e => (e.1, sd_scores e.2)) st) log.
Proof.
  unfold Returned.collectLog, accumulate, entriesOf, initBucket. cbv zeta.
  rewrite (through_has sd_scores).
  set (st' := if Map_has (ObservationLog.studentId log) st then st else _).
  assert (Hst' : map (fun e => (e.1, sd_scores e.2)) st'
                 = if Map_has (ObservationLog.studentId log) st
                   then map (fun e => (e.1, sd_scores e.2)) st
                   else Map_set (ObservationLog.studentId log) ∅
                          (map (fun e => (e.1, sd_scores e.2)) st)).
  { unfold st'. destruct (Map_has _ st); [done|]. by rewrite (through_set sd_scores). }
  transitivity (fold_left (pushEntry (ObservationLog.studentId log))
                  (default [] (ObservationLog.categories log))
                  (map (fun e : string * StudentData => (e.1, sd_scores e.2)) st'));
    [|f_equal; exact Hst'].
  clear Hst'. clearbody st'.
  destruct (ObservationLog.categories log) as [cats|]; simpl; [|done].
  revert st'. induction cats as [|cs cats IH]; intros st'; simpl; [done|].
  rewrite IH. f_equal. unfold Returned.pushStudentScore, pushEntry.
  by apply (through_update sd_scores).
Qed.

Lemma studentMap_scores logs :
  map (fun e => (e.1, sd_scores e.2)) (Returned.studentMap logs)
  = fold_left (accumulate ObservationLog.studentId) logs [].
Proof.
  unfold Returned.studentMap.
  change (@nil (string * gmap string (list float)))
    with (map (fun e : string * StudentData => (e.1, sd_scores e.2)) []).
  generalize (@nil (string * StudentData)) as st.
  induction logs as [|log logs IH]; intros st; simpl; [done|].
  by rewrite IH, collectLog_scores.
Qed.

Lemma collectLog_names (st : JSMap StudentData) log :
  map (fun e => (e.1, sd_name e.2)) (Returned.collectLog st log)
  = let names := map (fun e => (e.1, sd_name e.2)) st in
    if Map_has (ObservationLog.studentId log) names then names
    else Map_set (ObservationLog.studentId log) (ObservationLog.studentName log) names.
Proof.
  unfold Returned.collectLog. cbv zeta. rewrite (through_has sd_name).
  set (st' := if Map_has (ObservationLog.studentId log) st then st else _).
  assert (Hst' : map (fun e => (e.1, sd_name e.2)) st'
                 = if Map_has (ObservationLog.studentId log) st
                   then map (fun e => (e.1, sd_name e.2)) st
                   else Map_set (ObservationLog.studentId log) (ObservationLog.studentName log)
                          (map (fun e => (e.1, sd_name e.2)) st)).
  { unfold st'. destruct (Map_has _ st); [done|]. by rewrite (through_set sd_name). }
  transitivity (map (fun e : string * StudentData => (e.1, sd_name e.2)) st');
    [|exact Hst'].
  clear Hst'. clearbody st'.
  destruct (ObservationLog.categories log) as [cats|]; [|done].
  revert st'. induction cats as [|cs cats IH]; intros st'; simpl; [done|].
  rewrite IH. unfold Returned.pushStudentScore.
  rewrite (through_update sd_name _ _ (fun n => n)) by done.
  by apply Map_update_id.
Qed.

(** The name kept for a student is the one on the student's first record. *)
Lemma studentMap_name logs sid :
  sd_name <$> Map_get sid (Returned.studentMap logs)
  = match studentLogsOf sid logs with
    | first :: _ => Some (ObservationLog.studentName first)
    | [] => None
    end.
Proof.
  rewrite <- (through_get sd_name). unfold Returned.studentMap, studentLogsOf.
  induction logs as [|log logs IH] using rev_ind; [done|].
  rewrite fold_left_app, List.filter_app. simpl fold_left.
  rewrite collectLog_names. cbv zeta.
  etransitivity; [apply Map_init_get|]. rewrite IH. simpl List.filter.
  destruct (decide (ObservationLog.studentId log = sid)) as [Heq|Hne].
  - rewrite bool_decide_true by done. by destruct (List.filter _ logs).
  - rewrite bool_decide_false by done. by rewrite app_nil_r.
Qed.

Lemma collectLog_keys (st : JSMap StudentData) log :
  Map_keys (Returned.collectLog st log)
  = if bool_decide (ObservationLog.studentId log ∈ Map_keys st) then Map_keys st
    else Map_keys st ++ [ObservationLog.studentId log].
Proof.
  unfold Returned.collectLog. cbv zeta.
  set (st' := if Map_has (ObservationLog.studentId log) st then st else _).
  assert (Hkeys : Map_keys st'
                  = if bool_decide (ObservationLog.studentId log ∈ Map_keys st)
                    then Map_keys st else Map_keys st ++ [ObservationLog.studentId log])
    by apply Map_init_keys.
  rewrite <- Hkeys. clear Hkeys. clearbody st'.
  destruct (ObservationLog.categories log) as [cats|]; [|done].
  revert st'. induction cats as [|cs cats IH]; intros st'; simpl; [done|].
  rewrite IH. unfold Returned.pushStudentScore. apply Map_update_keys.
Qed.

Lemma studentMap_keys logs :
  Map_keys (Returned.studentMap logs) = firstOccurrences (map ObservationLog.studentId logs).
Proof. apply fold_left_keys, collectLog_keys. Qed.

Lemma assign_fold_name cohort cs st :
  PeerComparison.studentName (fold_left (assign cohort) cs st)
  = PeerComparison.studentName st.
Proof. revert st. induction cs as [|c cs IH]; intros st; simpl; [done|]. by rewrite IH. Qed.

Lemma ranked_name logs st :
  PeerComparison.studentName (ranked logs st) = PeerComparison.studentName st.
Proof. unfold ranked, setOverall. cbn [PeerComparison.studentName]. apply assign_fold_name. Qed.

Lemma rankedStudents_ids logs :
  map PeerComparison.studentId (Returned.rankedStudents logs)
  = firstOccurrences (map ObservationLog.studentId logs).
Proof.
  rewrite rankedStudents_map, map_map.
  rewrite (map_ext _ PeerComparison.studentId) by (intros; apply ranked_id).
  by rewrite studentAverages_ids, studentMap_keys.
Qed.

(** The scores of a pair, as the trend buckets see them. *)
Lemma pairEntries_scores sid c logs :
  map CategoryScore.score (pairEntries sid c logs)
  = bucketScores ObservationLog.studentId sid c logs.
Proof.
  unfold pairEntries, bucketScores, bucketEntries, bucketLogs, studentLogsOf. f_equal.
  induction (List.filter _ logs) as [|log l IH]; simpl; [done|].
  rewrite List.filter_app, IH. f_equal.
  unfold categoryEntries, entriesOf. by destruct (ObservationLog.categories log).
Qed.

Lemma studentAverages_In logs st :
  In st (Returned.studentAverages logs) ->
  PeerComparison.studentName st = studentNameOf (PeerComparison.studentId st) logs
  /\ forall c,
       PeerComparison.categoryAverages st !! c
       = match map CategoryScore.score (pairEntries (PeerComparison.studentId st) c logs) with
         | [] => None
         | scores => Some (sum scores / nat2F (length scores))%float
         end.
Proof.
  unfold Returned.studentAverages. intros ([sid d] & <- & Hin)%in_map_iff.
  apply Map_In_get in Hin; [|apply studentMap_NoDup].
  cbn [toAverages PeerComparison.studentName PeerComparison.studentId
       PeerComparison.categoryAverages fst snd].
  split.
  - pose proof (studentMap_name logs sid) as Hname. rewrite Hin in Hname.
    unfold studentNameOf. simpl in Hname.
    destruct (studentLogsOf sid logs); by simplify_eq.
  - intros c. rewrite lookup_fmap, pairEntries_scores.
    pose proof (accumulated ObservationLog.studentId logs sid) as Hacc.
    rewrite <- studentMap_scores, (through_get sd_scores), Hin in Hacc.
    simpl in Hacc. destruct Hacc as (_ & Hobj & _). rewrite Hobj.
    by destruct (bucketScores ObservationLog.studentId sid c logs).
Qed.

End Students.

(** X4: the output of a call of [calculatePeerComparison] that returns
    has exactly one entry for each distinct student identifier of the
    records.  The entry carries the name on the student's first record,
    and for every category the plain mean of all the score entries that
    the student's records hold for it, in record order (no property when
    there is none). *)
Theorem peer_students (logs : list ObservationLog.t) (out : list PeerComparison.t) :
  calculatePeerComparison logs = Normal out ->
  Permutation (map PeerComparison.studentId out)
    (firstOccurrences (map ObservationLog.studentId logs))
  /\ NoDup (map PeerComparison.studentId out)
  /\ Forall (fun p =>
       let sid := PeerComparison.studentId p in
       PeerComparison.studentName p = studentNameOf sid logs
       /\ forall c,
            PeerComparison.categoryAverages p !! c
            = match map CategoryScore.score (pairEntries sid c logs) with
              | [] => None
              | scores => Some (sum scores / nat2F (length scores))%float
              end) out.
Proof.
  intros ->%calculatePeerComparison_returns.
  set (out := Returned.calculatePeerComparison logs).
  assert (Hperm : Permutation (map PeerComparison.studentId out)
                    (firstOccurrences (map ObservationLog.studentId logs))).
  { unfold out, Returned.calculatePeerComparison.
    rewrite (Permutation_map _ (Array_sort_perm _ _)). by rewrite rankedStudents_ids. }
  split; [done|]. split.
  - rewrite Hperm. apply firstOccurrences_NoDup.
  - apply Forall_forall. intros p Hp%list_elem_of_In%calculatePeerComparison_In.
    rewrite rankedStudents_map in Hp. apply in_map_iff in Hp as (st & <- & Hst).
    cbv zeta. rewrite ranked_name, ranked_id, ranked_averages.
    by apply studentAverages_In.
Qed.

Lemma peer_students_witness :
  let out := Examples.returned (calculatePeerComparison Examples.cohort) in
  Permutation (map PeerComparison.studentId out)
    (firstOccurrences (map ObservationLog.studentId Examples.cohort))
  /\ NoDup (map PeerComparison.studentId out)
  /\ Forall (fun p =>
       let sid := PeerComparison.studentId p in
       PeerComparison.studentName p = studentNameOf sid Examples.cohort
       /\ forall c,
            PeerComparison.categoryAverages p !! c
            = match map CategoryScore.score (pairEntries sid c Examples.cohort) with
              | [] => None
              | scores => Some (sum scores / nat2F (length scores))%float
              end) out.
Proof.
  apply (peer_students Examples.cohort). vm_compute. reflexivity.
Defined.

(** * The functions on the heap

    Each function of [InPlace] leaves alone the arrays it did not create
    and has the outcome of the function of [Analytics] of the same name. *)

Import Heap Owned.

(** ** The heap *)

Section Running.
Context {A B : Type}.

Lemma bind_run (m : M A) (k : A -> M B) h :
  (m ≫= k) h
  = match m h with
    | (Normal x, h') => k x h'
    | (Throw_TypeError, h') => (Throw_TypeError, h')
    end.
Proof. done. Qed.

Lemma bind_Normal (m : M A) (k : A -> M B) h x h' :
  m h = (Normal x, h') -> (m ≫= k) h = k x h'.
Proof. intros Hm. by rewrite bind_run, Hm. Qed.

Lemma bind_Throw (m : M A) (k : A -> M B) h h' :
  m h = (Throw_TypeError, h') -> (m ≫= k) h = (Throw_TypeError, h').
Proof. intros Hm. by rewrite bind_run, Hm. Qed.

End Running.


Lemma keeps_refl n h : (n <= length h)%nat -> keeps n h h.
Proof. intros Hn. split; [lia|done]. Qed.

Lemma keeps_trans n h1 h2 h3 : keeps n h1 h2 -> keeps n h2 h3 -> keeps n h1 h3.
Proof.
  intros [Hl1 H1] [Hl2 H2]. split; [lia|].
  intros r Hr. by rewrite H2, H1.
Qed.

Lemma keeps_alloc n h a : (n <= length h)%nat -> keeps n h (h ++ [a]).
Proof.
  intros Hn. split; [rewrite length_app; simpl; lia|].
  intros r Hr. apply lookup_app_l. lia.
Qed.

Lemma keeps_assign n h r a : (n <= length h)%nat -> (n <= r)%nat -> keeps n h (<[r := a]> h).
Proof.
  intros Hn Hr. split; [rewrite length_insert; lia|].
  intros r' Hr'. apply list_lookup_insert_ne. lia.
Qed.

Lemma keeps_unchanged h h' : keeps (length h) h h' -> unchanged h h'.
Proof.
  intros [Hl Hk]. unfold unchanged. apply list_eq. intros i.
  destruct (decide (i < length h)%nat) as [Hi|Hi].
  - rewrite lookup_take_lt by done. by apply Hk.
  - rewrite lookup_take_ge by lia. symmetry. apply lookup_ge_None. lia.
Qed.

Section Cells.
Context {T : Type} `{Element T}.

Lemma get_Some h arr (l : list T) : get h arr = Some l <-> h !! arr = Some (arrayOf l).
Proof.
  unfold get. split.
  - destruct (h !! arr) as [a|]; simpl; [|done].
    intros Ha. by apply arrayOf_elementsOf in Ha as ->.
  - intros ->. simpl. apply elementsOf_arrayOf.
Qed.

Lemma alloc_run h (l : list T) : alloc l h = (Normal (length h), h ++ [arrayOf l]).
Proof. done. Qed.

Lemma elements_run h arr (l : list T) :
  h !! arr = Some (arrayOf l) -> elements arr h = (Normal l, h).
Proof. intros Ha. apply get_Some in Ha. unfold elements. by rewrite Ha. Qed.

Lemma push_run h arr (l : list T) x :
  h !! arr = Some (arrayOf l) ->
  push arr x h = (Normal tt, <[arr := arrayOf (l ++ [x])]> h).
Proof. intros Ha. unfold push. by rewrite (bind_Normal _ _ _ _ _ (elements_run _ _ _ Ha)). Qed.

Lemma sort_run h arr (l : list T) cmp :
  h !! arr = Some (arrayOf l) ->
  sort cmp arr h = (Normal arr, <[arr := arrayOf (Array_sort cmp l)]> h).
Proof. intros Ha. unfold sort. by rewrite (bind_Normal _ _ _ _ _ (elements_run _ _ _ Ha)). Qed.

Lemma filter_run h arr (l : list T) p :
  h !! arr = Some (arrayOf l) ->
  filter p arr h = (Normal (length h), h ++ [arrayOf (List.filter p l)]).
Proof. intros Ha. unfold filter. by rewrite (bind_Normal _ _ _ _ _ (elements_run _ _ _ Ha)). Qed.

(** The cell just allocated. *)
Lemma lookup_fresh (h : heap) a : (h ++ [a]) !! length h = Some a.
Proof. by apply list_lookup_middle. Qed.

Lemma insert_fresh (h : heap) a b : <[length h := b]> (h ++ [a]) = h ++ [b].
Proof.
  rewrite insert_app_r_alt by lia. by rewrite Nat.sub_diag.
Qed.

Lemma lookup_assigned (h : heap) arr a b :
  h !! arr = Some a -> <[arr := b]> h !! arr = Some b.
Proof. intros Ha. apply list_lookup_insert_eq. by apply lookup_lt_Some in Ha. Qed.

End Cells.

(** A heap-reading [map] whose function changes nothing. *)
Lemma mapM_read {A B} (f : A -> M B) (g : A -> B) l h :
  (forall x, In x l -> f x h = (Normal (g x), h)) ->
  mapM f l h = (Normal (map g l), h).
Proof.
  induction l as [|x l IH]; intros Hf; simpl; [done|].
  rewrite (bind_Normal _ _ _ _ _ (Hf x (or_introl eq_refl))).
  rewrite (bind_Normal _ _ _ _ _ (IH (fun y Hy => Hf y (or_intror Hy)))). done.
Qed.

(** *** Loops on the heap and the loops they compute *)


Lemma refines_each {S PS A} n (Inv : heap -> S -> PS -> Prop)
    (body : S -> A -> M S) (pbody : PS -> A -> Completion PS) l :
  (forall h s ps, Inv h s ps -> (n <= length h)%nat) ->
  (forall x, In x l -> refines n Inv (fun s => body s x) (fun ps => pbody ps x)) ->
  refines n Inv (each body l) (JS.forEach pbody l).
Proof.
  intros Hn. induction l as [|x l IH]; intros Hbody h s ps HI; simpl.
  - split; [apply keeps_refl; eauto|]. by exists s.
  - destruct (Hbody x (or_introl eq_refl) h s ps HI) as [Hk Hstep].
    rewrite bind_run. destruct (body s x h) as [[s1|] h1] eqn:Hrun; simpl in *.
    + destruct (pbody ps x) as [ps1|]; [|done].
      destruct Hstep as (s' & [= <-] & HI1).
      destruct (IH (fun y Hy => Hbody y (or_intror Hy)) h1 s1 ps1 HI1) as [Hk1 Hrest].
      split; [by eapply keeps_trans|done].
    + destruct (pbody ps x) as [ps1|]; [by destruct Hstep as (? & ? & ?)|].
      done.
Qed.


Lemma refines_ext {S PS} n (Inv : heap -> S -> PS -> Prop) m (f f' : PS -> Completion PS) :
  (forall ps, f ps = f' ps) -> refines n Inv m f -> refines n Inv m f'.
Proof. intros Hf Hr h s ps HI. rewrite <- Hf. by apply Hr. Qed.

(** A loop on the heap whose body always completes computes a fold. *)
Lemma refines_fold {S PS A} n (Inv : heap -> S -> PS -> Prop)
    (body : S -> A -> M S) (step : PS -> A -> PS) l :
  (forall h s ps, Inv h s ps -> (n <= length h)%nat) ->
  (forall x, In x l ->
     refines n Inv (fun s => body s x) (fun ps => Normal (step ps x))) ->
  refines n Inv (each body l) (fun ps => Normal (fold_left step l ps)).
Proof.
  intros Hn Hbody.
  apply (refines_ext _ _ _ (JS.forEach (fun ps x => Normal (step ps x)) l)).
  - intros ps. by apply forEach_Normal.
  - by apply refines_each.
Qed.

(** ** The four functions on the heap *)

(** *** [generateRecommendations] *)

Section RecommendationsRun.
Variables (n recommendations : ref).

Lemma filling_bound h s acc : filling n recommendations h s acc -> (n <= length h)%nat.
Proof. intros [Hn Hr]. apply lookup_lt_Some in Hr. lia. Qed.

Lemma applyRule_refines alert rec :
  refines n (filling n recommendations)
    (fun s => InPlace.applyRule recommendations alert s rec)
    (fun acc => Normal (applyRule alert acc rec)).
Proof.
  intros h s acc HI. pose proof (filling_bound _ _ _ HI) as Hlen.
  destruct HI as [Hn Hr].
  unfold InPlace.applyRule, applyRule. destruct (inBand alert rec).
  - rewrite (push_run _ _ _ _ Hr). simpl. split.
    + by apply keeps_assign.
    + exists tt. split; [done|]. split; [done|]. by eapply lookup_assigned.
  - simpl. split; [by apply keeps_refl|]. by exists tt.
Qed.

Lemma applyAlert_refines alert :
  refines n (filling n recommendations)
    (fun s => InPlace.applyAlert recommendations s alert)
    (fun acc => applyAlert acc alert).
Proof.
  unfold InPlace.applyAlert, applyAlert.
  destruct (categoryRecommendations alert) as [rules| |].
  - intros h [] acc.
    apply (refines_fold n (filling n recommendations)
             (InPlace.applyRule recommendations alert)
             (applyRule alert) rules filling_bound).
    intros rec _. apply applyRule_refines.
  - intros h s acc HI. split; [|done]. apply keeps_refl. by eapply filling_bound.
  - intros h s acc HI. split; [|done]. apply keeps_refl. by eapply filling_bound.
Qed.

End RecommendationsRun.

Lemma generateRecommendations_run (h : heap) (logs alerts : ref)
    (records : list ObservationLog.t) (given : list InterventionAlert.t) :
  h !! alerts = Some (Alerts given) ->
  keeps (length h) h (InPlace.generateRecommendations logs alerts h).2
  /\ outcome (InPlace.generateRecommendations logs alerts h)
     = generateRecommendations records given
  /\ fresh h (InPlace.generateRecommendations logs alerts h).
Proof.
  intros Halerts. unfold InPlace.generateRecommendations, generateRecommendations.
  rewrite bind_run. cbn [alloc arrayOf Element_recommendation].
  set (h1 := h ++ [Recommendations []]).
  assert (HI : filling (length h) (length h) h1 tt []).
  { split; [done|]. apply lookup_fresh. }
  assert (Hgiven : h1 !! alerts = Some (arrayOf given)).
  { unfold h1. rewrite lookup_app_l; [done|]. by apply lookup_lt_Some in Halerts. }
  unfold forEach. rewrite bind_run, (bind_Normal _ _ _ _ _ (elements_run _ _ _ Hgiven)).
  destruct (refines_each (length h) (filling (length h) (length h))
              (InPlace.applyAlert (length h)) (fun acc alert => applyAlert acc alert) given
              (filling_bound _ _)
              (fun alert _ => applyAlert_refines _ _ alert) h1 tt [] HI) as [Hk Hres].
  destruct (each (InPlace.applyAlert (length h)) given tt h1) as [[[]|] h2]; simpl in *.
  - split_and!.
    + eapply keeps_trans; [|exact Hk]. by apply keeps_alloc.
    + destruct (JS.forEach (fun acc alert => applyAlert acc alert) given []) as [out|].
      * destruct Hres as (_ & _ & _ & Hout). unfold outcome, get. simpl. by rewrite Hout.
      * done.
    + unfold fresh. simpl. lia.
  - split_and!.
    + eapply keeps_trans; [|exact Hk]. by apply keeps_alloc.
    + destruct (JS.forEach (fun acc alert => applyAlert acc alert) given []) as [out|].
      * by destruct Hres as (? & ? & ?).
      * done.
    + done.
Qed.


(** *** The arrays a function owns *)


#[global] Instance separate_perm n h : Proper ((≡ₚ) ==> iff) (separate n h).
Proof. intros rs rs' Hp. unfold separate. by rewrite Hp. Qed.


Lemma effect_separate n h rs rest h' rs' :
  (n <= length h)%nat ->
  separate n h (rs ++ rest) -> effect h rs h' rs' -> separate n h' (rs' ++ rest).
Proof.
  intros Hn [Hnd Hb] [a -> Hrs|r a Hr -> ->].
  - rewrite Hrs. simpl. split.
    + apply NoDup_cons. split; [|done]. intros Hin.
      rewrite Forall_forall in Hb. apply Hb in Hin. lia.
    + apply Forall_cons. rewrite length_app. simpl. split; [lia|].
      eapply Forall_impl; [exact Hb|]. simpl. intros; lia.
  - split; [done|]. eapply Forall_impl; [exact Hb|]. simpl.
    intros r' Hr'. rewrite length_insert. lia.
Qed.

Lemma effect_rest n h rs rest h' rs' r :
  separate n h (rs ++ rest) -> effect h rs h' rs' -> r ∈ rest -> h' !! r = h !! r.
Proof.
  intros [Hnd Hb] [a -> Hrs|r0 a Hr -> ->] Hin.
  - apply lookup_app_l. rewrite Forall_forall in Hb.
    assert (r ∈ rs ++ rest) as Hr by (apply elem_of_app; by right).
    apply Hb in Hr. lia.
  - apply list_lookup_insert_ne. intros <-.
    apply NoDup_app in Hnd as (_ & Hdis & _). by apply (Hdis r0).
Qed.

Lemma effect_keeps n h rs rest h' rs' :
  (n <= length h)%nat ->
  separate n h (rs ++ rest) -> effect h rs h' rs' -> keeps n h h'.
Proof.
  intros Hn [Hnd Hb] [a -> Hrs|r a Hr -> ->].
  - by apply keeps_alloc.
  - apply keeps_assign; [done|]. rewrite Forall_forall in Hb.
    assert (r ∈ rs ++ rest) as Hr' by (apply elem_of_app; by left).
    apply Hb in Hr'. lia.
Qed.

(** A Map whose values hold addresses ([m]), and the Map of the arrays
    found there ([pm]). *)
Section Owned.
Context {V P : Type} (refsOf : V -> list ref) (holds : heap -> V -> P -> Prop).
Hypothesis holds_frame : forall h h' v p,
  holds h v p -> (forall r, r ∈ refsOf v -> h' !! r = h !! r) -> holds h' v p.


Lemma hold_frame h h' m pm :
  hold holds h m pm -> (forall r, r ∈ refs refsOf m -> h' !! r = h !! r) -> hold holds h' m pm.
Proof.
  induction 1 as [|e p m pm [Hk Hv] _ IH]; intros Hsame; constructor.
  - split; [done|]. eapply holds_frame; [exact Hv|].
    intros r Hr. apply Hsame. unfold refs. simpl. apply elem_of_app. by left.
  - apply IH. intros r Hr. apply Hsame. unfold refs. simpl. apply elem_of_app. by right.
Qed.

Lemma hold_get h m pm k :
  hold holds h m pm ->
  match Map_get k m, Map_get k pm with
  | Some v, Some p => holds h v p
  | None, None => True
  | _, _ => False
  end.
Proof.
  induction 1 as [|[k1 v] [k2 p] m pm [Hk Hv] _ IH]; simpl in *; [done|].
  subst k2. by destruct (decide (k1 = k)).
Qed.

Lemma hold_has h m pm k : hold holds h m pm -> Map_has k m = Map_has k pm.
Proof.
  intros Hh. apply (hold_get _ _ _ k) in Hh. unfold Map_has.
  by destruct (Map_get k m), (Map_get k pm).
Qed.

Lemma hold_set h m pm k v p :
  hold holds h m pm -> holds h v p -> hold holds h (Map_set k v m) (Map_set k p pm).
Proof.
  intros Hh Hv. induction Hh as [|[k1 v1] [k2 p1] m pm [Hk Hv1] Hm IH]; simpl in *.
  - by constructor.
  - subst k2. destruct (decide (k1 = k)); constructor; done.
Qed.

Lemma refs_set k v m :
  Map_get k m = None -> refs refsOf (Map_set k v m) = refs refsOf m ++ refsOf v.
Proof.
  intros Hget. apply Map_get_None in Hget. rewrite Map_set_absent by done.
  unfold refs. rewrite flat_map_app. simpl. by rewrite app_nil_r.
Qed.

(** The cells of a Map: those of the value under [k], and the rest. *)
Lemma refs_update k v m :
  Map_get k m = Some v ->
  exists rest, refs refsOf m ≡ₚ refsOf v ++ rest
    /\ forall v', refs refsOf (Map_update k (fun _ => v') m) ≡ₚ refsOf v' ++ rest.
Proof.
  induction m as [|[k1 v1] m IH]; simpl; [done|].
  destruct (decide (k1 = k)) as [->|Hne].
  - intros [= ->]. by exists (refs refsOf m).
  - intros Hget. destruct (IH Hget) as (rest & Hm & Hup).
    exists (refsOf v1 ++ rest). unfold refs in *. simpl. split.
    + rewrite Hm. by rewrite Permutation_app_swap_app.
    + intros v'. rewrite Hup. by rewrite Permutation_app_swap_app.
Qed.

Lemma hold_update h h' m pm k v v' p' :
  hold holds h m pm -> Map_get k m = Some v -> holds h' v' p' ->
  (forall rest, refs refsOf m ≡ₚ refsOf v ++ rest -> forall r, r ∈ rest -> h' !! r = h !! r) ->
  hold holds h' (Map_update k (fun _ => v') m) (Map_update k (fun _ => p') pm).
Proof.
  intros Hh. induction Hh as [|[k1 v1] [k2 p1] m pm [Hk Hv1] Hh IH]; simpl in *; [done|].
  subst k2. destruct (decide (k1 = k)) as [->|Hne].
  - intros [= ->] Hv' Hrest. constructor; [done|].
    eapply hold_frame; [exact Hh|]. intros r Hr. by apply (Hrest (refs refsOf m)).
  - intros Hget Hv' Hrest.
    destruct (refs_update _ _ _ Hget) as (rest & Hm & _).
    assert (Hall : refs refsOf ((k1, v1) :: m) ≡ₚ refsOf v ++ (refsOf v1 ++ rest)).
    { unfold refs in *. simpl. rewrite Hm. by rewrite Permutation_app_swap_app. }
    constructor.
    + split; [done|]. eapply holds_frame; [exact Hv1|]. intros r Hr.
      apply (Hrest _ Hall). apply elem_of_app. by left.
    + apply IH; [done|done|]. intros rest' Hm' r Hr.
      apply (Hrest (refsOf v1 ++ rest')).
      * unfold refs in *. simpl. rewrite Hm'. by rewrite Permutation_app_swap_app.
      * apply elem_of_app. by right.
Qed.

(** A step on the value under [k], seen from the Map and from the other
    cells the function owns. *)
Lemma owned_update n h h' m pm k v v' p' others :
  (n <= length h)%nat ->
  hold holds h m pm -> separate n h (refs refsOf m ++ others) -> Map_get k m = Some v ->
  effect h (refsOf v) h' (refsOf v') -> holds h' v' p' ->
  hold holds h' (Map_update k (fun _ => v') m) (Map_update k (fun _ => p') pm)
  /\ separate n h' (refs refsOf (Map_update k (fun _ => v') m) ++ others)
  /\ (forall r, r ∈ others -> h' !! r = h !! r)
  /\ keeps n h h'.
Proof.
  intros Hn Hh Hsep Hget Heff Hv'.
  destruct (refs_update _ _ _ Hget) as (rest & Hm & Hup).
  assert (Hsep' : separate n h (refsOf v ++ (rest ++ others))).
  { by rewrite app_assoc, <- Hm. }
  split_and!.
  - eapply hold_update; [done|done|done|]. intros rest' Hm' r Hr.
    assert (Hs : separate n h (refsOf v ++ rest')).
    { destruct Hsep as [Hnd Hb]. rewrite Hm' in Hnd, Hb. split.
      - by apply NoDup_app in Hnd as (? & _ & _).
      - by apply Forall_app in Hb as [? _]. }
    by eapply effect_rest.
  - rewrite Hup, <- app_assoc. by eapply effect_separate.
  - intros r Hr. eapply effect_rest; [exact Hsep'|done|].
    apply elem_of_app. by right.
  - by eapply effect_keeps.
Qed.

Lemma owned_set n h m pm k v p others :
  hold holds h m pm -> Map_get k m = None -> holds h v p ->
  separate n h (refsOf v ++ refs refsOf m ++ others) ->
  hold holds h (Map_set k v m) (Map_set k p pm)
  /\ separate n h (refs refsOf (Map_set k v m) ++ others).
Proof.
  intros Hh Hget Hv Hsep. split; [by apply hold_set|].
  rewrite refs_set by done.
  by rewrite (Permutation_app_comm (refs refsOf m)), <- app_assoc.
Qed.

(** [mutate] on the heap computes [Map_modify]. *)
Lemma mutate_run n h m pm k (f : V -> M V) (g : P -> Completion P) others :
  (n <= length h)%nat ->
  hold holds h m pm -> separate n h (refs refsOf m ++ others) ->
  (forall v p rest, holds h v p -> separate n h (refsOf v ++ rest) ->
     match g p with
     | Normal p' => exists v' h', f v h = (Normal v', h') /\ holds h' v' p'
                                  /\ effect h (refsOf v) h' (refsOf v')
     | Throw_TypeError => f v h = (Throw_TypeError, h)
     end) ->
  match Map_modify k g pm with
  | Normal pm' =>
      exists m' h', mutate k f m h = (Normal m', h')
        /\ hold holds h' m' pm'
        /\ separate n h' (refs refsOf m' ++ others)
        /\ (forall r, r ∈ others -> h' !! r = h !! r)
        /\ keeps n h h'
  | Throw_TypeError => mutate k f m h = (Throw_TypeError, h)
  end.
Proof.
  intros Hn Hh Hsep Hf. unfold Map_modify, mutate.
  pose proof (hold_get _ _ _ k Hh) as Hget.
  destruct (Map_get k m) as [v|] eqn:Hm, (Map_get k pm) as [p|] eqn:Hpm; try done.
  destruct (refs_update _ _ _ Hm) as (rest & Hrefs & _).
  assert (Hsep' : separate n h (refsOf v ++ (rest ++ others))).
  { by rewrite app_assoc, <- Hrefs. }
  specialize (Hf v p _ Hget Hsep').
  destruct (g p) as [p'|]; simpl.
  - destruct Hf as (v' & h' & Hrun & Hv' & Heff).
    exists (Map_update k (fun _ => v') m), h'.
    rewrite (bind_Normal _ _ _ _ _ Hrun). split; [done|].
    by eapply owned_update.
  - by rewrite (bind_Throw _ _ _ _ Hf).
Qed.

End Owned.


Lemma Map_update_same {V} k (m : JSMap V) v :
  Map_get k m = Some v -> Map_update k (fun _ => v) m = m.
Proof.
  intros Hget. rewrite (Map_update_at k (fun _ => v) (fun x => x) _ _ Hget eq_refl).
  by apply Map_update_id.
Qed.

Lemma Map_get_set {V} k (v : V) (m : JSMap V) : Map_get k (Map_set k v m) = Some v.
Proof.
  induction m as [|[k' v'] m IH]; simpl; [by rewrite decide_True|].
  destruct (decide (k' = k)) as [->|Hne]; simpl.
  - by rewrite decide_True.
  - by rewrite decide_False.
Qed.

Section Stores.
Context {T : Type} `{Element T}.

Lemma stores_frame (h h' : heap) (arr : ref) (l : list T) :
  stores h arr l -> (forall r, r ∈ single arr -> h' !! r = h !! r) -> stores h' arr l.
Proof.
  unfold stores. intros Ha Hsame. rewrite Hsame; [done|]. by apply list_elem_of_singleton.
Qed.

(** What is found around the one cell a loop keeps writing to. *)
Lemma around_target (h1 : heap) (a : ref) (x : Array) ext :
  (a < length h1)%nat -> (<[a := x]> h1 ++ ext) !! a = Some x.
Proof.
  intros Ha. rewrite lookup_app_l by (rewrite length_insert; lia).
  by apply list_lookup_insert_eq.
Qed.

Lemma around_other (h1 : heap) (a r : ref) (x : Array) ext :
  r <> a -> (r < length h1)%nat -> (<[a := x]> h1 ++ ext) !! r = h1 !! r.
Proof.
  intros Hne Hr. rewrite lookup_app_l by (rewrite length_insert; lia).
  by apply list_lookup_insert_ne.
Qed.

Lemma around_assign (h1 : heap) (a : ref) (x y : Array) ext :
  (a < length h1)%nat -> <[a := y]> (<[a := x]> h1 ++ ext) = <[a := y]> h1 ++ ext.
Proof.
  intros Ha. rewrite insert_app_l by (rewrite length_insert; lia).
  by rewrite list_insert_insert_eq.
Qed.

Lemma around_keeps (h1 : heap) (a : ref) (x : Array) ext n :
  (n <= a)%nat -> (a < length h1)%nat -> keeps n h1 (<[a := x]> h1 ++ ext).
Proof.
  intros Hn Ha. split.
  - rewrite length_app, length_insert. lia.
  - intros r Hr. apply around_other; lia.
Qed.

End Stores.

(** *** [generateInterventionAlerts] *)

Section AlertsRun.
Context `{Host}.
Variable alerts : ref.

Lemma grouping_bound h m pm : grouping alerts h m pm -> (S alerts <= length h)%nat.
Proof. by intros (? & _). Qed.

(** [studentMap.get(log.studentId)!.push(log)] *)
Lemma groupLog_push h m pm sid log :
  grouping alerts h m pm -> Map_has sid m = true ->
  let run := match Map_get sid m with
             | Some arr => push arr log;; mret m
             | None => throw
             end h in
  run.1 = Normal m
  /\ grouping alerts run.2 m (Map_update sid (fun arr => arr ++ [log]) pm)
  /\ keeps (S alerts) h run.2.
Proof.
  intros (Hlen & Hh & Hsep) Hhas. unfold Map_has in Hhas.
  pose proof (hold_get _ _ _ _ sid Hh) as Hget.
  destruct (Map_get sid m) as [arr|] eqn:Hm; [|done].
  destruct (Map_get sid pm) as [l|] eqn:Hpm; [|done].
  unfold stores in Hget. cbv zeta.
  rewrite (bind_Normal _ _ _ _ _ (push_run _ _ _ log Hget)). simpl.
  set (h' := <[arr := arrayOf (l ++ [log])]> h).
  assert (Heff : effect h (single arr) h' (single arr)).
  { apply (effect_assign _ _ _ _ arr (arrayOf (l ++ [log]))); [|done|done].
    by apply list_elem_of_singleton. }
  assert (Hv' : stores h' arr (l ++ [log])) by (by eapply lookup_assigned).
  rewrite <- (app_nil_r (refs single m)) in Hsep.
  destruct (owned_update single stores stores_frame _ _ _ _ _ _ _ _ _ []
              Hlen Hh Hsep Hm Heff Hv') as (Hh' & Hsep' & _ & Hk).
  rewrite app_nil_r in Hsep'.
  rewrite (Map_update_same _ _ _ Hm) in Hh', Hsep'.
  rewrite (Map_update_at sid (fun _ => l ++ [log]) (fun arr => arr ++ [log]) _ _ Hpm eq_refl) in Hh'.
  split; [done|]. split; [|done]. split; [|done].
  rewrite length_insert. lia.
Qed.

Lemma groupLog_refines log :
  refines (S alerts) (grouping alerts) (fun m => InPlace.groupLog m log)
    (fun pm => Normal (groupLog pm log)).
Proof.
  intros h m pm HI. pose proof HI as (Hlen & Hh & Hsep).
  unfold InPlace.groupLog, groupLog.
  set (sid := ObservationLog.studentId log).
  rewrite bind_run. rewrite <- (hold_has _ _ _ _ sid Hh).
  destruct (Map_has sid m) eqn:Hhas.
  - cbn [mret M_ret].
    destruct (groupLog_push h m pm sid log HI Hhas) as (Hrun & HI' & Hk).
    split; [done|]. exists m. done.
  - assert (Hnone : Map_get sid m = None).
    { unfold Map_has in Hhas. by destruct (Map_get sid m). }
    rewrite bind_run. cbn [alloc mret M_ret arrayOf Element_log].
    set (h1 := h ++ [Records []]).
    assert (HI1 : grouping alerts h1 (Map_set sid (length h) m) (Map_set sid [] pm)).
    { assert (Hh1 : hold stores h1 m pm).
      { eapply (hold_frame single stores stores_frame); [exact Hh|].
        intros r Hr. apply lookup_app_l. destruct Hsep as [_ Hb].
        rewrite Forall_forall in Hb. apply Hb in Hr. lia. }
      assert (Hs1 : separate (S alerts) h1 (single (length h) ++ refs single m ++ [])).
      { rewrite app_nil_r.
        apply (effect_separate _ h [] _ _ (single (length h))); [done|done|].
        by apply (effect_alloc _ _ _ _ (Records [])). }
      destruct (owned_set single stores _ _ _ _ sid (length h) [] [] Hh1 Hnone
                  (lookup_fresh h (Records [])) Hs1) as [Hh2 Hs2].
      rewrite app_nil_r in Hs2. split; [|done].
      unfold h1. rewrite length_app. simpl. lia. }
    assert (Hhas1 : Map_has sid (Map_set sid (length h) m) = true).
    { unfold Map_has. by rewrite Map_get_set. }
    destruct (groupLog_push h1 _ _ sid log HI1 Hhas1) as (Hrun & HI' & Hk).
    split.
    + eapply keeps_trans; [|exact Hk]. apply keeps_alloc. lia.
    + eexists. split; [exact Hrun|done].
Qed.

(** The second loop works around the groups: from the heap [h1] that the
    first loop left, only the cell of [alerts] changes, and new cells come
    after it. *)
Variable h1 : heap.
Hypothesis alerts_bound : (alerts < length h1)%nat.

Lemma checkDecline_run acc ext sid name c scores sorted :
  let h := <[alerts := arrayOf acc]> h1 ++ ext in
  scores <> alerts -> h !! scores = Some (arrayOf sorted) ->
  InPlace.checkDecline alerts sid name c scores h
  = (Normal tt, <[alerts := arrayOf (checkDecline sid name c sorted acc)]> h1 ++ ext).
Proof.
  intros h Hne Hs. unfold InPlace.checkDecline, checkDecline.
  rewrite (bind_Normal _ _ _ _ _ (elements_run _ _ _ Hs)).
  assert (Ha : h !! alerts = Some (arrayOf acc)) by (by apply around_target).
  repeat match goal with
         | |- context [if ?b then _ else _] => destruct b
         end; try done.
  rewrite (push_run _ _ _ _ Ha). unfold h. by rewrite around_assign.
Qed.

Lemma checkThreshold_run acc ext sid name c scores sorted :
  let h := <[alerts := arrayOf acc]> h1 ++ ext in
  scores <> alerts -> h !! scores = Some (arrayOf sorted) ->
  InPlace.checkThreshold alerts sid name c scores h
  = (Normal tt, <[alerts := arrayOf (checkThreshold sid name c sorted acc)]> h1 ++ ext).
Proof.
  intros h Hne Hs. unfold InPlace.checkThreshold, checkThreshold.
  rewrite (bind_Normal _ _ _ _ _ (elements_run _ _ _ Hs)).
  assert (Ha : h !! alerts = Some (arrayOf acc)) by (by apply around_target).
  destruct (Array_last sorted) as [currentScore|]; [|done].
  destruct (currentScore <? 2.5)%float; [|done].
  rewrite (push_run _ _ _ _ Ha). unfold h. by rewrite around_assign.
Qed.

Lemma checkCategory_run acc ext sid name group studentLogs c :
  group <> alerts -> h1 !! group = Some (arrayOf studentLogs) ->
  exists ext',
    InPlace.checkCategory alerts sid name group tt c (<[alerts := arrayOf acc]> h1 ++ ext)
    = (Normal tt,
       <[alerts := arrayOf (checkCategory sid name studentLogs acc c)]> h1 ++ ext').
Proof.
  intros Hne Hg. unfold InPlace.checkCategory, checkCategory.
  assert (Hgroup : (<[alerts := arrayOf acc]> h1 ++ ext) !! group
                   = Some (arrayOf studentLogs)).
  { rewrite around_other; [done|done|]. by apply lookup_lt_Some in Hg. }
  rewrite (bind_Normal _ _ _ _ _ (filter_run _ _ _ _ Hgroup)).
  set (selected := List.filter (hasCategory c) studentLogs).
  rewrite (bind_Normal _ _ _ _ _ (elements_run _ _ _ (lookup_fresh _ (arrayOf selected)))).
  rewrite <- app_assoc.
  set (h := <[alerts := arrayOf acc]> h1 ++ ext ++ [arrayOf selected]).
  destruct (3 <=? length selected)%nat; [|by eexists].
  rewrite (bind_Normal _ _ _ _ _ (alloc_run _ _)).
  set (raw := map CategoryScore.score _).
  rewrite bind_run.
  rewrite (sort_run (h ++ [arrayOf raw]) (length h) raw byDateOfScore (lookup_fresh h _)).
  rewrite insert_fresh. fold (sortedScores c selected).
  set (sorted := sortedScores c selected).
  assert (Hscores : length h <> alerts).
  { unfold h. rewrite length_app, length_insert. lia. }
  unfold h. rewrite <- app_assoc. rewrite bind_run.
  rewrite (checkDecline_run acc _ sid name c (length h) sorted Hscores).
  2: { rewrite app_assoc. apply lookup_fresh. }
  rewrite (checkThreshold_run _ _ sid name c (length h) sorted Hscores).
  2: { rewrite app_assoc.
       assert (Hlen : length h
                      = length (<[alerts := arrayOf (checkDecline sid name c sorted acc)]> h1
                                  ++ ext ++ [arrayOf selected])).
       { unfold h. by rewrite !length_app, !length_insert. }
       rewrite Hlen. apply lookup_fresh. }
  by eexists.
Qed.

Lemma checkCategories_run acc ext sid name group studentLogs cs :
  group <> alerts -> h1 !! group = Some (arrayOf studentLogs) ->
  exists ext',
    each (InPlace.checkCategory alerts sid name group) cs tt
      (<[alerts := arrayOf acc]> h1 ++ ext)
    = (Normal tt,
       <[alerts := arrayOf (fold_left (checkCategory sid name studentLogs) cs acc)]> h1
         ++ ext').
Proof.
  intros Hne Hg. revert acc ext. induction cs as [|c cs IH]; intros acc ext; simpl.
  - by exists ext.
  - destruct (checkCategory_run acc ext sid name group studentLogs c Hne Hg) as [ext1 Hrun].
    rewrite (bind_Normal _ _ _ _ _ Hrun). apply IH.
Qed.

Lemma checkStudent_run acc ext entry pentry :
  entry.1 = pentry.1 -> stores h1 entry.2 pentry.2 -> entry.2 <> alerts -> pentry.2 <> [] ->
  exists ext',
    InPlace.checkStudent alerts tt entry (<[alerts := arrayOf acc]> h1 ++ ext)
    = (Normal tt, <[alerts := arrayOf (checkStudent acc pentry)]> h1 ++ ext').
Proof.
  intros Hkey Hg Hne Hsome. unfold InPlace.checkStudent, checkStudent.
  assert (Hgroup : (<[alerts := arrayOf acc]> h1 ++ ext) !! entry.2
                   = Some (arrayOf pentry.2)).
  { rewrite around_other; [done|done|]. by apply lookup_lt_Some in Hg. }
  rewrite (bind_Normal _ _ _ _ _ (elements_run _ _ _ Hgroup)).
  destruct pentry.2 as [|first rest] eqn:Hp; [done|].
  rewrite Hkey. by apply checkCategories_run.
Qed.

Lemma checkStudents_run acc ext entries pentries :
  Forall2 (fun e p => e.1 = p.1 /\ stores h1 e.2 p.2) entries pentries ->
  Forall (fun e => e.2 <> alerts) entries ->
  Forall (fun p => p.2 <> []) pentries ->
  exists ext',
    each (InPlace.checkStudent alerts) entries tt (<[alerts := arrayOf acc]> h1 ++ ext)
    = (Normal tt, <[alerts := arrayOf (fold_left checkStudent pentries acc)]> h1 ++ ext').
Proof.
  intros Hrel. revert acc ext.
  induction Hrel as [|e p entries pentries [Hk Hs] _ IH]; intros acc ext Hne Hsome; simpl.
  - by exists ext.
  - apply Forall_cons in Hne as [Hne1 Hne]. apply Forall_cons in Hsome as [Hsome1 Hsome].
    destruct (checkStudent_run acc ext e p Hk Hs Hne1 Hsome1) as [ext1 Hrun].
    rewrite (bind_Normal _ _ _ _ _ Hrun). by apply IH.
Qed.

End AlertsRun.

Lemma refs_single (m : JSMap ref) : refs single m = map snd m.
Proof. induction m as [|[k v] m IH]; simpl; [done|]. by rewrite <- IH. Qed.

Lemma generateInterventionAlerts_run `{Host} (h : heap) (logs : ref)
    (records : list ObservationLog.t) :
  h !! logs = Some (Records records) ->
  keeps (length h) h (InPlace.generateInterventionAlerts logs h).2
  /\ outcome (InPlace.generateInterventionAlerts logs h)
     = Normal (generateInterventionAlerts records)
  /\ fresh h (InPlace.generateInterventionAlerts logs h).
Proof.
  intros Hlogs. unfold InPlace.generateInterventionAlerts.
  rewrite bind_run. cbn [alloc arrayOf Element_alert].
  set (a := length h). set (h0 := h ++ [Alerts []]).
  assert (Hrecords : h0 !! logs = Some (arrayOf records)).
  { unfold h0. rewrite lookup_app_l; [done|]. by apply lookup_lt_Some in Hlogs. }
  assert (HI : grouping a h0 [] []).
  { split; [unfold h0; rewrite length_app; simpl; lia|]. split; [constructor|].
    split; [constructor|constructor]. }
  unfold forEach. rewrite bind_run, (bind_Normal _ _ _ _ _ (elements_run _ _ _ Hrecords)).
  destruct (refines_fold (S a) (grouping a) InPlace.groupLog groupLog records
              (grouping_bound a) (fun log _ => groupLog_refines a log) h0 [] [] HI)
    as [Hk (m & Hm & Hlen & Hh & Hsep)].
  fold (logsByStudent records) in Hh.
  destruct (each InPlace.groupLog records [] h0) as [res h1]. simpl in Hk, Hm, Hlen, Hh, Hsep.
  subst res.
  assert (Ha : (a < length h1)%nat) by lia.
  assert (Halerts : h1 !! a = Some (Alerts [])).
  { destruct Hk as [_ Hk]. rewrite Hk by lia. apply lookup_fresh. }
  assert (Hshape : h1 = <[a := arrayOf (@nil InterventionAlert.t)]> h1 ++ []).
  { rewrite app_nil_r. symmetry. by apply list_insert_id. }
  assert (Hapart : Forall (fun e : string * ref => e.2 <> a) m).
  { destruct Hsep as [_ Hb]. rewrite refs_single in Hb.
    rewrite Forall_forall in Hb. apply Forall_forall. intros e He.
    assert (e.2 ∈ map snd m) as Hin by (apply list_elem_of_fmap; by exists e).
    apply Hb in Hin. lia. }
  assert (Hsome : Forall (fun p : string * list ObservationLog.t => p.2 <> [])
                    (logsByStudent records)).
  { rewrite Forall_forall. intros [sid l] Hin. apply list_elem_of_In in Hin.
    by apply logsByStudent_In in Hin as [_ ?]. }
  destruct (checkStudents_run a h1 Ha [] [] m (logsByStudent records) Hh Hapart Hsome)
    as [ext Hrun].
  rewrite <- Hshape in Hrun. rewrite bind_run, Hrun.
  fold (pushedAlerts records).
  set (h2 := <[a := arrayOf (pushedAlerts records)]> h1 ++ ext).
  rewrite (sort_run h2 a (pushedAlerts records) bySeverityDesc (around_target _ _ _ _ Ha)).
  unfold h2. rewrite around_assign by done. split_and!.
  - apply (keeps_trans _ _ h0); [apply keeps_alloc; unfold a; lia|].
    apply (keeps_trans _ _ h1).
    + destruct Hk as [Hl Hk]. split.
      * unfold h0 in *. rewrite length_app in *. simpl in *. unfold a in *. lia.
      * intros r Hr. apply Hk. lia.
    + apply around_keeps; [lia|done].
  - unfold outcome, get. simpl. rewrite around_target by done. done.
  - unfold fresh, a. simpl. lia.
Qed.


Section OwnedInit.
Context {V P : Type} (refsOf : V -> list ref) (holds : heap -> V -> P -> Prop).

(** [if (!m.has(k)) m.set(k, v)] for a [v] that holds no array yet. *)
Lemma owned_init n h (m : JSMap V) (pm : JSMap P) k v p others :
  hold holds h m pm -> separate n h (refs refsOf m ++ others) ->
  refsOf v = [] -> holds h v p ->
  hold holds h (if Map_has k m then m else Map_set k v m)
    (if Map_has k pm then pm else Map_set k p pm)
  /\ separate n h (refs refsOf (if Map_has k m then m else Map_set k v m) ++ others).
Proof.
  intros Hh Hsep Hnone Hv. rewrite <- (hold_has _ _ _ _ k Hh).
  destruct (Map_has k m) eqn:Hhas; [done|].
  apply owned_set; [done| |done|by rewrite Hnone].
  unfold Map_has in Hhas. by destruct (Map_get k m).
Qed.

Lemma mapM_hold h (m : JSMap V) (pm : JSMap P)
    {B} (read : string * V -> M B) (pure : string * P -> B) :
  (forall e p, e.1 = p.1 -> holds h e.2 p.2 -> read e h = (Normal (pure p), h)) ->
  hold holds h m pm -> mapM read m h = (Normal (map pure pm), h).
Proof.
  intros Hread. induction 1 as [|e p m pm [Hk Hv] _ IH]; simpl; [done|].
  rewrite (bind_Normal _ _ _ _ _ (Hread e p Hk Hv)).
  by rewrite (bind_Normal _ _ _ _ _ IH).
Qed.

End OwnedInit.

(** *** Score objects *)

Lemma scoreRefs_elem obj r : r ∈ scoreRefs obj <-> exists c, obj !! c = Some r.
Proof.
  unfold scoreRefs. rewrite list_elem_of_fmap. split.
  - intros ([c r'] & -> & Hin). exists c. by apply elem_of_map_to_list in Hin.
  - intros [c Hc]. exists (c, r). split; [done|]. by apply elem_of_map_to_list.
Qed.

Lemma scoreRefs_inj (obj : InPlace.ScoreRefs) c c' r :
  NoDup (scoreRefs obj) -> obj !! c = Some r -> obj !! c' = Some r -> c = c'.
Proof.
  intros Hnd Hc Hc'.
  apply elem_of_map_to_list, list_elem_of_lookup in Hc as [i Hi].
  apply elem_of_map_to_list, list_elem_of_lookup in Hc' as [j Hj].
  assert (i = j) as ->.
  { apply (NoDup_lookup _ i j r Hnd); unfold scoreRefs; rewrite list_lookup_fmap.
    - by rewrite Hi.
    - by rewrite Hj. }
  rewrite Hi in Hj. by injection Hj.
Qed.

Lemma scoreRefs_empty : scoreRefs ∅ = [].
Proof. unfold scoreRefs. by rewrite map_to_list_empty. Qed.

Lemma scoreRefs_insert (obj : InPlace.ScoreRefs) c r :
  obj !! c = None -> scoreRefs (<[c := r]> obj) ≡ₚ r :: scoreRefs obj.
Proof. intros Hc. unfold scoreRefs. by rewrite map_to_list_insert. Qed.

Lemma scoresAt_frame h h' obj p :
  scoresAt h obj p -> (forall r, r ∈ scoreRefs obj -> h' !! r = h !! r) -> scoresAt h' obj p.
Proof.
  intros Hobj Hsame c. specialize (Hobj c).
  destruct (obj !! c) as [arr|] eqn:Hc; [|done].
  rewrite Hsame; [done|]. apply scoreRefs_elem. by exists c.
Qed.

Lemma Object_entries_run h obj p :
  scoresAt h obj p -> InPlace.Object_entries obj h = (Normal p, h).
Proof.
  intros Hobj. unfold InPlace.Object_entries. do 2 f_equal.
  apply map_eq. intros c. rewrite lookup_omap. specialize (Hobj c).
  destruct (obj !! c) as [arr|]; simpl; [|done].
  destruct Hobj as (l & Harr & ->). by apply get_Some.
Qed.

(** [pushScore] on the heap: it throws when [Analytics.pushScore] throws,
    and otherwise allocates the array of the category or overwrites it. *)
Lemma pushScore_run n h obj p c x rest :
  scoresAt h obj p -> separate n h (scoreRefs obj ++ rest) ->
  match pushScore c x p with
  | Normal p' =>
      exists obj' h', InPlace.pushScore c x obj h = (Normal obj', h')
        /\ scoresAt h' obj' p'
        /\ effect h (scoreRefs obj) h' (scoreRefs obj')
  | Throw_TypeError => InPlace.pushScore c x obj h = (Throw_TypeError, h)
  end.
Proof.
  intros Hobj [Hnd Hb]. apply NoDup_app in Hnd as (Hnd & _ & _).
  unfold pushScore, InPlace.pushScore, Object_get.
  pose proof (Hobj c) as Hc.
  destruct (obj !! c) as [arr|] eqn:Hoc.
  - destruct Hc as (l & Harr & Hpc). rewrite Hpc. rewrite bind_run. cbn [mret M_ret].
    rewrite Hoc, Hpc.
    exists obj, (<[arr := arrayOf (l ++ [x])]> h).
    rewrite (bind_Normal _ _ _ _ _ (push_run _ _ _ x Harr)). split; [done|]. split.
    + intros c'. pose proof (Hobj c') as Hc'.
      destruct (decide (c' = c)) as [->|Hne].
      * rewrite Hoc. exists (l ++ [x]). rewrite lookup_insert_eq.
        split; [|done]. by eapply lookup_assigned.
      * rewrite lookup_insert_ne by done.
        destruct (obj !! c') as [arr'|] eqn:Hoc'; [|done].
        destruct Hc' as (l' & Harr' & Hpc'). exists l'. split; [|done].
        rewrite list_lookup_insert_ne; [done|]. intros <-.
        apply Hne. by apply (scoreRefs_inj obj c' c arr).
    + apply (effect_assign _ _ _ _ arr (arrayOf (l ++ [x]))); [|done|done].
      apply scoreRefs_elem. by exists c.
  - rewrite Hc. destruct (inherited c) eqn:Hin.
    + rewrite bind_run. cbn [mret M_ret]. by rewrite Hoc, ?Hc.
    + rewrite !lookup_insert_eq. rewrite bind_run, bind_run. cbn [alloc mret M_ret].
      rewrite lookup_insert_eq.
      rewrite (bind_Normal _ _ _ _ _ (push_run _ _ _ x (lookup_fresh h (arrayOf [])))).
      rewrite insert_fresh.
      exists (<[c := length h]> obj), (h ++ [arrayOf ([] ++ [x])]).
      split; [done|]. split.
      * intros c'. pose proof (Hobj c') as Hc'.
        destruct (decide (c' = c)) as [->|Hne].
        -- rewrite lookup_insert_eq. exists ([] ++ [x]). rewrite lookup_insert_eq.
           split; [apply lookup_fresh|done].
        -- rewrite !lookup_insert_ne by done.
           destruct (obj !! c') as [arr'|] eqn:Hoc'; [|done].
           destruct Hc' as (l' & Harr' & Hpc'). exists l'. split; [|done].
           rewrite lookup_app_l; [done|]. by apply lookup_lt_Some in Harr'.
      * apply (effect_alloc _ _ _ _ (arrayOf ([] ++ [x]))); [done|].
        by apply scoreRefs_insert.
Qed.

(** *** [calculateTrends] *)

Section TrendsRun.
Context `{Host}.
Variable n : nat.

Lemma bucketing_bound h st ps : bucketing n h st ps -> (n <= length h)%nat.
Proof. by intros (? & _). Qed.

Lemma addCategoryScore_refines weekKey monthKey cs :
  refines n (bucketing n) (fun st => InPlace.addCategoryScore weekKey monthKey st cs)
    (fun ps => addCategoryScore weekKey monthKey ps cs).
Proof.
  intros h [w mo] [pw pmo] (Hn & Hw & Hmo & Hsep). simpl in Hw, Hmo, Hsep.
  unfold InPlace.addCategoryScore, addCategoryScore. cbn [fst snd].
  set (c := CategoryScore.category cs). set (x := CategoryScore.score cs).
  pose proof (mutate_run scoreRefs scoresAt scoresAt_frame n h w pw weekKey
                (InPlace.pushScore c x) (pushScore c x) (refs scoreRefs mo) Hn Hw Hsep
                (fun v p rest => pushScore_run n h v p c x rest)) as Hweek.
  rewrite bind_run.
  destruct (Map_modify weekKey (pushScore c x) pw) as [pw'|]; simpl.
  2: { rewrite Hweek. simpl. split; [by apply keeps_refl|done]. }
  destruct Hweek as (w' & h1 & Hrun & Hw' & Hsep1 & Hothers & Hk1).
  rewrite Hrun.
  assert (Hn1 : (n <= length h1)%nat) by (destruct Hk1 as [? _]; lia).
  assert (Hmo1 : hold scoresAt h1 mo pmo).
  { by apply (hold_frame scoreRefs scoresAt scoresAt_frame h). }
  rewrite (Permutation_app_comm (refs scoreRefs w')) in Hsep1.
  pose proof (mutate_run scoreRefs scoresAt scoresAt_frame n h1 mo pmo monthKey
                (InPlace.pushScore c x) (pushScore c x) (refs scoreRefs w') Hn1 Hmo1 Hsep1
                (fun v p rest => pushScore_run n h1 v p c x rest)) as Hmonth.
  rewrite bind_run.
  destruct (Map_modify monthKey (pushScore c x) pmo) as [pmo'|]; simpl.
  2: { rewrite Hmonth. simpl. done. }
  destruct Hmonth as (mo' & h2 & Hrun2 & Hmo' & Hsep2 & Hothers2 & Hk2).
  rewrite Hrun2. simpl. split; [by eapply keeps_trans|].
  eexists. split; [done|]. split; [destruct Hk2 as [? _]; lia|]. simpl. split_and!.
  - by apply (hold_frame scoreRefs scoresAt scoresAt_frame h1).
  - done.
  - by rewrite (Permutation_app_comm (refs scoreRefs w')).
Qed.

Lemma addLog_refines log :
  refines n (bucketing n) (fun st => InPlace.addLog st log) (fun ps => addLog ps log).
Proof.
  intros h [w mo] [pw pmo] (Hn & Hw & Hmo & Hsep). simpl in Hw, Hmo, Hsep.
  unfold InPlace.addLog, addLog. cbv zeta. cbn [fst snd].
  set (weekKey := getWeekKey _). set (monthKey := getMonthKey _).
  assert (Hempty : forall h, scoresAt h ∅ ∅) by (intros h' c; by rewrite !lookup_empty).
  destruct (owned_init scoreRefs scoresAt n h w pw weekKey ∅ ∅ _ Hw Hsep scoreRefs_empty (Hempty h))
    as [Hw' Hsep'].
  rewrite (Permutation_app_comm _ (refs scoreRefs mo)) in Hsep'.
  destruct (owned_init scoreRefs scoresAt n h mo pmo monthKey ∅ ∅ _ Hmo Hsep' scoreRefs_empty
              (Hempty h)) as [Hmo' Hsep''].
  rewrite (Permutation_app_comm _ (refs scoreRefs (if Map_has weekKey w then _ else _)))
    in Hsep''.
  assert (HI : bucketing n h (InPlace.initBucket weekKey w, InPlace.initBucket monthKey mo)
                 (initBucket weekKey pw, initBucket monthKey pmo)) by done.
  destruct (ObservationLog.categories log) as [cats|].
  - apply (refines_each n (bucketing n) (InPlace.addCategoryScore weekKey monthKey)
             (addCategoryScore weekKey monthKey) cats bucketing_bound
             (fun cs _ => addCategoryScore_refines weekKey monthKey cs)). exact HI.
  - simpl. split; [by apply keeps_refl|]. eexists. split; [done|exact HI].
Qed.

Lemma toTrend_run h e p :
  e.1 = p.1 -> scoresAt h e.2 p.2 -> InPlace.toTrend e h = (Normal (toTrend p), h).
Proof.
  intros Hk Hv. unfold InPlace.toTrend.
  rewrite (bind_Normal _ _ _ _ _ (Object_entries_run _ _ _ Hv)).
  rewrite Hk. by destruct p.
Qed.

(** The function from the loop on, for the array [filteredLogs] stands
    for. *)
Lemma trends_run h filteredLogs records :
  (n <= length h)%nat -> h !! filteredLogs = Some (arrayOf records) ->
  let run := (st ← forEach InPlace.addLog filteredLogs ([], []);
              weeklyTrends ← mapM InPlace.toTrend st.1;
              monthlyTrends ← mapM InPlace.toTrend st.2;
              trends ← alloc (weeklyTrends ++ monthlyTrends);
              sort byPeriod trends) h in
  keeps n h run.2
  /\ outcome run = (st ← JS.forEach addLog records ([], []); Normal (trendsFrom st))
  /\ fresh h run.
Proof.
  intros Hn Hlogs. cbv zeta. unfold forEach.
  rewrite bind_run, (bind_Normal _ _ _ _ _ (elements_run _ _ _ Hlogs)).
  assert (HI : bucketing n h ([], []) ([], [])).
  { split; [done|]. split; [constructor|]. split; [constructor|]. split; constructor. }
  destruct (refines_each n (bucketing n) InPlace.addLog addLog records bucketing_bound
              (fun log _ => addLog_refines log) h _ _ HI) as [Hk Hres].
  destruct (each InPlace.addLog records ([], []) h) as [res h1]. simpl in Hk, Hres.
  destruct (JS.forEach addLog records ([], [])) as [ps|]; simpl.
  2: { rewrite Hres. done. }
  destruct Hres as (st & -> & Hn1 & Hw & Hmo & Hsep).
  erewrite bind_Normal;
    [|by apply (mapM_hold scoresAt h1 st.1 ps.1 InPlace.toTrend toTrend (toTrend_run h1))].
  erewrite bind_Normal;
    [|by apply (mapM_hold scoresAt h1 st.2 ps.2 InPlace.toTrend toTrend (toTrend_run h1))].
  rewrite bind_run. cbn [alloc].
  rewrite (sort_run _ _ _ byPeriod (lookup_fresh h1 (arrayOf _))). rewrite insert_fresh.
  simpl. split_and!.
  - eapply keeps_trans; [exact Hk|]. by apply keeps_alloc.
  - unfold outcome, get. simpl. rewrite lookup_fresh. done.
  - unfold fresh. simpl. destruct Hk as [? _]. lia.
Qed.

End TrendsRun.

Lemma calculateTrends_run `{Host} (h : heap) (logs : ref)
    (records : list ObservationLog.t) (studentId : option string) :
  h !! logs = Some (Records records) ->
  keeps (length h) h (InPlace.calculateTrends logs studentId h).2
  /\ outcome (InPlace.calculateTrends logs studentId h) = calculateTrends records studentId
  /\ fresh h (InPlace.calculateTrends logs studentId h).
Proof.
  intros Hlogs. change (h !! logs = Some (arrayOf records)) in Hlogs.
  unfold InPlace.calculateTrends, calculateTrends, filteredLogs.
  destruct studentId as [sid|]; [destruct (decide (sid = "")) as [->|Hsid]|].
  - rewrite bind_run. cbn [mret M_ret]. by apply trends_run.
  - rewrite bind_run. rewrite (filter_run _ _ _ _ Hlogs).
    set (selected := List.filter _ records).
    destruct (trends_run (length h) (h ++ [arrayOf selected]) (length h) selected)
      as (Hk & Hout & Hfresh).
    + rewrite length_app. lia.
    + apply lookup_fresh.
    + split_and!; [|exact Hout|].
      * eapply keeps_trans; [|exact Hk]. by apply keeps_alloc.
      * unfold fresh in *. destruct (_.1); [|done].
        rewrite length_app in Hfresh. lia.
  - rewrite bind_run. cbn [mret M_ret]. by apply trends_run.
Qed.


(** *** [calculatePeerComparison] *)

Section PeersRun.
Variable n : nat.

Lemma studentAt_frame h h' d p :
  studentAt h d p -> (forall r, r ∈ studentRefs d -> h' !! r = h !! r) -> studentAt h' d p.
Proof. intros [Hs Hn] Hsame. split; [|done]. by eapply scoresAt_frame. Qed.

Lemma collecting_bound h m pm : collecting n h m pm -> (n <= length h)%nat.
Proof. by intros (? & _). Qed.

Lemma pushStudentScore_refines sid cs :
  refines n (collecting n) (fun m => InPlace.pushStudentScore m sid cs)
    (fun pm => pushStudentScore pm sid cs).
Proof.
  intros h m pm (Hn & Hh & Hsep).
  unfold InPlace.pushStudentScore, pushStudentScore.
  set (c := CategoryScore.category cs). set (x := CategoryScore.score cs).
  rewrite <- (app_nil_r (refs studentRefs m)) in Hsep.
  pose proof (mutate_run studentRefs studentAt studentAt_frame n h m pm sid
    (fun d => scores ← InPlace.pushScore c x (InPlace.sr_scores d);
              mret {| InPlace.sr_scores := scores; InPlace.sr_name := InPlace.sr_name d |})
    (fun d => scores ← pushScore c x (sd_scores d);
              Normal {| sd_scores := scores; sd_name := sd_name d |})
    [] Hn Hh Hsep) as Hrun.
  destruct (Map_modify sid _ pm) as [pm'|].
  - destruct Hrun as (m' & h' & Hrun & Hh' & Hsep' & _ & Hk).
    + intros d p rest [Hs Hname] Hsepd.
      pose proof (pushScore_run n h _ _ c x rest Hs Hsepd) as Hpush.
      destruct (pushScore c x (sd_scores p)) as [p'|]; simpl.
      * destruct Hpush as (obj' & h' & Hrun & Hs' & Heff).
        eexists _, h'. rewrite (bind_Normal _ _ _ _ _ Hrun). by split.
      * by rewrite (bind_Throw _ _ _ _ Hpush).
    + rewrite Hrun. simpl. split; [done|]. exists m'. split; [done|].
      split; [destruct Hk as [? _]; lia|]. split; [done|]. by rewrite app_nil_r in Hsep'.
  - rewrite Hrun.
    + simpl. split; [by apply keeps_refl|done].
    + intros d p rest [Hs Hname] Hsepd.
      pose proof (pushScore_run n h _ _ c x rest Hs Hsepd) as Hpush.
      destruct (pushScore c x (sd_scores p)) as [p'|]; simpl.
      * destruct Hpush as (obj' & h' & Hrun' & Hs' & Heff).
        eexists _, h'. rewrite (bind_Normal _ _ _ _ _ Hrun'). by split.
      * by rewrite (bind_Throw _ _ _ _ Hpush).
Qed.

Lemma collectLog_refines log :
  refines n (collecting n) (fun m => InPlace.collectLog m log) (fun pm => collectLog pm log).
Proof.
  intros h m pm (Hn & Hh & Hsep). unfold InPlace.collectLog, collectLog. cbv zeta.
  set (sid := ObservationLog.studentId log).
  rewrite <- (app_nil_r (refs studentRefs m)) in Hsep.
  destruct (owned_init studentRefs studentAt n h m pm sid
              {| InPlace.sr_scores := ∅; InPlace.sr_name := ObservationLog.studentName log |}
              {| sd_scores := ∅; sd_name := ObservationLog.studentName log |} []
              Hh Hsep scoreRefs_empty) as [Hh' Hsep'].
  { split; [|done]. intros c. simpl. by rewrite !lookup_empty. }
  rewrite app_nil_r in Hsep'.
  assert (HI : collecting n h
                 (if Map_has sid m then m
                  else Map_set sid {| InPlace.sr_scores := ∅;
                                      InPlace.sr_name := ObservationLog.studentName log |} m)
                 (if Map_has sid pm then pm
                  else Map_set sid {| sd_scores := ∅;
                                      sd_name := ObservationLog.studentName log |} pm))
    by done.
  destruct (ObservationLog.categories log) as [cats|].
  - apply (refines_each n (collecting n)
             (fun st cs => InPlace.pushStudentScore st sid cs)
             (fun st cs => pushStudentScore st sid cs) cats collecting_bound
             (fun cs _ => pushStudentScore_refines sid cs)). exact HI.
  - simpl. split; [by apply keeps_refl|]. eexists. split; [done|exact HI].
Qed.

Lemma toAverages_run h e p :
  e.1 = p.1 -> studentAt h e.2 p.2 -> InPlace.toAverages e h = (Normal (toAverages p), h).
Proof.
  intros Hk [Hs Hname]. unfold InPlace.toAverages.
  rewrite (bind_Normal _ _ _ _ _ (Object_entries_run _ _ _ Hs)).
  rewrite Hk, Hname. by destruct p as [k []].
Qed.

(** The percentile passes work around one cell, [studentAverages]. *)
Variables (h1 : heap) (studentAverages : ref).
Hypothesis students_bound : (studentAverages < length h1)%nat.

Lemma rankCategory_run students ext category :
  exists ext',
    InPlace.rankCategory studentAverages tt category
      (<[studentAverages := arrayOf students]> h1 ++ ext)
    = (Normal tt, <[studentAverages := arrayOf (rankCategory students category)]> h1 ++ ext').
Proof.
  unfold InPlace.rankCategory, rankCategory.
  set (h := <[studentAverages := arrayOf students]> h1 ++ ext).
  assert (Hs : h !! studentAverages = Some (arrayOf students)) by (by apply around_target).
  rewrite (bind_Normal _ _ _ _ _ (elements_run _ _ _ Hs)).
  rewrite bind_run. cbn [alloc]. rewrite bind_run.
  rewrite (sort_run _ _ _ (fun a b => (a - b)%float) (lookup_fresh h (arrayOf _))).
  rewrite insert_fresh. fold (cohortScores students category).
  set (sorted := cohortScores students category).
  set (h2 := h ++ [arrayOf sorted]).
  assert (Hs2 : h2 !! studentAverages = Some (arrayOf students)).
  { unfold h2. rewrite lookup_app_l; [done|]. by apply lookup_lt_Some in Hs. }
  unfold update. rewrite (bind_Normal _ _ _ _ _ (elements_run _ _ _ Hs2)).
  erewrite bind_Normal.
  2: { apply (mapM_read _ (fun student =>
                setPercentile category
                  (percentileOf sorted (PeerComparison.categoryAverages student !! category))
                  student)).
       intros student _. unfold h2.
       by rewrite (bind_Normal _ _ _ _ _ (elements_run _ _ _ (lookup_fresh h (arrayOf sorted)))). }
  unfold assign, h2, h. rewrite <- app_assoc, around_assign by done. by eexists.
Qed.

Lemma rankCategories_run students ext cs :
  exists ext',
    each (InPlace.rankCategory studentAverages) cs tt
      (<[studentAverages := arrayOf students]> h1 ++ ext)
    = (Normal tt,
       <[studentAverages := arrayOf (fold_left rankCategory cs students)]> h1 ++ ext').
Proof.
  revert students ext. induction cs as [|c cs IH]; intros students ext; simpl.
  - by exists ext.
  - destruct (rankCategory_run students ext c) as [ext1 Hrun].
    rewrite (bind_Normal _ _ _ _ _ Hrun). apply IH.
Qed.

End PeersRun.

Lemma calculatePeerComparison_run (h : heap) (logs : ref) (records : list ObservationLog.t) :
  h !! logs = Some (Records records) ->
  keeps (length h) h (InPlace.calculatePeerComparison logs h).2
  /\ outcome (InPlace.calculatePeerComparison logs h) = calculatePeerComparison records
  /\ fresh h (InPlace.calculatePeerComparison logs h).
Proof.
  intros Hlogs. change (h !! logs = Some (arrayOf records)) in Hlogs.
  unfold InPlace.calculatePeerComparison, calculatePeerComparison, forEach.
  rewrite bind_run, (bind_Normal _ _ _ _ _ (elements_run _ _ _ Hlogs)).
  set (n := length h).
  assert (HI : collecting n h [] []).
  { split; [done|]. split; [constructor|]. split; constructor. }
  destruct (refines_each n (collecting n) InPlace.collectLog collectLog records
              (collecting_bound n) (fun log _ => collectLog_refines n log) h _ _ HI)
    as [Hk Hres].
  destruct (each InPlace.collectLog records [] h) as [res h1]. simpl in Hk, Hres.
  destruct (JS.forEach collectLog records []) as [pm|]; simpl.
  2: { rewrite Hres. done. }
  destruct Hres as (m & -> & Hn1 & Hh & Hsep).
  erewrite bind_Normal;
    [|by apply (mapM_hold studentAt h1 m pm InPlace.toAverages toAverages (toAverages_run h1))].
  fold (studentAverages pm).
  rewrite (bind_Normal _ _ _ _ _ (alloc_run _ _)).
  set (r := length h1). set (hr := h1 ++ [arrayOf (studentAverages pm)]).
  assert (Hr : (r < length hr)%nat) by (unfold hr, r; rewrite length_app; simpl; lia).
  assert (Hshape : hr = <[r := arrayOf (studentAverages pm)]> hr ++ []).
  { rewrite app_nil_r. symmetry. apply list_insert_id. apply lookup_fresh. }
  destruct (rankCategories_run hr r Hr (studentAverages pm) [] categories) as [ext Hrun].
  rewrite <- Hshape in Hrun. rewrite (bind_Normal _ _ _ _ _ Hrun).
  set (ranked := fold_left rankCategory categories (studentAverages pm)).
  set (h2 := <[r := arrayOf ranked]> hr ++ ext).
  assert (H2 : h2 !! r = Some (arrayOf ranked)) by (by apply around_target).
  rewrite bind_run. unfold update.
  rewrite (bind_Normal _ _ _ _ _ (elements_run _ _ _ H2)).
  erewrite bind_Normal; [|by apply (mapM_read _ setOverall)].
  unfold assign, h2. rewrite around_assign by done.
  fold (rankedStudents (studentAverages pm)).
  rewrite (sort_run _ _ _ byOverallDesc (around_target hr r _ ext Hr)).
  rewrite around_assign by done. simpl. split_and!.
  - apply (keeps_trans _ _ h1); [done|].
    apply (keeps_trans _ _ hr); [by apply keeps_alloc|].
    apply around_keeps; [unfold r; lia|done].
  - unfold outcome, get. simpl. by rewrite around_target.
  - unfold fresh, r. simpl. destruct Hk as [? _]. unfold n in *. lia.
Qed.


(** ** Purity *)

Lemma keeps_le n n' h h' : (n <= n')%nat -> keeps n' h h' -> keeps n h h'.
Proof. intros Hn [Hl Hk]. split; [lia|]. intros r Hr. apply Hk. lia. Qed.

(** A call that keeps the caller's cells and computes [result] from what
    the cells the property [P] speaks of hold is a pure call. *)
Lemma pureCall_intro {T} `{Element T} (call : M ref) (P : heap -> Prop) h
    (result : Completion (list T)) :
  (forall h, P h -> keeps (length h) h (call h).2 /\ outcome (call h) = result) ->
  (forall h h', P h -> keeps (length h) h h' -> P h') ->
  P h -> pureCall call h result.
Proof.
  intros Hcall Hstable HP. unfold pureCall. cbv zeta.
  destruct (Hcall h HP) as [Hk1 Hout1].
  pose proof (Hstable _ _ HP Hk1) as HP1.
  destruct (Hcall _ HP1) as [Hk2 Hout2].
  split_and!; [done|done|by apply keeps_unchanged|].
  apply keeps_unchanged. eapply keeps_trans; [exact Hk1|].
  eapply keeps_le; [|exact Hk2]. destruct Hk1 as [? _]. lia.
Qed.

Lemma keeps_lookup h h' r a :
  h !! r = Some a -> keeps (length h) h h' -> h' !! r = Some a.
Proof. intros Hr [_ Hk]. rewrite Hk; [done|]. by apply lookup_lt_Some in Hr. Qed.

(** C9: each of the four functions, as it runs on a heap where [logs] and
    [alerts] are the addresses of the caller's record array and alert
    array, is deterministic and pure: called twice in a row, it has both
    times the outcome that the definition of [Analytics] gives for the
    elements of those arrays (the same array elements, or the same
    exception), and after each call every array that was on the heap
    before, the caller's included, is at its address with its elements
    unchanged. *)
Theorem analytics_pure `{Host} (h : heap) (logs alerts : ref)
    (records : list ObservationLog.t) (given : list InterventionAlert.t)
    (studentId : option string) :
  h !! logs = Some (Records records) ->
  h !! alerts = Some (Alerts given) ->
  pureCall (InPlace.calculateTrends logs studentId) h (calculateTrends records studentId)
  /\ pureCall (InPlace.calculatePeerComparison logs) h (calculatePeerComparison records)
  /\ pureCall (InPlace.generateInterventionAlerts logs) h
       (Normal (generateInterventionAlerts records))
  /\ pureCall (InPlace.generateRecommendations logs alerts) h
       (generateRecommendations records given).
Proof.
  intros Hlogs Halerts. split_and!.
  - apply (pureCall_intro _ (fun h => h !! logs = Some (Records records))); [| |done].
    + intros h0 H0.
      by destruct (calculateTrends_run h0 logs records studentId H0) as (? & ? & _).
    + intros h0 h' H0 Hk. by eapply keeps_lookup.
  - apply (pureCall_intro _ (fun h => h !! logs = Some (Records records))); [| |done].
    + intros h0 H0.
      by destruct (calculatePeerComparison_run h0 logs records H0) as (? & ? & _).
    + intros h0 h' H0 Hk. by eapply keeps_lookup.
  - apply (pureCall_intro _ (fun h => h !! logs = Some (Records records))); [| |done].
    + intros h0 H0.
      by destruct (generateInterventionAlerts_run h0 logs records H0) as (? & ? & _).
    + intros h0 h' H0 Hk. by eapply keeps_lookup.
  - apply (pureCall_intro _ (fun h => h !! alerts = Some (Alerts given))); [| |done].
    + intros h0 H0.
      by destruct (generateRecommendations_run h0 logs alerts records given H0)
        as (? & ? & _).
    + intros h0 h' H0 Hk. by eapply keeps_lookup.
Qed.

(** The sample cohort and two alerts, held by the caller at the addresses
    0 and 1. *)
Lemma analytics_pure_witness :
  pureCall (InPlace.calculateTrends (H := UTCHost.host) 0 None) Examples.callerHeap
    (calculateTrends (H := UTCHost.host) Examples.cohort None)
  /\ pureCall (InPlace.calculatePeerComparison 0) Examples.callerHeap
       (calculatePeerComparison Examples.cohort)
  /\ pureCall (InPlace.generateInterventionAlerts (H := UTCHost.host) 0) Examples.callerHeap
       (Normal (generateInterventionAlerts (H := UTCHost.host) Examples.cohort))
  /\ pureCall (InPlace.generateRecommendations 0 1) Examples.callerHeap
       (generateRecommendations Examples.cohort
          [Examples.alertFor 2 "Cognitive Skills"; Examples.alertFor 2 "Motor Skills"]).
Proof.
  apply (analytics_pure (H := UTCHost.host) Examples.callerHeap 0%nat 1%nat); reflexivity.
Defined.

(** The heap does register an in-place method on a caller's array: had
    [calculateTrends] sorted [filteredLogs], which without a [studentId]
    is the caller's array, the call would have reordered the caller's
    records. *)
Example sort_in_place_is_seen :
  let h := [Records (rev Examples.falling)] in
  (sort (byTimestamp (H := UTCHost.host)) 0 h).2 = [Records Examples.falling]
  /\ ~ unchanged h (sort (byTimestamp (H := UTCHost.host)) 0 h).2.
Proof.
  split; [vm_compute; reflexivity|].
  intros Hsame. vm_compute in Hsame. discriminate Hsame.
Qed.

(** A call that throws leaves the caller's arrays alone as well. *)
Example throwing_call :
  let h := [Records [Examples.bare; Examples.odd]] in
  (InPlace.calculateTrends (H := UTCHost.host) 0 None h).1 = Throw_TypeError
  /\ unchanged h (InPlace.calculateTrends (H := UTCHost.host) 0 None h).2.
Proof. vm_compute. split; reflexivity. Qed.

(** X7: the array a call returns is a new one: its address is none of
    those on the heap before the call.  The output is never the caller's
    array, also when [calculateTrends] is called without a [studentId] and
    [filteredLogs] is the caller's array itself. *)
Theorem outputs_fresh `{Host} (h : heap) (logs alerts : ref)
    (records : list ObservationLog.t) (given : list InterventionAlert.t)
    (studentId : option string) :
  h !! logs = Some (Records records) ->
  h !! alerts = Some (Alerts given) ->
  fresh h (InPlace.calculateTrends logs studentId h)
  /\ fresh h (InPlace.calculatePeerComparison logs h)
  /\ fresh h (InPlace.generateInterventionAlerts logs h)
  /\ fresh h (InPlace.generateRecommendations logs alerts h).
Proof.
  intros Hlogs Halerts. split_and!.
  - by destruct (calculateTrends_run h logs records studentId Hlogs) as (_ & _ & ?).
  - by destruct (calculatePeerComparison_run h logs records Hlogs) as (_ & _ & ?).
  - by destruct (generateInterventionAlerts_run h logs records Hlogs) as (_ & _ & ?).
  - by destruct (generateRecommendations_run h logs alerts records given Halerts)
      as (_ & _ & ?).
Qed.

Lemma outputs_fresh_witness :
  fresh Examples.callerHeap
    (InPlace.calculateTrends (H := UTCHost.host) 0 None Examples.callerHeap)
  /\ fresh Examples.callerHeap (InPlace.calculatePeerComparison 0 Examples.callerHeap)
  /\ fresh Examples.callerHeap
       (InPlace.generateInterventionAlerts (H := UTCHost.host) 0 Examples.callerHeap)
  /\ fresh Examples.callerHeap (InPlace.generateRecommendations 0 1 Examples.callerHeap).
Proof.
  apply (outputs_fresh (H := UTCHost.host) Examples.callerHeap 0%nat 1%nat
           Examples.cohort
           [Examples.alertFor 2 "Cognitive Skills"; Examples.alertFor 2 "Motor Skills"]);
    reflexivity.
Defined.
